(** * Arknights-Simulator: a shallow embedding of the battle engine

    The development follows the Python sources:
    - [skill_system.py]   -> module [Skill]
    - [game_entities.py]  -> modules [Position], [Buff], [GameEntity],
                             [Operator], [Enemy]
    - [operation_result.py] -> module [OperationResult]
    - [game_map.py]       -> modules [Tile], [Route], [Wave*], [GameMap]
    - [battle_simulator.py] -> modules [BattleAction], [BattleSimulator]

    Conventions.
    - Python [int] is [Z]; Python [float] (times, costs, SP, resistances) is
      idealised as an exact rational [Q]: rounding is not modelled.
    - Python objects that are shared and mutated (operators, enemies, tiles)
      live in stores ([gmap]) and are referred to by their key, so that two
      references to one object observe each other's writes.
    - A raised Python exception is the outer [None] of an [option] result. *)

From Stdlib Require Import ZArith QArith Qround Qminmax Lia Lqa String List.
From stdpp Require Import base option list gmap strings.

Open Scope Z_scope.

(** ** Python helpers *)

Module Py.

(** [l[i]] with Python's negative indices; [None] is [IndexError]. *)
Definition index {A} (l : list A) (i : Z) : option A :=
  let n := Z.of_nat (length l) in
  if 0 <=? i then l !! Z.to_nat i
  else if - n <=? i then l !! Z.to_nat (n + i)
  else None.

(** [int(x)] on a float: truncation toward zero. *)
Definition int (x : Q) : Z := Z.quot (Qnum x) (Zpos (Qden x)).

(** [x / y] on floats; [None] is [ZeroDivisionError]. *)
Definition div (x y : Q) : option Q :=
  if Qeq_bool y 0 then None else Some (x / y)%Q.

(** [x < y], [x <= y] on floats. *)
Definition ltb (x y : Q) : bool := negb (Qle_bool y x).
Definition leb (x y : Q) : bool := Qle_bool x y.

(** [l.remove(x)]: drops the first occurrence; [None] is [ValueError]. *)
Fixpoint remove (x : nat) (l : list nat) : option (list nat) :=
  match l with
  | [] => None
  | y :: l' => if Nat.eqb x y then Some l'
               else l'' ← remove x l'; Some (y :: l'')
  end.

(** [x in l] for a list of object references. *)
Definition contains (x : nat) (l : list nat) : bool :=
  existsb (Nat.eqb x) l.

(** Monadic left fold: a [for] loop whose body may raise. *)
Fixpoint foldM {S A} (body : S -> A -> option S) (s : S) (l : list A)
  : option S :=
  match l with
  | [] => Some s
  | a :: l' => s' ← body s a; foldM body s' l'
  end.

(** Sum of a list of time increments. *)
Definition total (dts : list Q) : Q := fold_right Qplus 0%Q dts.

End Py.

(** ** skill_system.py *)

Inductive SPType :=
  | INCREASE_WITH_TIME | INCREASE_WHEN_ATTACK | INCREASE_WHEN_TAKEN_DAMAGE.

Inductive SkillType := MANUAL | AUTO | PASSIVE.

Inductive DurationType := DUR_NONE | SECONDS | AMMO.

Module SkillLevel.
Record t := mk {
  skill_type : SkillType;
  duration_type : DurationType;
  duration : Q;
  sp_type : SPType;
  sp_cost : Q;
  init_sp : Q;
  max_charge_time : Z;
  increment : Q;
  effects : gmap string Q
}.

(** [SkillEffect.get_effect] *)
Definition get_effect (l : t) (key : string) (default : Q) : Q :=
  match effects l !! key with Some v => v | None => default end.
End SkillLevel.

Module Skill.
Record t := mk {
  levels : list SkillLevel.t;
  current_level : Z;
  current_sp : Q;
  charge_count : Z;
  is_active : bool;
  remaining_duration : Q;
  remaining_ammo : Z
}.

Definition set_sp (s : t) (sp : Q) (cc : Z) : t :=
  mk (levels s) (current_level s) sp cc (is_active s)
     (remaining_duration s) (remaining_ammo s).

Definition set_run (s : t) (a : bool) (d : Q) (m : Z) : t :=
  mk (levels s) (current_level s) (current_sp s) (charge_count s) a d m.

(** [get_current_level]: raises [ValueError] without level data. *)
Definition get_current_level (s : t) : option SkillLevel.t :=
  match levels s with
  | [] => None
  | _ => Py.index (levels s) (current_level s)
  end.

Definition can_activate (s : t) : option bool :=
  level ← get_current_level s;
  match SkillLevel.skill_type level with
  | PASSIVE => Some false
  | _ =>
      if 1 <? SkillLevel.max_charge_time level
      then Some (0 <? charge_count s)
      else Some (Py.leb (SkillLevel.sp_cost level) (current_sp s))
  end.

Definition should_auto_activate (s : t) : option bool :=
  level ← get_current_level s;
  match SkillLevel.skill_type level with
  | AUTO =>
      if 1 <? SkillLevel.max_charge_time level
      then Some (SkillLevel.max_charge_time level <=? charge_count s)
      else Some (Py.leb (SkillLevel.sp_cost level) (current_sp s))
  | _ => Some false
  end.

(** The part of [activate] after its guard. *)
Definition do_activate (s : t) : option (bool * t) :=
  level ← get_current_level s;
  let s1 :=
    if 1 <? SkillLevel.max_charge_time level
    then set_sp s (current_sp s) (charge_count s - 1)
    else set_sp s 0%Q (charge_count s) in
  let s2 := set_run s1 true (remaining_duration s1) (remaining_ammo s1) in
  Some (true,
    match SkillLevel.duration_type level with
    | SECONDS => set_run s2 true (SkillLevel.duration level) (remaining_ammo s2)
    | AMMO =>
        set_run s2 true (remaining_duration s2)
          (Py.int (SkillLevel.get_effect level "times"
                     (SkillLevel.duration level)))
    | DUR_NONE => s2
    end).

Definition activate (s : t) : option (bool * t) :=
  c ← can_activate s;
  if (c : bool) then do_activate s
  else
    (a ← should_auto_activate s;
     if (a : bool) then do_activate s else Some (false, s)).

(** The [while] loop shared by [update_sp] and [_gain_sp]: it banks one
    charge per iteration and runs at most [max_charge_time - charge_count]
    times, which is the fuel [n]. *)
Fixpoint bank_charges (n : nat) (cost : Q) (maxc : Z) (sp : Q) (cc : Z)
  : Q * Z :=
  match n with
  | O => (sp, cc)
  | S n' =>
      if Py.leb cost sp && (cc <? maxc)
      then bank_charges n' cost maxc (sp - cost)%Q (cc + 1)
      else (sp, cc)
  end.

Definition _gain_sp_level (level : SkillLevel.t) (s : t) (amount : Q) : t :=
  if 1 <? SkillLevel.max_charge_time level
  then
    let maxc := SkillLevel.max_charge_time level in
    let '(sp, cc) :=
      bank_charges (Z.to_nat (maxc - charge_count s))
        (SkillLevel.sp_cost level) maxc (current_sp s + amount)%Q
        (charge_count s) in
    set_sp s sp cc
  else
    set_sp s (Qmin (current_sp s + amount) (SkillLevel.sp_cost level))
      (charge_count s).

Definition update_sp (s : t) (delta_time : Q) : option t :=
  match levels s with
  | [] => Some s
  | _ =>
      level ← get_current_level s;
      match SkillLevel.sp_type level with
      | INCREASE_WITH_TIME =>
          Some (_gain_sp_level level s
                  (SkillLevel.increment level * delta_time * 1)%Q)
      | _ => Some s
      end
  end.

Definition deactivate (s : t) : t := set_run s false 0%Q 0.

Definition update_duration (s : t) (delta_time : Q) : option t :=
  if negb (is_active s) then Some s
  else
    level ← get_current_level s;
    match SkillLevel.duration_type level with
    | SECONDS =>
        let s1 := set_run s (is_active s)
                    (remaining_duration s - delta_time)%Q
                    (remaining_ammo s) in
        if Py.leb (remaining_duration s1) 0 then Some (deactivate s1)
        else Some s1
    | DUR_NONE => Some (deactivate s)
    | AMMO => Some s
    end.

(** Repeated [update_duration] calls, one per tick. *)
Definition run_duration (s : t) (dts : list Q) : option t :=
  Py.foldM update_duration s dts.


(** [Skill.__init__]: the level index is capped from above only, and the
    initial SP is read through [get_current_level]. *)
Definition init (lvls : list SkillLevel.t) (skill_level : Z) : option t :=
  match lvls with
  | [] => Some (mk [] 0 0%Q 0 false 0%Q 0)
  | _ =>
      let cur := Z.min skill_level (Z.of_nat (length lvls) - 1) in
      level ← get_current_level (mk lvls cur 0%Q 0 false 0%Q 0);
      Some (mk lvls cur (SkillLevel.init_sp level) 0 false 0%Q 0)
  end.

Definition _gain_sp (s : t) (sp_amount : Q) : option t :=
  level ← get_current_level s;
  Some (_gain_sp_level level s sp_amount).

Definition gain_sp_on_attack (s : t) (sp_gain : Q) : option t :=
  match levels s with
  | [] => Some s
  | _ =>
      level ← get_current_level s;
      match SkillLevel.sp_type level with
      | INCREASE_WHEN_ATTACK =>
          _gain_sp s (sp_gain * SkillLevel.increment level)%Q
      | _ => Some s
      end
  end.

Definition gain_sp_on_damage (s : t) (sp_gain : Q) : option t :=
  match levels s with
  | [] => Some s
  | _ =>
      level ← get_current_level s;
      match SkillLevel.sp_type level with
      | INCREASE_WHEN_TAKEN_DAMAGE =>
          _gain_sp s (sp_gain * SkillLevel.increment level)%Q
      | _ => Some s
      end
  end.

(** [consume_ammo]: the returned flag and the skill afterwards. *)
Definition consume_ammo (s : t) : option (bool * t) :=
  level ← get_current_level s;
  match SkillLevel.duration_type level with
  | AMMO =>
      if is_active s then
        let s1 := set_run s (is_active s) (remaining_duration s)
                    (remaining_ammo s - 1) in
        if remaining_ammo s1 <=? 0 then Some (false, deactivate s1)
        else Some (true, s1)
      else Some (true, s)
  | _ => Some (true, s)
  end.

(** Repeated [consume_ammo] calls; the flags come back in call order. *)
Fixpoint consume_many (n : nat) (s : t) : option (list bool * t) :=
  match n with
  | O => Some ([], s)
  | S n' =>
      r ← consume_ammo s;
      r' ← consume_many n' r.2;
      Some (r.1 :: r'.1, r'.2)
  end.

Definition get_skill_modifier (s : t) (attribute : string) : option Q :=
  if negb (is_active s) || match levels s with [] => true | _ => false end
  then Some 0%Q
  else
    level ← get_current_level s;
    Some (SkillLevel.get_effect level attribute 0%Q).

(** The loop over [multiplier_keys] in [get_attack_multiplier]. *)
Fixpoint first_positive (s : t) (keys : list string) : option Q :=
  match keys with
  | [] => Some 1%Q
  | key :: keys' =>
      modifier ← get_skill_modifier s key;
      if Py.ltb 0 modifier then Some modifier else first_positive s keys'
  end.

Definition multiplier_keys : list string :=
  ["atk_scale"; "attack_scale"; "atk"; "attack_power"].

Definition get_attack_multiplier (s : t) : option Q :=
  if negb (is_active s) then Some 1%Q
  else first_positive s multiplier_keys.

(** The SP state of a skill that time does not charge and that never
    fires on its own; [None] for every other skill. *)
Definition banked (s : t) : option (Q * Z) :=
  match get_current_level s with
  | Some level =>
      match SkillLevel.sp_type level, SkillLevel.skill_type level with
      | INCREASE_WITH_TIME, _ => None
      | _, AUTO => None
      | _, _ => Some (current_sp s, charge_count s)
      end
  | None => None
  end.
End Skill.

(** ** operation_result.py

    The failure reasons are Python f-strings.  A reason is kept as the
    template it was built from together with the interpolated values;
    [text] is the literal text the template starts with. *)

Inductive BuildableType := BT_NONE | BT_MELEE | BT_RANGED | BT_ALL.

Module Position.
Record t := mk { row : Z; col : Z }.

(** [Position.__eq__] *)
Definition eqb (a b : t) : bool := (row a =? row b) && (col a =? col b).

(** Square of [distance_to]; the square root is monotone, so comparing
    squares orders positions the way the (exact) distances do. *)
Definition distance2 (a b : t) : Z :=
  (row a - row b) * (row a - row b) + (col a - col b) * (col a - col b).
End Position.

(** [Operator.position] holds the placement class read from the operator
    table (a string, ["MELEE"] or ["RANGED"]) until [deploy] overwrites it
    with the grid position; [retreat] sets it to [None]. *)
Inductive PyPos :=
  | PosNone
  | PosStr (s : string)
  | PosAt (p : Position.t).

Module OperationResult.
Inductive Msg :=
  | InvalidPosition (row col : Z)
  | NoTileInfo (row col : Z)
  | TileOccupied (row col : Z)
  | TypeMismatch (name : string) (operator_position : PyPos)
                 (tile_type : BuildableType)
  | InsufficientCost (needed current : Q)
  | CharacterLimit (limit : Z)
  | TileRefused
  | NoSkills
  | SkillIndexOutOfRange (skill_index : Z) (len : nat)
  | SkillActivationFailed
  | InsufficientSP (current required : Q).

Definition text (m : Msg) : string :=
  match m with
  | InvalidPosition _ _ => "位置无效"
  | NoTileInfo _ _ => "无法获取地块信息"
  | TileOccupied _ _ => "位置已被占用"
  | TypeMismatch _ _ _ => "干员类型不匹配"
  | InsufficientCost _ _ => "费用不足"
  | CharacterLimit _ => "已达到人数上限"
  | TileRefused => "地块拒绝部署"
  | NoSkills => "干员没有技能"
  | SkillIndexOutOfRange _ _ => "技能索引超出范围"
  | SkillActivationFailed => "技能激活失败"
  | InsufficientSP _ _ => "SP不足"
  end.

Record t := mk { success : bool; reason : option Msg }.

Definition success_result : t := mk true None.
Definition failure_result (m : Msg) : t := mk false (Some m).
End OperationResult.

(** ** game_entities.py *)

Inductive Direction := RIGHT | DOWN | LEFT | UP.

Module Buff.
Record t := mk {
  duration : Q;
  remaining_duration : Q;
  is_active : bool
}.

Definition update (b : t) (delta_time : Q) : t :=
  if is_active b && Py.ltb 0 (duration b) then
    let r := (remaining_duration b - delta_time)%Q in
    mk (duration b) r (if Py.leb r 0 then false else is_active b)
  else b.

(** [Buff.__init__] *)
Definition make (d : Q) : t := mk d d true.

(** Repeated [update] calls, one per tick. *)
Definition run (b : t) (dts : list Q) : t :=
  fold_left update dts b.
End Buff.

Module GameEntity.
(** The fields of the base class, except [position], whose content differs
    between the two subclasses and is kept there. *)
Record t := mk {
  name : string;
  max_hp : Z;
  current_hp : Z;
  atk : Z;
  def_ : Z;
  magic_resistance : Q;
  move_speed : Q;
  attack_speed : Q;
  base_attack_time : Q;
  is_alive : bool;
  buffs : list Buff.t;
  debuffs : list Buff.t
}.

Definition set_hp (e : t) (hp : Z) (alive : bool) : t :=
  mk (name e) (max_hp e) hp (atk e) (def_ e) (magic_resistance e)
     (move_speed e) (attack_speed e) (base_attack_time e) alive
     (buffs e) (debuffs e).

Definition set_buffs (e : t) (bs ds : list Buff.t) : t :=
  mk (name e) (max_hp e) (current_hp e) (atk e) (def_ e)
     (magic_resistance e) (move_speed e) (attack_speed e)
     (base_attack_time e) (is_alive e) bs ds.

(** The damage [take_damage] inflicts. *)
Definition actual_damage (e : t) (damage : Z) (is_arts : bool) : Z :=
  if is_arts
  then Z.max 1 (Py.int (inject_Z damage * (1 - magic_resistance e))%Q)
  else Z.max 1 (damage - def_ e).

(** [take_damage]: the returned damage and the entity afterwards. *)
Definition take_damage (e : t) (damage : Z) (is_arts : bool) : Z * t :=
  let actual := actual_damage e damage is_arts in
  let hp := Z.max 0 (current_hp e - actual) in
  (actual, set_hp e hp (if hp <=? 0 then false else is_alive e)).

Definition step_buffs (bs : list Buff.t) (delta_time : Q) : list Buff.t :=
  List.filter Buff.is_active (List.map (fun b => Buff.update b delta_time) bs).

Definition update_buffs (e : t) (delta_time : Q) : t :=
  set_buffs e (step_buffs (buffs e) delta_time)
    (step_buffs (debuffs e) delta_time).

(** [heal]: the amount healed and the entity afterwards. *)
Definition heal (e : t) (heal_amount : Z) : Z * t :=
  let hp := Z.min (max_hp e) (current_hp e + heal_amount) in
  (hp - current_hp e, set_hp e hp (is_alive e)).

(** [apply_buff] and [apply_debuff]; [Buff.apply] does nothing. *)
Definition apply_buff (e : t) (b : Buff.t) : t :=
  set_buffs e (buffs e ++ [b]) (debuffs e).

Definition apply_debuff (e : t) (b : Buff.t) : t :=
  set_buffs e (buffs e) (debuffs e ++ [b]).

(** A run of hits, each with its own attack value and damage kind. *)
Definition take_hits (e : t) (hits : list (Z * bool)) : t :=
  fold_left (fun x h => (take_damage x h.1 h.2).2) hits e.

(** Repeated [update_buffs] calls, one per tick. *)
Definition run_buffs (e : t) (dts : list Q) : t :=
  fold_left update_buffs dts e.
End GameEntity.

Module Operator.
Record t := mk {
  base : GameEntity.t;
  position : PyPos;
  skills : list Skill.t;
  direction : Direction;
  target : option nat;
  attack_cooldown : Q;
  deploy_cost : Q;
  is_deployed : bool;
  deploy_time : Q;
  blocked_enemies : list nat;
  max_block_count : Z;
  current_sp : option Z
}.

Definition set_base (o : t) (b : GameEntity.t) : t :=
  mk b (position o) (skills o) (direction o) (target o) (attack_cooldown o)
     (deploy_cost o) (is_deployed o) (deploy_time o) (blocked_enemies o)
     (max_block_count o) (current_sp o).

Definition set_skills (o : t) (ss : list Skill.t) : t :=
  mk (base o) (position o) ss (direction o) (target o) (attack_cooldown o)
     (deploy_cost o) (is_deployed o) (deploy_time o) (blocked_enemies o)
     (max_block_count o) (current_sp o).

Definition set_timers (o : t) (cd dt : Q) : t :=
  mk (base o) (position o) (skills o) (direction o) (target o) cd
     (deploy_cost o) (is_deployed o) dt (blocked_enemies o)
     (max_block_count o) (current_sp o).

Definition set_blocked (o : t) (l : list nat) : t :=
  mk (base o) (position o) (skills o) (direction o) (target o)
     (attack_cooldown o) (deploy_cost o) (is_deployed o) (deploy_time o) l
     (max_block_count o) (current_sp o).

(** Truth value of [self.position]. *)
Definition position_truthy (o : t) : bool :=
  match position o with
  | PosNone => false
  | PosStr s => negb (String.eqb s "")
  | PosAt _ => true
  end.

(** [self.position == c] for a string constant [c]. *)
Definition position_is (o : t) (c : string) : bool :=
  match position o with
  | PosStr s => String.eqb s c
  | _ => false
  end.

(** [get_rotated_attack_range], flattened to one list of offsets. *)
Definition get_rotated_attack_range (o : t) : list (Z * Z) :=
  if position_is o "MELEE"
  then [(0, 1); (0, -1); (1, 0); (-1, 0)]
  else [(1, 0); (2, 0); (3, 0)].

(** [can_attack]; reading [row] of a string raises [AttributeError]. *)
Definition can_attack (o : t) (target_pos : Position.t) : option bool :=
  if negb (position_truthy o) || negb (is_deployed o) then Some false
  else
    match position o with
    | PosAt p =>
        let rel_row := Position.row target_pos - Position.row p in
        let rel_col := Position.col target_pos - Position.col p in
        Some (existsb (fun rc => (rel_row =? rc.1) && (rel_col =? rc.2))
                (get_rotated_attack_range o))
    | _ => None
    end.

Definition deploy (o : t) (p : Position.t) (d : Direction) : t :=
  mk (base o) (PosAt p) (skills o) d (target o) (attack_cooldown o)
     (deploy_cost o) true 0%Q (blocked_enemies o) (max_block_count o)
     (current_sp o).

Definition retreat (o : t) : t :=
  mk (base o) PosNone (skills o) (direction o) None (attack_cooldown o)
     (deploy_cost o) false (deploy_time o) [] (max_block_count o) (Some 0).

(** [activate_skill_by_index] on one skill that is known to exist. *)
Definition activate_found (skill : Skill.t)
  : option (OperationResult.t * Skill.t) :=
  c ← Skill.can_activate skill;
  if (c : bool) then
    r ← Skill.activate skill;
    if (r.1 : bool) then Some (OperationResult.success_result, r.2)
    else Some (OperationResult.failure_result
                 OperationResult.SkillActivationFailed, r.2)
  else
    level ← Skill.get_current_level skill;
    Some (OperationResult.failure_result
            (OperationResult.InsufficientSP (Skill.current_sp skill)
               (SkillLevel.sp_cost level)), skill).

(** Position in the list that Python's [l[i]] addresses. *)
Definition norm_index {A} (l : list A) (i : Z) : option nat :=
  let n := Z.of_nat (length l) in
  if (0 <=? i) && (i <? n) then Some (Z.to_nat i)
  else if (- n <=? i) && (i <? 0) then Some (Z.to_nat (n + i))
  else None.

Definition activate_skill_by_index (o : t) (skill_index : Z)
  : option (OperationResult.t * t) :=
  match skills o with
  | [] => Some (OperationResult.failure_result OperationResult.NoSkills, o)
  | _ =>
      if Z.of_nat (length (skills o)) <=? skill_index
      then Some (OperationResult.failure_result
                   (OperationResult.SkillIndexOutOfRange skill_index
                      (length (skills o))), o)
      else
        i ← norm_index (skills o) skill_index;
        skill ← skills o !! i;
        r ← activate_found skill;
        Some (r.1, set_skills o (<[i := r.2]> (skills o)))
  end.

(** One iteration of the loop of [update_skills].  The skill found by
    [self.skills.index(skill)] is the skill of the iteration itself. *)
Definition update_skill (delta_time : Q) (skill : Skill.t)
  : option Skill.t :=
  s1 ← Skill.update_sp skill delta_time;
  s2 ← Skill.update_duration s1 delta_time;
  a ← Skill.should_auto_activate s2;
  if (a : bool) then r ← activate_found s2; Some r.2 else Some s2.

Definition update_skills (o : t) (delta_time : Q) : option t :=
  ss ← mapM (update_skill delta_time) (skills o);
  Some (set_skills o ss).

Definition update (o : t) (delta_time : Q) : option t :=
  if negb (is_deployed o) then Some o
  else
    let o1 := set_base o (GameEntity.update_buffs (base o) delta_time) in
    o2 ← update_skills o1 delta_time;
    let cd := if Py.ltb 0 (attack_cooldown o2)
              then (attack_cooldown o2 - delta_time)%Q
              else attack_cooldown o2 in
    Some (set_timers o2 cd (deploy_time o2 + delta_time)%Q).

(** [activate_skill]; [None] as index stands for [active_skill_index],
    which nothing ever moves from 0. *)
Definition activate_skill (o : t) (skill_index : option Z)
  : option (OperationResult.t * t) :=
  activate_skill_by_index o (default 0 skill_index).

Definition can_activate_skill (o : t) (skill_index : Z) : option bool :=
  match skills o with
  | [] => Some false
  | _ =>
      if Z.of_nat (length (skills o)) <=? skill_index then Some false
      else skill ← Py.index (skills o) skill_index;
           Skill.can_activate skill
  end.

Definition gain_sp_on_attack (o : t) : option t :=
  ss ← mapM (fun sk => Skill.gain_sp_on_attack sk 1%Q) (skills o);
  Some (set_skills o ss).

Definition gain_sp_on_damage (o : t) : option t :=
  ss ← mapM (fun sk => Skill.gain_sp_on_damage sk 1%Q) (skills o);
  Some (set_skills o ss).

(** The loop of [get_skill_attack_multiplier]. *)
Fixpoint multiply_active (acc : Q) (ss : list Skill.t) : option Q :=
  match ss with
  | [] => Some acc
  | sk :: ss' =>
      if Skill.is_active sk then
        f ← Skill.get_attack_multiplier sk;
        multiply_active (acc * f)%Q ss'
      else multiply_active acc ss'
  end.

Definition get_skill_attack_multiplier (o : t) : option Q :=
  multiply_active 1%Q (skills o).

Definition banked (o : t) : list (option (Q * Z)) :=
  List.map Skill.banked (skills o).
End Operator.

Module Enemy.
Record t := mk {
  base : GameEntity.t;
  unique_id : Z;
  position : option Position.t;
  path : list Position.t;
  path_index : nat;
  move_progress : Q;
  is_blocked : bool;
  blocked_by : option nat;
  target : option nat;
  attack_cooldown : Q;
  has_reached_goal : bool
}.

Definition set_base (e : t) (b : GameEntity.t) : t :=
  mk b (unique_id e) (position e) (path e) (path_index e) (move_progress e)
     (is_blocked e) (blocked_by e) (target e) (attack_cooldown e)
     (has_reached_goal e).

Definition set_motion (e : t) (p : option Position.t) (i : nat) (m : Q)
    (g : bool) : t :=
  mk (base e) (unique_id e) p (path e) i m (is_blocked e) (blocked_by e)
     (target e) (attack_cooldown e) g.

Definition set_block (e : t) (b : bool) (o : option nat) : t :=
  mk (base e) (unique_id e) (position e) (path e) (path_index e)
     (move_progress e) b o o (attack_cooldown e) (has_reached_goal e).

Definition set_cooldown (e : t) (cd : Q) : t :=
  mk (base e) (unique_id e) (position e) (path e) (path_index e)
     (move_progress e) (is_blocked e) (blocked_by e) (target e) cd
     (has_reached_goal e).

(** [set_path]; the store keeps a copy of the route's path. *)
Definition set_path (e : t) (p : list Position.t) : t :=
  mk (base e) (unique_id e)
     (match p with [] => position e | q :: _ => Some q end)
     p 0%nat 0%Q (is_blocked e) (blocked_by e) (target e)
     (attack_cooldown e) (has_reached_goal e).

(** The [while] loop of [move]; every iteration advances [path_index],
    so [length path - 1 - path_index] iterations are enough. *)
Fixpoint move_loop (fuel : nat) (e : t) : option t :=
  match fuel with
  | O => Some e
  | S fuel' =>
      if Py.leb 1 (move_progress e)
         && (path_index e <? length (path e) - 1)%nat
      then
        let i := S (path_index e) in
        p ← path e !! i;
        let e1 := set_motion e (Some p) i (move_progress e - 1)%Q
                    (has_reached_goal e) in
        if (i =? length (path e) - 1)%nat
        then Some (set_motion e1 (position e1) (path_index e1)
                     (move_progress e1) true)
        else move_loop fuel' e1
      else Some e
  end.

Definition move (e : t) (delta_time : Q) : option t :=
  if is_blocked e
     || match path e with [] => true | _ => false end
     || (length (path e) - 1 <=? path_index e)%nat
  then Some e
  else
    let e1 := set_motion e (position e) (path_index e)
                (move_progress e + GameEntity.move_speed (base e) * delta_time)%Q
                (has_reached_goal e) in
    move_loop (length (path e) - 1 - path_index e) e1.

Definition get_blocked_by (e : t) (o : nat) : t := set_block e true (Some o).

Definition release_block (e : t) : t := set_block e false None.

Definition update (e : t) (delta_time : Q) : option t :=
  let e1 := set_base e (GameEntity.update_buffs (base e) delta_time) in
  let e2 := if Py.ltb 0 (attack_cooldown e1)
            then set_cooldown e1 (attack_cooldown e1 - delta_time)%Q
            else e1 in
  if negb (is_blocked e2) then move e2 delta_time else Some e2.
End Enemy.

(** ** game_map.py: tiles, routes, waves *)

Module Tile.
Record t := mk {
  buildable_type : BuildableType;
  deployed_operator : option nat
}.

Definition can_deploy_operator (tile : t) (o : Operator.t) : bool :=
  match deployed_operator tile with
  | Some _ => false
  | None =>
      match buildable_type tile with
      | BT_NONE => false
      | BT_MELEE => Operator.position_is o "MELEE"
      | BT_RANGED => Operator.position_is o "RANGED"
      | BT_ALL => true
      end
  end.

(** [deploy_operator]; [oid] is the reference to [o]. *)
Definition deploy_operator (tile : t) (oid : nat) (o : Operator.t)
  : bool * t :=
  if can_deploy_operator tile o
  then (true, mk (buildable_type tile) (Some oid))
  else (false, tile).
End Tile.

Module Route.
Record data := mk_data {
  start_position : Position.t;
  end_position : Position.t;
  checkpoints : list Position.t;
  allow_diagonal_move : bool
}.

(** One iteration of the orthogonal [while] loop of [_find_path]. *)
Definition step (current e : Position.t) : Position.t :=
  if Position.row current <? Position.row e
  then Position.mk (Position.row current + 1) (Position.col current)
  else if Position.row e <? Position.row current
  then Position.mk (Position.row current - 1) (Position.col current)
  else if Position.col current <? Position.col e
  then Position.mk (Position.row current) (Position.col current + 1)
  else if Position.col e <? Position.col current
  then Position.mk (Position.row current) (Position.col current - 1)
  else current.

(** Number of iterations the orthogonal loop makes. *)
Definition gap (a b : Position.t) : nat :=
  Z.to_nat (Z.abs (Position.row b - Position.row a)
            + Z.abs (Position.col b - Position.col a)).

Fixpoint walk (fuel : nat) (current e : Position.t) : list Position.t :=
  match fuel with
  | O => []
  | S fuel' =>
      if Position.eqb current e then []
      else let next_pos := step current e in
           next_pos :: walk fuel' next_pos e
  end.

(** The [while True] loop of [_generate_line_path]; every iteration moves
    [x] or [y] toward the endpoint, [fuel] bounds the iterations. *)
Fixpoint line_loop (fuel : nat) (x0 y0 x1 y1 dx dy sx sy x y err : Z)
  : list Position.t :=
  match fuel with
  | O => []
  | S fuel' =>
      let here := if negb (x =? x0) || negb (y =? y0)
                  then [Position.mk y x] else [] in
      if (x =? x1) && (y =? y1) then here
      else
        let e2 := 2 * err in
        let '(err1, xn) := if - dy <? e2 then (err - dy, x + sx)
                           else (err, x) in
        let '(err2, yn) := if e2 <? dx then (err1 + dx, y + sy)
                           else (err1, y) in
        here ++ line_loop fuel' x0 y0 x1 y1 dx dy sx sy xn yn err2
  end.

Definition _generate_line_path (s e : Position.t) : list Position.t :=
  let x0 := Position.col s in let y0 := Position.row s in
  let x1 := Position.col e in let y1 := Position.row e in
  let dx := Z.abs (x1 - x0) in let dy := Z.abs (y1 - y0) in
  let sx := if x0 <? x1 then 1 else -1 in
  let sy := if y0 <? y1 then 1 else -1 in
  line_loop (S (Z.to_nat (dx + dy))) x0 y0 x1 y1 dx dy sx sy x0 y0 (dx - dy).

Definition _find_path (diagonal : bool) (s e : Position.t)
  : list Position.t :=
  if diagonal then _generate_line_path s e
  else walk (gap s e) s e.

(** The loop over the checkpoints in [_generate_path], then the last
    segment to the end position. *)
Fixpoint segments (diagonal : bool) (current : Position.t)
    (cps : list Position.t) (e : Position.t) : list Position.t :=
  match cps with
  | [] => _find_path diagonal current e
  | c :: cps' =>
      _find_path diagonal current c ++ segments diagonal c cps' e
  end.

Definition _generate_path (r : data) : list Position.t :=
  start_position r ::
    segments (allow_diagonal_move r) (start_position r) (checkpoints r)
      (end_position r).

(** The attribute of a [Route] the engine reads. *)
Record t := mk { path : list Position.t }.

Definition make (r : data) : t := mk (_generate_path r).

(** The orthogonal step as the specification words it: reduce the
    coordinate with the larger remaining gap, the row on a tie. *)
Definition spec_step (current e : Position.t) : Position.t :=
  let dr := Z.abs (Position.row e - Position.row current) in
  let dc := Z.abs (Position.col e - Position.col current) in
  if (dc <=? dr) && negb (dr =? 0)
  then Position.mk (Position.row current
                    + Z.sgn (Position.row e - Position.row current))
                   (Position.col current)
  else Position.mk (Position.row current)
                   (Position.col current
                    + Z.sgn (Position.col e - Position.col current)).

Fixpoint spec_walk (fuel : nat) (current e : Position.t)
  : list Position.t :=
  match fuel with
  | O => []
  | S fuel' =>
      if Position.eqb current e then []
      else let next_pos := spec_step current e in
           next_pos :: spec_walk fuel' next_pos e
  end.

Definition spec_find_path (s e : Position.t) : list Position.t :=
  spec_walk (gap s e) s e.

(** The closed form of an orthogonal segment: all the row steps first,
    then all the column steps. *)
Definition row_run (s e : Position.t) : list Position.t :=
  List.map
    (fun i => Position.mk
                (Position.row s
                 + Z.sgn (Position.row e - Position.row s) * Z.of_nat i)
                (Position.col s))
    (seq 1 (Z.to_nat (Z.abs (Position.row e - Position.row s)))).

Definition col_run (s e : Position.t) : list Position.t :=
  List.map
    (fun j => Position.mk
                (Position.row e)
                (Position.col s
                 + Z.sgn (Position.col e - Position.col s) * Z.of_nat j))
    (seq 1 (Z.to_nat (Z.abs (Position.col e - Position.col s)))).

(** Two waypoints one orthogonal step apart. *)
Definition adjacent (a b : Position.t) : Prop :=
  (Z.abs (Position.row b - Position.row a) = 1
   /\ Position.col b = Position.col a)
  \/ (Position.row b = Position.row a
      /\ Z.abs (Position.col b - Position.col a) = 1).

Fixpoint chain (l : list Position.t) : Prop :=
  match l with
  | a :: (b :: _) as l' => adjacent a b /\ chain l'
  | _ => True
  end.
End Route.

Module WaveAction.
Record t := mk {
  action_type : string;
  enemy_key : string;
  count : Z;
  pre_delay : Q;
  interval : Q;
  route_index : Z;
  is_completed : bool;
  spawned_count : Z;
  current_time : Q
}.

Definition set_state (a : t) (c : bool) (n : Z) (tm : Q) : t :=
  mk (action_type a) (enemy_key a) (count a) (pre_delay a) (interval a)
     (route_index a) c n tm.

(** The action with another [interval]. *)
Definition with_interval (a : t) (x : Q) : t :=
  mk (action_type a) (enemy_key a) (count a) (pre_delay a) x
     (route_index a) (is_completed a) (spawned_count a) (current_time a).
End WaveAction.

Module WaveFragment.
Record t := mk {
  pre_delay : Q;
  actions : list WaveAction.t;
  is_active : bool;
  is_completed : bool;
  current_time : Q
}.
End WaveFragment.

Module Wave.
Record t := mk {
  pre_delay : Q;
  post_delay : Q;
  max_time_waiting : Q;
  fragments : list WaveFragment.t;
  is_active : bool;
  is_completed : bool;
  current_time : Q
}.
End Wave.

(** What [Enemy.__init__] reads from the enemy table. *)
Module EnemyData.
Record t := mk {
  name : string;
  max_hp : Z;
  atk : Z;
  def_ : Z;
  magic_resistance : Q;
  move_speed : Q;
  attack_speed : Q;
  base_attack_time : Q
}.

(** [Enemy.__init__] with the identifier [uid] drawn from [Enemy._next_id]. *)
Definition make (d : t) (uid : Z) : Enemy.t :=
  Enemy.mk
    (GameEntity.mk (name d) (max_hp d) (max_hp d) (atk d) (def_ d)
       (magic_resistance d) (move_speed d) (attack_speed d)
       (base_attack_time d) true [] [])
    uid None [] 0%nat 0%Q false None None 0%Q false.
End EnemyData.

(** What [Operator.__init__], [set_level_and_elite] and [initialize_skills]
    read from the operator and skill tables. *)
Module OperatorData.
Record t := mk {
  name : string;
  position : string;
  max_hp : Z;
  atk : Z;
  def_ : Z;
  magic_resistance : Q;
  cost : Q;
  block_cnt : Z;
  base_attack_time : Q;
  attack_speed : Q;
  skills : list Skill.t
}.

Definition make (d : t) : Operator.t :=
  Operator.mk
    (GameEntity.mk (name d) (max_hp d) (max_hp d) (atk d) (def_ d)
       (magic_resistance d) 1%Q (attack_speed d) (base_attack_time d)
       true [] [])
    (PosStr (position d)) (skills d) RIGHT None 0%Q (cost d) false 0%Q []
    (block_cnt d) None.
End OperatorData.

(** ** game_map.py: the battle world *)

(** The level document and the content tables, already parsed. *)
Module Level.
Record t := mk {
  map_layout : list (list Z);
  tile_data : list BuildableType;
  route_data : list Route.data;
  wave_data : list Wave.t;
  character_limit : Z;
  max_life_point : Z;
  initial_cost : Q;
  max_cost : Q;
  cost_increase_time : Q;
  get_enemy_by_id : string -> option EnemyData.t
}.
End Level.

Module GameMap.
Record t := mk {
  level : Level.t;
  routes : list Route.t;
  (** [self.tiles], a dict from tile index to the tile object *)
  tiles : gmap Z Tile.t;
  (** the operator objects the world holds references to *)
  operators : gmap nat Operator.t;
  (** the enemy objects, and the class counter [Enemy._next_id] *)
  enemies : gmap nat Enemy.t;
  next_id : Z;
  current_cost : Q;
  current_life_points : Z;
  deployed_operators : list nat;
  active_enemies : list nat;
  waves : list Wave.t;
  current_wave_index : nat;
  game_time : Q;
  is_victory : bool;
  is_defeat : bool
}.

Definition set_tiles (m : t) (x : gmap Z Tile.t) : t :=
  mk (level m) (routes m) x (operators m) (enemies m) (next_id m)
     (current_cost m) (current_life_points m) (deployed_operators m)
     (active_enemies m) (waves m) (current_wave_index m) (game_time m)
     (is_victory m) (is_defeat m).

Definition set_operators (m : t) (x : gmap nat Operator.t) : t :=
  mk (level m) (routes m) (tiles m) x (enemies m) (next_id m)
     (current_cost m) (current_life_points m) (deployed_operators m)
     (active_enemies m) (waves m) (current_wave_index m) (game_time m)
     (is_victory m) (is_defeat m).

Definition set_enemies (m : t) (x : gmap nat Enemy.t) : t :=
  mk (level m) (routes m) (tiles m) (operators m) x (next_id m)
     (current_cost m) (current_life_points m) (deployed_operators m)
     (active_enemies m) (waves m) (current_wave_index m) (game_time m)
     (is_victory m) (is_defeat m).

Definition set_next_id (m : t) (x : Z) : t :=
  mk (level m) (routes m) (tiles m) (operators m) (enemies m) x
     (current_cost m) (current_life_points m) (deployed_operators m)
     (active_enemies m) (waves m) (current_wave_index m) (game_time m)
     (is_victory m) (is_defeat m).

Definition set_cost (m : t) (x : Q) : t :=
  mk (level m) (routes m) (tiles m) (operators m) (enemies m) (next_id m)
     x (current_life_points m) (deployed_operators m)
     (active_enemies m) (waves m) (current_wave_index m) (game_time m)
     (is_victory m) (is_defeat m).

Definition set_life (m : t) (x : Z) : t :=
  mk (level m) (routes m) (tiles m) (operators m) (enemies m) (next_id m)
     (current_cost m) x (deployed_operators m)
     (active_enemies m) (waves m) (current_wave_index m) (game_time m)
     (is_victory m) (is_defeat m).

Definition set_deployed (m : t) (x : list nat) : t :=
  mk (level m) (routes m) (tiles m) (operators m) (enemies m) (next_id m)
     (current_cost m) (current_life_points m) x
     (active_enemies m) (waves m) (current_wave_index m) (game_time m)
     (is_victory m) (is_defeat m).

Definition set_active (m : t) (x : list nat) : t :=
  mk (level m) (routes m) (tiles m) (operators m) (enemies m) (next_id m)
     (current_cost m) (current_life_points m) (deployed_operators m)
     x (waves m) (current_wave_index m) (game_time m)
     (is_victory m) (is_defeat m).

Definition set_waves (m : t) (x : list Wave.t) (i : nat) : t :=
  mk (level m) (routes m) (tiles m) (operators m) (enemies m) (next_id m)
     (current_cost m) (current_life_points m) (deployed_operators m)
     (active_enemies m) x i (game_time m)
     (is_victory m) (is_defeat m).

Definition set_time (m : t) (x : Q) : t :=
  mk (level m) (routes m) (tiles m) (operators m) (enemies m) (next_id m)
     (current_cost m) (current_life_points m) (deployed_operators m)
     (active_enemies m) (waves m) (current_wave_index m) x
     (is_victory m) (is_defeat m).

Definition set_victory (m : t) (x : bool) : t :=
  mk (level m) (routes m) (tiles m) (operators m) (enemies m) (next_id m)
     (current_cost m) (current_life_points m) (deployed_operators m)
     (active_enemies m) (waves m) (current_wave_index m) (game_time m)
     x (is_defeat m).

Definition set_defeat (m : t) (x : bool) : t :=
  mk (level m) (routes m) (tiles m) (operators m) (enemies m) (next_id m)
     (current_cost m) (current_life_points m) (deployed_operators m)
     (active_enemies m) (waves m) (current_wave_index m) (game_time m)
     (is_victory m) x.

(** [self.tiles[i] = Tile(tile_data)] for [i, tile_data] in [enumerate]. *)
Fixpoint tiles_from (i : Z) (l : list BuildableType) : gmap Z Tile.t :=
  match l with
  | [] => ∅
  | b :: l' => <[i := Tile.mk b None]> (tiles_from (i + 1) l')
  end.

(** [GameMap.__init__]; [ops] are the operator objects of the run. *)
Definition init (lv : Level.t) (ops : gmap nat Operator.t) : t :=
  mk lv (List.map Route.make (Level.route_data lv))
     (tiles_from 0 (Level.tile_data lv)) ops ∅ 1
     (Level.initial_cost lv) (Level.max_life_point lv) [] []
     (Level.wave_data lv) 0%nat 0%Q false false.

Definition rows (m : t) : Z :=
  Z.of_nat (length (Level.map_layout (level m))).

Definition cols (m : t) : Z :=
  match Level.map_layout (level m) with
  | [] => 0
  | r :: _ => Z.of_nat (length r)
  end.

Definition is_valid_position (m : t) (p : Position.t) : bool :=
  (0 <=? Position.row p) && (Position.row p <? rows m)
  && (0 <=? Position.col p) && (Position.col p <? cols m).

(** [get_tile_at]: the key of the tile and the tile; the inner [None] is
    the returned [None], the outer one an [IndexError] of the layout. *)
Definition get_tile_at (m : t) (p : Position.t)
  : option (option (Z * Tile.t)) :=
  if negb (is_valid_position m p) then Some None
  else
    let corrected_row := rows m - 1 - Position.row p in
    r ← Level.map_layout (level m) !! Z.to_nat corrected_row;
    tile_index ← (r : list Z) !! Z.to_nat (Position.col p);
    Some (match tiles m !! tile_index with
          | Some tile => Some (tile_index, tile)
          | None => None
          end).

Definition can_deploy_at (m : t) (p : Position.t) (oid : nat)
  : option bool :=
  o ← operators m !! oid;
  tk ← get_tile_at m p;
  match tk with
  | None => Some false
  | Some (_, tile) => Some (Tile.can_deploy_operator tile o)
  end.

Definition _check_operator_tile_compatibility (o : Operator.t)
    (tile : Tile.t) : bool :=
  match Tile.buildable_type tile with
  | BT_NONE => false
  | BT_ALL => true
  | BT_MELEE => Operator.position_is o "MELEE"
  | BT_RANGED => Operator.position_is o "RANGED"
  end.

Definition deploy_operator (m : t) (oid : nat) (p : Position.t)
    (d : Direction) : option (OperationResult.t * t) :=
  o ← operators m !! oid;
  let fail msg := Some (OperationResult.failure_result msg, m) in
  if negb (is_valid_position m p)
  then fail (OperationResult.InvalidPosition (Position.row p) (Position.col p))
  else
    tk ← get_tile_at m p;
    match tk with
    | None =>
        fail (OperationResult.NoTileInfo (Position.row p) (Position.col p))
    | Some (k, tile) =>
        if bool_decide (Tile.deployed_operator tile ≠ None)
        then fail (OperationResult.TileOccupied (Position.row p)
                     (Position.col p))
        else if negb (_check_operator_tile_compatibility o tile)
        then fail (OperationResult.TypeMismatch
                     (GameEntity.name (Operator.base o))
                     (Operator.position o) (Tile.buildable_type tile))
        else if Py.ltb (current_cost m) (Operator.deploy_cost o)
        then fail (OperationResult.InsufficientCost
                     (Operator.deploy_cost o) (current_cost m))
        else if Level.character_limit (level m)
                <=? Z.of_nat (length (deployed_operators m))
        then fail (OperationResult.CharacterLimit
                     (Level.character_limit (level m)))
        else
          let '(ok, tile') := Tile.deploy_operator tile oid o in
          if (ok : bool) then
            let m1 := set_tiles m (<[k := tile']> (tiles m)) in
            let m2 := set_operators m1
                        (<[oid := Operator.deploy o p d]> (operators m1)) in
            let m3 := set_deployed m2 (deployed_operators m2 ++ [oid]) in
            Some (OperationResult.success_result,
                  set_cost m3 (current_cost m3 - Operator.deploy_cost o)%Q)
          else fail OperationResult.TileRefused
    end.

(** [Tile.remove_operator] on the tile stored under [k]: the occupant is
    retreated through the tile's own reference to it. *)
Definition remove_operator (m : t) (k : Z) (tile : Tile.t) : option t :=
  match Tile.deployed_operator tile with
  | Some occ =>
      o ← operators m !! occ;
      let m1 := set_operators m (<[occ := Operator.retreat o]> (operators m)) in
      Some (set_tiles m1
              (<[k := Tile.mk (Tile.buildable_type tile) None]> (tiles m1)))
  | None => Some m
  end.

(** The [if operator.position:] block of [retreat_operator]; a position
    that is still a string has no [row] ([AttributeError]). *)
Definition free_tile (m : t) (o : Operator.t) : option t :=
  if Operator.position_truthy o then
    match Operator.position o with
    | PosAt p =>
        tk ← get_tile_at m p;
        match tk with
        | Some (k, tile) => remove_operator m k tile
        | None => Some m
        end
    | _ => None
    end
  else Some m.

Definition retreat_operator (m : t) (oid : nat) : option (bool * t) :=
  if negb (Py.contains oid (deployed_operators m)) then Some (false, m)
  else
    o ← operators m !! oid;
    m1 ← free_tile m o;
    l ← Py.remove oid (deployed_operators m1);
    let m2 := set_deployed m1 l in
    o' ← operators m2 !! oid;
    Some (true, set_operators m2 (<[oid := Operator.retreat o']> (operators m2))).

(** The script runner's skill command: [operator.activate_skill(i)] for a
    deployed operator. *)
Definition activate_skill (m : t) (oid : nat) (skill_index : Z)
  : option (OperationResult.t * t) :=
  o ← operators m !! oid;
  r ← Operator.activate_skill_by_index o skill_index;
  Some (r.1, set_operators m (<[oid := r.2]> (operators m))).

(** *** One tick: [update] and its passes *)

(** Body of the loop over [self.deployed_operators[:]]. *)
Definition operator_tick (delta_time : Q) (m : t) (oid : nat) : option t :=
  o ← operators m !! oid;
  o' ← Operator.update o delta_time;
  let m1 := set_operators m (<[oid := o']> (operators m)) in
  if negb (GameEntity.is_alive (Operator.base o'))
  then r ← retreat_operator m1 oid; Some r.2
  else Some m1.

(** Body of the loop over [self.active_enemies[:]]. *)
Definition enemy_tick (delta_time : Q) (m : t) (eid : nat) : option t :=
  e ← enemies m !! eid;
  e' ← Enemy.update e delta_time;
  let m1 := set_enemies m (<[eid := e']> (enemies m)) in
  if Enemy.has_reached_goal e' then
    let m2 := set_life m1 (current_life_points m1 - 1) in
    l ← Py.remove eid (active_enemies m2);
    let m3 := set_active m2 l in
    Some (if current_life_points m3 <=? 0 then set_defeat m3 true else m3)
  else if negb (GameEntity.is_alive (Enemy.base e')) then
    l ← Py.remove eid (active_enemies m1);
    Some (set_active m1 l)
  else Some m1.

(** First loop of [_find_attack_target]: a blocked enemy that is alive. *)
Fixpoint first_alive (m : t) (l : list nat) : option (option nat) :=
  match l with
  | [] => Some None
  | eid :: l' =>
      e ← enemies m !! eid;
      if GameEntity.is_alive (Enemy.base e) then Some (Some eid)
      else first_alive m l'
  end.

(** Body of the second loop: [best] is [closest_enemy] with the square of
    [closest_distance]; [None] stands for the initial infinity. *)
Definition closest_step (m : t) (o : Operator.t)
    (best : option (nat * Z)) (eid : nat) : option (option (nat * Z)) :=
  e ← enemies m !! eid;
  if negb (GameEntity.is_alive (Enemy.base e)) then Some best
  else
    match Enemy.position e with
    | None => Some best
    | Some ep =>
        ca ← Operator.can_attack o ep;
        if (ca : bool) then
          match Operator.position o with
          | PosAt p =>
              let d := Position.distance2 p ep in
              match best with
              | Some (_, bd) =>
                  if d <? bd then Some (Some (eid, d)) else Some best
              | None => Some (Some (eid, d))
              end
          | _ => None
          end
        else Some best
    end.

Definition _find_attack_target (m : t) (o : Operator.t)
  : option (option nat) :=
  if negb (Operator.position_truthy o) then Some None
  else
    b ← first_alive m (Operator.blocked_enemies o);
    match b with
    | Some eid => Some (Some eid)
    | None =>
        best ← Py.foldM (closest_step m o) None (active_enemies m);
        Some (fst <$> (best : option (nat * Z)))
    end.

(** Body of the first loop of [_process_combat]. *)
Definition operator_attack (m : t) (oid : nat) : option t :=
  o ← operators m !! oid;
  if Py.leb (Operator.attack_cooldown o) 0 then
    tgt ← _find_attack_target m o;
    match tgt with
    | Some eid =>
        e ← enemies m !! eid;
        let r := GameEntity.take_damage (Enemy.base e)
                   (GameEntity.atk (Operator.base o)) false in
        let m1 := set_enemies m (<[eid := Enemy.set_base e r.2]> (enemies m)) in
        o1 ← operators m1 !! oid;
        cd ← Py.div (GameEntity.base_attack_time (Operator.base o1))
                    (GameEntity.attack_speed (Operator.base o1));
        Some (set_operators m1
                (<[oid := Operator.set_timers o1 cd (Operator.deploy_time o1)]>
                   (operators m1)))
    | None => Some m
    end
  else Some m.

(** Body of the second loop of [_process_combat]. *)
Definition enemy_attack (m : t) (eid : nat) : option t :=
  e ← enemies m !! eid;
  if Enemy.is_blocked e && Py.leb (Enemy.attack_cooldown e) 0 then
    match Enemy.blocked_by e with
    | Some oid =>
        o ← operators m !! oid;
        let r := GameEntity.take_damage (Operator.base o)
                   (GameEntity.atk (Enemy.base e)) false in
        let m1 := set_operators m
                    (<[oid := Operator.set_base o r.2]> (operators m)) in
        cd ← Py.div (GameEntity.base_attack_time (Enemy.base e))
                    (GameEntity.attack_speed (Enemy.base e));
        Some (set_enemies m1
                (<[eid := Enemy.set_cooldown e cd]> (enemies m1)))
    | None => Some m
    end
  else Some m.

Definition _process_combat (m : t) : option t :=
  m1 ← Py.foldM operator_attack m (deployed_operators m);
  Py.foldM enemy_attack m1 (active_enemies m1).

(** First loop of [_process_blocking]: new blocking links. *)
Definition block_step (m : t) (eid : nat) : option t :=
  e ← enemies m !! eid;
  if Enemy.is_blocked e then Some m
  else
    match Enemy.position e with
    | None => Some m
    | Some p =>
        tk ← get_tile_at m p;
        match tk with
        | Some (_, tile) =>
            match Tile.deployed_operator tile with
            | Some oid =>
                o ← operators m !! oid;
                if Z.of_nat (length (Operator.blocked_enemies o))
                   <? Operator.max_block_count o
                then
                  let m1 := set_enemies m
                              (<[eid := Enemy.get_blocked_by e oid]> (enemies m)) in
                  Some (set_operators m1
                          (<[oid := Operator.set_blocked o
                                      (Operator.blocked_enemies o ++ [eid])]>
                             (operators m1)))
                else Some m
            | None => Some m
            end
        | None => Some m
        end
    end.

(** [[e for e in l if e.is_alive]] *)
Fixpoint alive_only (m : t) (l : list nat) : option (list nat) :=
  match l with
  | [] => Some []
  | eid :: l' =>
      e ← enemies m !! eid;
      rest ← alive_only m l';
      Some (if GameEntity.is_alive (Enemy.base e) then eid :: rest else rest)
  end.

(** Second loop: drop dead enemies from the blocked lists. *)
Definition purge_step (m : t) (oid : nat) : option t :=
  o ← operators m !! oid;
  l ← alive_only m (Operator.blocked_enemies o);
  Some (set_operators m (<[oid := Operator.set_blocked o l]> (operators m))).

(** Third loop: release enemies whose blocker is gone or dead. *)
Definition release_step (m : t) (eid : nat) : option t :=
  e ← enemies m !! eid;
  if Enemy.is_blocked e then
    match Enemy.blocked_by e with
    | Some oid =>
        o ← operators m !! oid;
        if negb (Py.contains oid (deployed_operators m))
           || negb (GameEntity.is_alive (Operator.base o))
        then Some (set_enemies m
                     (<[eid := Enemy.release_block e]> (enemies m)))
        else Some m
    | None => Some m
    end
  else Some m.

Definition _process_blocking (m : t) : option t :=
  m1 ← Py.foldM block_step m (active_enemies m);
  m2 ← Py.foldM purge_step m1 (deployed_operators m1);
  Py.foldM release_step m2 (active_enemies m2).

(** [spawn_enemy]; the new object gets a reference no enemy has. *)
Definition spawn_enemy (m : t) (enemy_id : string) (route_index : Z)
  : option t :=
  match Level.get_enemy_by_id (level m) enemy_id with
  | None => Some m
  | Some d =>
      let e := EnemyData.make d (next_id m) in
      let m1 := set_next_id m (next_id m + 1) in
      e1 ← (if route_index <? Z.of_nat (length (routes m1))
            then r ← Py.index (routes m1) route_index;
                 Some (Enemy.set_path e (Route.path r))
            else Some e);
      let ref := fresh (dom (enemies m1)) in
      let m2 := set_enemies m1 (<[ref := e1]> (enemies m1)) in
      Some (set_active m2 (active_enemies m2 ++ [ref]))
  end.

(** Body of the loop over the actions of a fragment. *)
Definition action_tick (delta_time : Q) (m : t) (a : WaveAction.t)
  : option (t * WaveAction.t) :=
  if WaveAction.is_completed a then Some (m, a)
  else
    let a1 := WaveAction.set_state a (WaveAction.is_completed a)
                (WaveAction.spawned_count a)
                (WaveAction.current_time a + delta_time)%Q in
    if Py.leb (WaveAction.pre_delay a1) (WaveAction.current_time a1) then
      if String.eqb (WaveAction.action_type a1) "SPAWN" then
        if WaveAction.spawned_count a1 <? WaveAction.count a1 then
          m' ← spawn_enemy m (WaveAction.enemy_key a1)
                 (WaveAction.route_index a1);
          let n := WaveAction.spawned_count a1 + 1 in
          Some (m', WaveAction.set_state a1
                      (if WaveAction.count a1 <=? n then true
                       else WaveAction.is_completed a1)
                      n (WaveAction.current_time a1))
        else Some (m, a1)
      else Some (m, WaveAction.set_state a1 true
                      (WaveAction.spawned_count a1)
                      (WaveAction.current_time a1))
    else Some (m, a1).

Fixpoint actions_tick (delta_time : Q) (m : t) (l : list WaveAction.t)
  : option (t * list WaveAction.t) :=
  match l with
  | [] => Some (m, [])
  | a :: l' =>
      r ← action_tick delta_time m a;
      r' ← actions_tick delta_time r.1 l';
      Some (r'.1, r.2 :: r'.2)
  end.

(** Body of the loop over the fragments of the current wave. *)
Definition fragment_tick (delta_time wave_time : Q) (m : t)
    (f : WaveFragment.t) : option (t * WaveFragment.t) :=
  let active :=
    if negb (WaveFragment.is_active f)
       && Py.leb (WaveFragment.pre_delay f) wave_time
    then true else WaveFragment.is_active f in
  if active && negb (WaveFragment.is_completed f) then
    r ← actions_tick delta_time m (WaveFragment.actions f);
    Some (r.1,
          WaveFragment.mk (WaveFragment.pre_delay f) r.2 active
            (if forallb WaveAction.is_completed r.2 then true
             else WaveFragment.is_completed f)
            (WaveFragment.current_time f + delta_time)%Q)
  else
    Some (m, WaveFragment.mk (WaveFragment.pre_delay f)
               (WaveFragment.actions f) active
               (WaveFragment.is_completed f) (WaveFragment.current_time f)).

Fixpoint fragments_tick (delta_time wave_time : Q) (m : t)
    (l : list WaveFragment.t) : option (t * list WaveFragment.t) :=
  match l with
  | [] => Some (m, [])
  | f :: l' =>
      r ← fragment_tick delta_time wave_time m f;
      r' ← fragments_tick delta_time wave_time r.1 l';
      Some (r'.1, r.2 :: r'.2)
  end.

Definition _update_waves (m : t) (delta_time : Q) : option t :=
  if (length (waves m) <=? current_wave_index m)%nat then Some m
  else
    w ← waves m !! current_wave_index m;
    let wave_time := (Wave.current_time w + delta_time)%Q in
    r ← fragments_tick delta_time wave_time m (Wave.fragments w);
    let done := forallb WaveFragment.is_completed r.2 in
    let w' := Wave.mk (Wave.pre_delay w) (Wave.post_delay w)
                (Wave.max_time_waiting w) r.2 true
                (if done then true else Wave.is_completed w) wave_time in
    Some (set_waves r.1 (<[current_wave_index m := w']> (waves r.1))
            (if done then S (current_wave_index m)
             else current_wave_index m)).

(** The condition of the last [if] of [update]. *)
Definition victory_condition (m : t) : bool :=
  (length (waves m) <=? current_wave_index m)%nat
  && match active_enemies m with [] => true | _ => false end
  && (0 <? current_life_points m)
  && negb (is_defeat m).

Definition update (m : t) (delta_time : Q) : option t :=
  let m0 := set_time m (game_time m + delta_time)%Q in
  inc ← Py.div delta_time (Level.cost_increase_time (level m0));
  let m1 := set_cost m0
              (Qmin (Level.max_cost (level m0)) (current_cost m0 + inc)) in
  m2 ← Py.foldM (operator_tick delta_time) m1 (deployed_operators m1);
  m3 ← Py.foldM (enemy_tick delta_time) m2 (active_enemies m2);
  m4 ← _process_combat m3;
  m5 ← _process_blocking m4;
  m6 ← _update_waves m5 delta_time;
  Some (if victory_condition m6 then set_victory m6 true else m6).

(** *** Runs

    A run starts from [init] on operators fresh from their constructor and
    proceeds by script commands and ticks. *)
Inductive step (m m' : t) : Prop :=
  | step_deploy oid p d r :
      deploy_operator m oid p d = Some (r, m') -> step m m'
  | step_retreat oid b :
      retreat_operator m oid = Some (b, m') -> step m m'
  | step_skill oid i r :
      activate_skill m oid i = Some (r, m') -> step m m'
  | step_update delta_time :
      update m delta_time = Some m' -> step m m'.

Inductive reachable : t -> Prop :=
  | reach_init lv (ds : gmap nat OperatorData.t) :
      map_Forall (fun _ d => 0 <= OperatorData.block_cnt d) ds ->
      reachable (init lv (OperatorData.make <$> ds))
  | reach_step m m' : reachable m -> step m m' -> reachable m'.

(** [later m m']: the run that reached [m] went on to [m']. *)
Inductive later (m : t) : t -> Prop :=
  | later_now : later m m
  | later_step m' m'' : later m m' -> step m' m'' -> later m m''.

(** *** State predicates used by the properties *)

(** The fields that decide the outcome of the battle. *)
Definition outcome (m : t)
  : list Wave.t * nat * list nat * Z * bool * bool :=
  (waves m, current_wave_index m, active_enemies m,
   current_life_points m, is_defeat m, is_victory m).

(** The victory flag is only up when its condition holds. *)
Definition victory_ok (m : t) : Prop :=
  is_victory m = true -> victory_condition m = true.

(** Every active reference is distinct and points to an enemy object. *)
Definition roster_ok (m : t) : Prop :=
  NoDup (active_enemies m)
  /\ forall eid, eid ∈ active_enemies m -> is_Some (enemies m !! eid).



(** The operator an enemy is currently blocked by, if any. *)
Definition blocker (e : Enemy.t) : option nat :=
  if Enemy.is_blocked e then Enemy.blocked_by e else None.

(** [enemy.has_reached_goal] for the enemy behind a reference. *)
Definition reached_goal (m : t) (eid : nat) : bool :=
  match enemies m !! eid with
  | Some e => Enemy.has_reached_goal e
  | None => false
  end.

(** The enemies of the list whose goal flag is set in [m]. *)
Definition arrived (m : t) (l : list nat) : list nat :=
  List.filter (reached_goal m) l.

(** [blocks m oid eid]: the enemy is blocked and its back-reference is
    the operator [oid]. *)
Definition blocks (m : t) (oid eid : nat) : Prop :=
  exists e, enemies m !! eid = Some e
    /\ Enemy.is_blocked e = true /\ Enemy.blocked_by e = Some oid.


(** What the wave scheduler may change besides its own timers: it adds
    new, unblocked enemies at the end of the active roster. *)
Definition spawned (m m' : t) : Prop :=
  level m' = level m /\ routes m' = routes m
  /\ tiles m' = tiles m /\ operators m' = operators m
  /\ deployed_operators m' = deployed_operators m
  /\ current_cost m' = current_cost m
  /\ current_life_points m' = current_life_points m
  /\ is_defeat m' = is_defeat m /\ is_victory m' = is_victory m
  /\ (forall eid e, enemies m !! eid = Some e -> enemies m' !! eid = Some e)
  /\ exists new,
       active_enemies m' = active_enemies m ++ new
       /\ NoDup new
       /\ forall n, n ∈ new ->
            enemies m !! n = None
            /\ exists e, enemies m' !! n = Some e
                 /\ Enemy.is_blocked e = false
                 /\ Enemy.has_reached_goal e = false.

(** The clock, the budget, the identifier counter and the static data. *)
Definition ledger (m : t) : Level.t * list Route.t * Z * Q * Q :=
  (level m, routes m, next_id m, current_cost m, game_time m).

(** One action of a fragment over a run of ticks. *)
Fixpoint action_run (dts : list Q) (m : t) (a : WaveAction.t)
  : option (t * WaveAction.t) :=
  match dts with
  | [] => Some (m, a)
  | delta_time :: dts' =>
      r ← action_tick delta_time m a;
      action_run dts' r.1 r.2
  end.

(** The enemy behind a reference is alive. *)
Definition alive (m : t) (eid : nat) : Prop :=
  exists e, enemies m !! eid = Some e
    /\ GameEntity.is_alive (Enemy.base e) = true.

(** The enemy is alive and stands on a tile the operator can attack, at
    squared distance [d] from the operator. *)
Definition in_range (m : t) (o : Operator.t) (eid : nat) (d : Z) : Prop :=
  exists e ep p,
    enemies m !! eid = Some e
    /\ GameEntity.is_alive (Enemy.base e) = true
    /\ Enemy.position e = Some ep
    /\ Operator.can_attack o ep = Some true
    /\ Operator.position o = PosAt p
    /\ d = Position.distance2 p ep.
End GameMap.


(** ** battle_simulator.py: the script runner

    The runner's log is output only and is left out; an exception, which
    [run_simulation] catches, is again the outer [None]. *)

Inductive ActionType :=
  | DEPLOY | RETREAT | ACTIVATE_SKILL | PAUSE | SPEED_UP | END.

Module BattleAction.
Record t := mk {
  action_type : ActionType;
  time : Q;
  operator_id : string;
  position : option Position.t;
  direction : Direction;
  skill_index : Z;
  is_executed : bool
}.

Definition set_executed (a : t) (b : bool) : t :=
  mk (action_type a) (time a) (operator_id a) (position a) (direction a)
     (skill_index a) b.
End BattleAction.

(** How [run_simulation] ends. *)
Inductive Ending := Victory | Defeat | TimeLimit | Crashed.

Module BattleSimulator.
Record t := mk {
  game_map : GameMap.t;
  (** [self.operators], from the plan's identifier to the operator object *)
  operators : gmap string nat;
  (** [self.battle_plan.actions] *)
  actions : list BattleAction.t;
  action_index : nat
}.

Definition set_map (s : t) (m : GameMap.t) : t :=
  mk m (operators s) (actions s) (action_index s).

Definition _execute_deploy (s : t) (action : BattleAction.t)
  : option GameMap.t :=
  match operators s !! BattleAction.operator_id action with
  | None => Some (game_map s)
  | Some oid =>
      match BattleAction.position action with
      | None => Some (game_map s)
      | Some p =>
          r ← GameMap.deploy_operator (game_map s) oid p
                (BattleAction.direction action);
          Some r.2
      end
  end.

Definition _execute_retreat (s : t) (action : BattleAction.t)
  : option GameMap.t :=
  match operators s !! BattleAction.operator_id action with
  | None => Some (game_map s)
  | Some oid => r ← GameMap.retreat_operator (game_map s) oid; Some r.2
  end.

Definition _execute_activate_skill (s : t) (action : BattleAction.t)
  : option GameMap.t :=
  match operators s !! BattleAction.operator_id action with
  | None => Some (game_map s)
  | Some oid =>
      o ← GameMap.operators (game_map s) !! oid;
      if negb (Operator.is_deployed o) then Some (game_map s)
      else
        r ← GameMap.activate_skill (game_map s) oid
              (BattleAction.skill_index action);
        Some r.2
  end.

Definition _execute_action (s : t) (action : BattleAction.t)
  : option GameMap.t :=
  match BattleAction.action_type action with
  | DEPLOY => _execute_deploy s action
  | RETREAT => _execute_retreat s action
  | ACTIVATE_SKILL => _execute_activate_skill s action
  | _ => Some (game_map s)
  end.

(** The [while] loop of [_execute_actions_at_time]; every iteration
    advances [action_index], which bounds the iterations. *)
Fixpoint actions_loop (fuel : nat) (current_time : Q) (s : t) : option t :=
  match fuel with
  | O => Some s
  | S fuel' =>
      match actions s !! action_index s with
      | Some action =>
          if Py.leb (BattleAction.time action) current_time
             && negb (BattleAction.is_executed action)
          then
            m ← _execute_action s action;
            actions_loop fuel' current_time
              (mk m (operators s)
                 (<[action_index s := BattleAction.set_executed action true]>
                    (actions s))
                 (S (action_index s)))
          else Some s
      | None => Some s
      end
  end.

Definition _execute_actions_at_time (s : t) (current_time : Q) : option t :=
  actions_loop (length (actions s) - action_index s) current_time s.

(** The main loop of [run_simulation], from [current_time] on; [fuel]
    bounds the number of ticks.  The result is the way the run ends, the
    runner and the value of [current_time] at that point. *)
Fixpoint run_loop (fuel : nat) (time_step max_simulation_time : Q)
    (current_time : Q) (s : t) : Ending * t * Q :=
  match fuel with
  | O => (TimeLimit, s, current_time)
  | S fuel' =>
      if Py.ltb current_time max_simulation_time then
        match _execute_actions_at_time s current_time with
        | None => (Crashed, s, current_time)
        | Some s1 =>
            match GameMap.update (game_map s1) time_step with
            | None => (Crashed, s1, current_time)
            | Some m =>
                let s2 := set_map s1 m in
                let t' := (current_time + time_step)%Q in
                if GameMap.is_victory m then (Victory, s2, t')
                else if GameMap.is_defeat m then (Defeat, s2, t')
                else run_loop fuel' time_step max_simulation_time t' s2
        end
        end
      else (TimeLimit, s, current_time)
  end.

(** [self.time_step] and [self.max_simulation_time] *)
Definition time_step : Q := (1 # 10)%Q.
Definition max_simulation_time : Q := 60%Q.

(** [run_simulation] once plan, stage and operators are set up.  With
    exact arithmetic the clock reaches the limit after 600 ticks. *)
Definition run_simulation (s : t) : Ending * t * Q :=
  run_loop 600 time_step max_simulation_time 0%Q s.
End BattleSimulator.

(** ** Predicates on the blocking relation *)


(** The operator blocking the enemy behind a reference. *)
Definition blocker_of (m : GameMap.t) (eid : nat) : option nat :=
  GameMap.enemies m !! eid ≫= GameMap.blocker.

(** ** Concrete scenarios

    A lane of three tiles in one row, one route along it, one wave that
    spawns a single enemy, and a squad of a melee and a ranged operator. *)
Module Scenario.
Definition slug : EnemyData.t := EnemyData.mk "slug" 10 5 0 0%Q 1%Q 1%Q 1%Q.

Definition enemy_table (k : string) : option EnemyData.t :=
  if String.eqb k "slug" then Some slug else None.

Definition one_wave : list Wave.t :=
  [Wave.mk 0%Q 0%Q (-1)%Q
     [WaveFragment.mk 0%Q
        [WaveAction.mk "SPAWN" "slug" 1 0%Q 1%Q 0 false 0 0%Q]
        false false 0%Q]
     false false 0%Q].

Definition lane (tiles : list BuildableType) (life : Z) (cost : Q)
  : Level.t :=
  Level.mk [[0; 1; 2]] tiles
    [Route.mk_data (Position.mk 0 0) (Position.mk 0 2) [] false]
    one_wave 8 life cost 99%Q 1%Q enemy_table.

Definition guard : OperatorData.t :=
  OperatorData.mk "guard" "MELEE" 100 20 3 0%Q 5%Q 1 1%Q 1%Q [].

Definition sniper : OperatorData.t :=
  OperatorData.mk "sniper" "RANGED" 60 15 1 0%Q 7%Q 1 1%Q 1%Q [].

Definition squad : gmap nat OperatorData.t :=
  <[0%nat := guard]> (<[1%nat := sniper]> ∅).

(** The usual start: a melee tile, then two tiles open to both classes. *)
Definition start : GameMap.t :=
  GameMap.init (lane [BT_MELEE; BT_ALL; BT_ALL] 1 10%Q)
    (OperatorData.make <$> squad).

(** A start with too little cost for any operator. *)
Definition poor : GameMap.t :=
  GameMap.init (lane [BT_MELEE; BT_ALL; BT_ALL] 1 3%Q)
    (OperatorData.make <$> squad).

(** A start where every tile is open to both classes. *)
Definition open_lane : GameMap.t :=
  GameMap.init (lane [BT_ALL; BT_ALL; BT_ALL] 3 30%Q)
    (OperatorData.make <$> squad).

(** The world after the commands of a script prefix, [m] if one raises. *)
Definition after_deploy (m : GameMap.t) (oid : nat) (p : Position.t)
  : GameMap.t :=
  match GameMap.deploy_operator m oid p RIGHT with
  | Some (_, m') => m'
  | None => m
  end.

Definition after_retreat (m : GameMap.t) (oid : nat) : GameMap.t :=
  match GameMap.retreat_operator m oid with
  | Some (_, m') => m'
  | None => m
  end.

Fixpoint after_ticks (n : nat) (m : GameMap.t) : GameMap.t :=
  match n with
  | O => m
  | S n' =>
      match GameMap.update m (1 # 2)%Q with
      | Some m' => after_ticks n' m'
      | None => m
      end
  end.

(** Both operators placed on the open lane, the guard first. *)
Definition both_deployed : GameMap.t :=
  after_deploy (after_deploy open_lane 0%nat (Position.mk 0 1))
    1%nat (Position.mk 0 2).

(** A timed skill: manual, five seconds, ready at once. *)
Definition five_seconds : SkillLevel.t :=
  SkillLevel.mk MANUAL SECONDS 5%Q INCREASE_WITH_TIME 0%Q 0%Q 1 1%Q ∅.

Definition timed_skill : Skill.t :=
  Skill.mk [five_seconds] 0 0%Q 0 false 0%Q 0.

(** [timed_skill] right after [activate]. *)
Definition running_skill : Skill.t :=
  Skill.mk [five_seconds] 0 0%Q 0 true 5%Q 0.

(** The guard holds the middle tile and the slug has just been killed. *)
Definition guard_holds : GameMap.t :=
  after_ticks 4 (after_deploy start 0%nat (Position.mk 0 1)).

(** Nobody is deployed and the slug is one step from the goal. *)
Definition slug_arrives : GameMap.t := after_ticks 4 start.

(** The guard is on the middle tile and the slug is about to reach it. *)
Definition slug_meets_guard : GameMap.t :=
  after_ticks 2 (after_deploy start 0%nat (Position.mk 0 1)).

(** The guard placed on the melee tile, and the world after its retreat. *)
Definition melee_spot : Position.t := Position.mk 0 0.

Definition guard_placed : GameMap.t := after_deploy start 0%nat melee_spot.

Definition guard_retreated : GameMap.t := after_retreat guard_placed 0%nat.

(** A segment whose column gap is larger than its row gap. *)
Definition wide_from : Position.t := Position.mk 0 0.
Definition wide_to : Position.t := Position.mk 1 2.

Definition straight : Route.data :=
  Route.mk_data (Position.mk 0 0) (Position.mk 1 2)
    [Position.mk 2 0; Position.mk 2 3] false.

(** A skill charged by attacks: charges of two SP, at most three of them,
    each activation loading three shots. *)
Definition volley : SkillLevel.t :=
  SkillLevel.mk MANUAL AMMO 3%Q INCREASE_WHEN_ATTACK 2%Q 0%Q 3 1%Q ∅.

Definition volley_skill : Skill.t := Skill.mk [volley] 0 1%Q 0 false 0%Q 0.

(** [volley_skill] with one charge spent on an activation. *)
Definition volley_firing : Skill.t := Skill.mk [volley] 0 1%Q 1 true 0%Q 3.

(** The slug on the lane's route, half a tile into its first step. *)
Definition slug_on_lane : Enemy.t :=
  Enemy.set_motion
    (Enemy.set_path (EnemyData.make slug 1)
       [Position.mk 0 0; Position.mk 0 1; Position.mk 0 2])
    (Some (Position.mk 0 0)) 0%nat (1 # 2)%Q false.

(** The guard fresh from its constructor, and with [timed_skill]. *)
Definition guard_operator : Operator.t := OperatorData.make guard.

Definition skilled_guard : Operator.t :=
  Operator.set_skills guard_operator [timed_skill].

(** Three slugs, due at once, with five seconds between them on paper. *)
Definition three_slugs : WaveAction.t :=
  WaveAction.mk "SPAWN" "slug" 3 0%Q 5%Q 0 false 0 0%Q.

(** A plan: place the guard in the middle at once, pause after one
    second, use a skill after two. *)
Definition script : list BattleAction.t :=
  [BattleAction.mk DEPLOY 0%Q "guard" (Some (Position.mk 0 1)) RIGHT 0 false;
   BattleAction.mk PAUSE 1%Q "" None RIGHT 0 false;
   BattleAction.mk ACTIVATE_SKILL 2%Q "guard" None RIGHT 0 false].

Definition runner : BattleSimulator.t :=
  BattleSimulator.mk start (<["guard" := 0%nat]> ∅) script 0%nat.

(** A ranged operator with [volley_skill], alone on the open lane, and
    the world three ticks after it was placed in the middle. *)
Definition archer : OperatorData.t :=
  OperatorData.mk "archer" "RANGED" 60 15 1 0%Q 7%Q 1 1%Q 1%Q
    [volley_skill].

Definition archer_placed : GameMap.t :=
  after_deploy
    (GameMap.init (lane [BT_ALL; BT_ALL; BT_ALL] 3 30%Q)
       (OperatorData.make <$> <[0%nat := archer]> ∅))
    0%nat (Position.mk 0 1).

Definition archer_fights : GameMap.t := after_ticks 3 archer_placed.

(** The archer object as it is in [archer_fights]. *)
Definition archer_in_fight : Operator.t :=
  default (OperatorData.make archer)
    (GameMap.operators archer_fights !! 0%nat).
End Scenario.

(** * Properties *)

(** ** The loops run to their end

    The [while] loops are written with a bound on their iterations; the
    bound is never what stops them. *)

(** [bank_charges] stops because the loop condition fails. *)
Lemma bank_charges_done (n : nat) :
  forall (cost : Q) (maxc : Z) (sp : Q) (cc : Z),
    maxc - cc <= Z.of_nat n ->
    let r := Skill.bank_charges n cost maxc sp cc in
    Py.leb cost r.1 && (r.2 <? maxc) = false.
Proof.
  induction n as [|n IH]; intros cost maxc sp cc Hn; simpl.
  - apply andb_false_iff. right. apply Z.ltb_ge. lia.
  - destruct (Py.leb cost sp && (cc <? maxc)) eqn:Hc.
    + apply IH. lia.
    + simpl. exact Hc.
Qed.

(** [move_loop] never reads past the path, and it stops because the enemy
    arrived or because the loop condition fails. *)
Lemma move_loop_done (fuel : nat) :
  forall e : Enemy.t,
    (length (Enemy.path e) - 1 - Enemy.path_index e <= fuel)%nat ->
    exists e',
      Enemy.move_loop fuel e = Some e'
      /\ Enemy.path e' = Enemy.path e
      /\ ((Enemy.has_reached_goal e' = true
           /\ Enemy.path_index e' = (length (Enemy.path e) - 1)%nat
           /\ Enemy.position e' = Enemy.path e !! Enemy.path_index e')
          \/ Py.leb 1 (Enemy.move_progress e')
             && (Enemy.path_index e' <? length (Enemy.path e') - 1)%nat
             = false).
Proof.
  induction fuel as [|fuel IH]; intros e Hf; cbn [Enemy.move_loop].
  - exists e. split; [reflexivity|]. split; [reflexivity|]. right.
    apply andb_false_iff. right. apply Nat.ltb_ge. lia.
  - destruct (Py.leb 1 (Enemy.move_progress e)
              && (Enemy.path_index e <? length (Enemy.path e) - 1)%nat)
      eqn:Hc.
    + apply andb_true_iff in Hc as [_ Hlt]. apply Nat.ltb_lt in Hlt.
      destruct (lookup_lt_is_Some_2 (Enemy.path e) (S (Enemy.path_index e)))
        as [p Hp]; [lia|].
      rewrite Hp. cbn [mbind option_bind].
      destruct (Nat.eqb_spec (S (Enemy.path_index e))
                  (length (Enemy.path e) - 1)) as [Heq|Hne].
      * eexists. split; [reflexivity|]. split; [reflexivity|]. left.
        cbn [Enemy.set_motion Enemy.has_reached_goal Enemy.path_index
             Enemy.position]. rewrite Hp. auto.
      * destruct (IH (Enemy.set_motion e (Some p) (S (Enemy.path_index e))
                        (Enemy.move_progress e - 1)%Q
                        (Enemy.has_reached_goal e)))
          as (e' & He' & Hpath & Hend); [simpl; lia|].
        exists e'. split; [exact He'|]. split; [exact Hpath|]. exact Hend.
    + exists e. split; [reflexivity|]. split; [reflexivity|]. right. exact Hc.
Qed.

(** [Enemy.update] raises nothing. *)
Lemma enemy_update_total (e : Enemy.t) (delta_time : Q) :
  is_Some (Enemy.update e delta_time).
Proof.
  unfold Enemy.update.
  match goal with
  | |- is_Some (if ?c then Enemy.move ?x _ else _) =>
      destruct c; [|eauto]; generalize x
  end.
  intros e2. unfold Enemy.move.
  match goal with
  | |- is_Some (if ?c then _ else _) => destruct c; [eauto|]
  end.
  match goal with
  | |- is_Some (Enemy.move_loop ?n ?x) =>
      destruct (move_loop_done n x) as (e' & He' & _); [simpl; lia|]
  end.
  rewrite He'. eauto.
Qed.

(** The line walk after [a] steps along x and [b] steps along y: it ends on
    the endpoint before its bound is used up. *)
Lemma line_loop_done (x0 y0 x1 y1 : Z) (fuel : nat) :
  let dx := Z.abs (x1 - x0) in
  let dy := Z.abs (y1 - y0) in
  let sx := if x0 <? x1 then 1 else -1 in
  let sy := if y0 <? y1 then 1 else -1 in
  forall a b : Z,
    0 <= a <= dx -> 0 <= b <= dy ->
    (dx - a) + (dy - b) < Z.of_nat fuel ->
    let r := Route.line_loop fuel x0 y0 x1 y1 dx dy sx sy
               (x0 + sx * a) (y0 + sy * b) (dx - dy - a * dy + b * dx) in
    (dx = 0 /\ dy = 0 -> r = [])
    /\ (~ (dx = 0 /\ dy = 0) -> exists l, r = l ++ [Position.mk y1 x1]).
Proof.
  intros dx dy sx sy.
  assert (Hdx : 0 <= dx) by (subst dx; lia).
  assert (Hdy : 0 <= dy) by (subst dy; lia).
  assert (Hsx : (sx = 1 \/ sx = -1) /\ sx * dx = x1 - x0).
  { subst sx dx. destruct (Z.ltb_spec x0 x1); lia. }
  assert (Hsy : (sy = 1 \/ sy = -1) /\ sy * dy = y1 - y0).
  { subst sy dy. destruct (Z.ltb_spec y0 y1); lia. }
  clearbody dx dy sx sy.
  induction fuel as [|fuel IH]; intros a b Ha Hb Hf; [lia|].
  cbn [Route.line_loop].
  assert (Hx0 : (x0 + sx * a =? x0) = (a =? 0)).
  { destruct (Z.eqb_spec a 0); destruct (Z.eqb_spec (x0 + sx * a) x0);
      try reflexivity; exfalso; nia. }
  assert (Hy0 : (y0 + sy * b =? y0) = (b =? 0)).
  { destruct (Z.eqb_spec b 0); destruct (Z.eqb_spec (y0 + sy * b) y0);
      try reflexivity; exfalso; nia. }
  assert (Hx1 : (x0 + sx * a =? x1) = (a =? dx)).
  { destruct (Z.eqb_spec a dx); destruct (Z.eqb_spec (x0 + sx * a) x1);
      try reflexivity; exfalso; nia. }
  assert (Hy1 : (y0 + sy * b =? y1) = (b =? dy)).
  { destruct (Z.eqb_spec b dy); destruct (Z.eqb_spec (y0 + sy * b) y1);
      try reflexivity; exfalso; nia. }
  rewrite Hx0, Hy0, Hx1, Hy1.
  destruct (Z.eqb_spec a dx) as [Hadx|Hadx];
    destruct (Z.eqb_spec b dy) as [Hbdy|Hbdy]; cbn [andb].
  - (* arrived *)
    split.
    + intros [Hzx Hzy]. replace a with 0 by lia. replace b with 0 by lia.
      reflexivity.
    + intros Hnz.
      assert (Hpos : negb (a =? 0) || negb (b =? 0) = true).
      { destruct (Z.eqb_spec a 0); destruct (Z.eqb_spec b 0); try reflexivity.
        exfalso. apply Hnz. lia. }
      rewrite Hpos. exists [].
      assert (Ex : x0 + sx * a = x1).
      { apply Z.eqb_eq. exact Hx1. }
      assert (Ey : y0 + sy * b = y1).
      { apply Z.eqb_eq. exact Hy1. }
      rewrite Ex, Ey. reflexivity.
  - (* x done, y not: only the y step fires *)
    assert (Hxs : (- dy <? 2 * (dx - dy - a * dy + b * dx)) = false).
    { apply Z.ltb_ge. subst a.
      assert (0 <= dx * (dy - 1 - b)) by nia. nia. }
    assert (Hys : (2 * (dx - dy - a * dy + b * dx) <? dx) = true).
    { apply Z.ltb_lt. subst a.
      assert (0 <= dx * (dy - 1 - b)) by nia. nia. }
    rewrite Hxs, Hys.
    destruct (IH a (b + 1)) as [_ Hl]; [lia|lia|lia|].
    split; [lia|]. intros Hnz. destruct (Hl Hnz) as [l El].
    replace (y0 + sy * (b + 1)) with (y0 + sy * b + sy) in El by ring.
    replace (dx - dy - a * dy + (b + 1) * dx)
      with (dx - dy - a * dy + b * dx + dx) in El by ring.
    rewrite El. eexists. rewrite app_assoc. reflexivity.
  - (* y done, x not: only the x step fires *)
    assert (Hxs : (- dy <? 2 * (dx - dy - a * dy + b * dx)) = true).
    { apply Z.ltb_lt. subst b.
      assert (0 <= dy * (dx - 1 - a)) by nia. nia. }
    assert (Hys : (2 * (dx - dy - a * dy + b * dx) <? dx) = false).
    { apply Z.ltb_ge. subst b.
      assert (0 <= dy * (dx - 1 - a)) by nia. nia. }
    rewrite Hxs, Hys.
    destruct (IH (a + 1) b) as [_ Hl]; [lia|lia|lia|].
    split; [lia|]. intros Hnz. destruct (Hl Hnz) as [l El].
    replace (x0 + sx * (a + 1)) with (x0 + sx * a + sx) in El by ring.
    replace (dx - dy - (a + 1) * dy + b * dx)
      with (dx - dy - a * dy + b * dx - dy) in El by ring.
    rewrite El. eexists. rewrite app_assoc. reflexivity.
  - (* neither done: at least one step fires *)
    split; [lia|]. intros Hnz.
    destruct (Z.ltb_spec (- dy) (2 * (dx - dy - a * dy + b * dx))) as [Hxs|Hxs];
      destruct (Z.ltb_spec (2 * (dx - dy - a * dy + b * dx)) dx) as [Hys|Hys].
    + destruct (IH (a + 1) (b + 1)) as [_ Hl]; [lia|lia|lia|].
      destruct (Hl Hnz) as [l El].
      replace (x0 + sx * (a + 1)) with (x0 + sx * a + sx) in El by ring.
      replace (y0 + sy * (b + 1)) with (y0 + sy * b + sy) in El by ring.
      replace (dx - dy - (a + 1) * dy + (b + 1) * dx)
        with (dx - dy - a * dy + b * dx - dy + dx) in El by ring.
      rewrite El. eexists. rewrite app_assoc. reflexivity.
    + destruct (IH (a + 1) b) as [_ Hl]; [lia|lia|lia|].
      destruct (Hl Hnz) as [l El].
      replace (x0 + sx * (a + 1)) with (x0 + sx * a + sx) in El by ring.
      replace (dx - dy - (a + 1) * dy + b * dx)
        with (dx - dy - a * dy + b * dx - dy) in El by ring.
      rewrite El. eexists. rewrite app_assoc. reflexivity.
    + destruct (IH a (b + 1)) as [_ Hl]; [lia|lia|lia|].
      destruct (Hl Hnz) as [l El].
      replace (y0 + sy * (b + 1)) with (y0 + sy * b + sy) in El by ring.
      replace (dx - dy - a * dy + (b + 1) * dx)
        with (dx - dy - a * dy + b * dx + dx) in El by ring.
      rewrite El. eexists. rewrite app_assoc. reflexivity.
    + exfalso. lia.
Qed.

(** In diagonal mode a segment is empty when it starts on its endpoint and
    ends on the endpoint otherwise. *)
Lemma generate_line_path_ends (s e : Position.t) :
  last (s :: Route._generate_line_path s e) = Some e.
Proof.
  unfold Route._generate_line_path.
  pose proof (line_loop_done (Position.col s) (Position.row s)
                (Position.col e) (Position.row e)
                (S (Z.to_nat (Z.abs (Position.col e - Position.col s)
                              + Z.abs (Position.row e - Position.row s))))
                0 0) as H.
  cbv zeta in H.
  replace (Position.col s + (if Position.col s <? Position.col e then 1 else -1) * 0)
    with (Position.col s) in H by lia.
  replace (Position.row s + (if Position.row s <? Position.row e then 1 else -1) * 0)
    with (Position.row s) in H by lia.
  replace (Z.abs (Position.col e - Position.col s)
           - Z.abs (Position.row e - Position.row s)
           - 0 * Z.abs (Position.row e - Position.row s)
           + 0 * Z.abs (Position.col e - Position.col s))
    with (Z.abs (Position.col e - Position.col s)
          - Z.abs (Position.row e - Position.row s)) in H by lia.
  destruct H as [Hz Hnz]; [lia|lia|lia|].
  destruct (Z.eq_dec (Z.abs (Position.col e - Position.col s)) 0) as [Hc|Hc];
    [destruct (Z.eq_dec (Z.abs (Position.row e - Position.row s)) 0)
       as [Hr|Hr]|].
  - rewrite (Hz (conj Hc Hr)). simpl.
    destruct s as [r c], e as [r' c']. simpl in *. f_equal. f_equal; lia.
  - destruct Hnz as [l ->]; [lia|].
    rewrite app_comm_cons, last_snoc. destruct e. reflexivity.
  - destruct Hnz as [l ->]; [lia|].
    rewrite app_comm_cons, last_snoc. destruct e. reflexivity.
Qed.


Lemma total_cons (dt : Q) (dts : list Q) :
  Py.total (dt :: dts) = (dt + Py.total dts)%Q.
Proof. reflexivity. Qed.




(** ** Damage *)



(** ** Routes *)

Lemma position_eqb_eq (a b : Position.t) :
  Position.eqb a b = true <-> a = b.
Proof.
  destruct a as [r c], b as [r' c']. unfold Position.eqb. simpl.
  rewrite andb_true_iff, !Z.eqb_eq. split.
  - intros [-> ->]. reflexivity.
  - intros [= -> ->]. auto.
Qed.

Lemma position_eqb_neq (a b : Position.t) :
  Position.eqb a b = false ->
  Position.row a <> Position.row b \/ Position.col a <> Position.col b.
Proof.
  unfold Position.eqb. rewrite andb_false_iff, !Z.eqb_neq. tauto.
Qed.

Ltac route_cases :=
  unfold Route.step;
  repeat match goal with
    | |- context [?a <? ?b] => destruct (Z.ltb_spec a b)
    end; simpl in *.

Lemma step_adjacent (current e : Position.t) :
  Position.eqb current e = false ->
  Route.adjacent current (Route.step current e).
Proof.
  intros H. apply position_eqb_neq in H. unfold Route.adjacent.
  route_cases; lia.
Qed.

Lemma gap_step (current e : Position.t) :
  Position.eqb current e = false ->
  Route.gap current e = S (Route.gap (Route.step current e) e).
Proof.
  intros H. apply position_eqb_neq in H. unfold Route.gap.
  route_cases; lia.
Qed.

Lemma gap_same (e : Position.t) (a : Position.t) :
  Position.eqb a e = true -> Route.gap a e = 0%nat.
Proof.
  intros H. apply position_eqb_eq in H. subst. unfold Route.gap. lia.
Qed.

Lemma walk_chain (e : Position.t) (fuel : nat) :
  forall current, Route.chain (current :: Route.walk fuel current e).
Proof.
  induction fuel as [|fuel IH]; intros current; simpl; [exact I|].
  destruct (Position.eqb current e) eqn:He; [exact I|].
  split; [apply step_adjacent; exact He|apply IH].
Qed.

Lemma walk_last (e : Position.t) (n : nat) :
  forall current, Route.gap current e = n ->
    last (current :: Route.walk n current e) = Some e.
Proof.
  induction n as [|n IH]; intros current Hg.
  - simpl. destruct (Position.eqb current e) eqn:He.
    + apply position_eqb_eq in He. subst. reflexivity.
    + rewrite (gap_step _ _ He) in Hg. discriminate.
  - simpl Route.walk. destruct (Position.eqb current e) eqn:He.
    + rewrite (gap_same _ _ He) in Hg. discriminate.
    + rewrite (gap_step _ _ He) in Hg. injection Hg as Hg.
      rewrite last_cons_cons. apply IH. exact Hg.
Qed.

Lemma map_seq_S {A} (f : nat -> A) (k : nat) :
  List.map f (seq 1 (S k)) = f 1%nat :: List.map (fun i => f (S i)) (seq 1 k).
Proof. simpl. f_equal. rewrite <- seq_shift, map_map. reflexivity. Qed.

Lemma runs_step (s e : Position.t) :
  Position.eqb s e = false ->
  Route.row_run s e ++ Route.col_run s e
  = Route.step s e
    :: (Route.row_run (Route.step s e) e ++ Route.col_run (Route.step s e) e).
Proof.
  intros He. apply position_eqb_neq in He.
  unfold Route.row_run, Route.col_run.
  destruct s as [r c], e as [r' c']. simpl in *.
  unfold Route.step. simpl.
  destruct (Z.ltb_spec r r'); [|destruct (Z.ltb_spec r' r)]; simpl.
  - replace (Z.to_nat (Z.abs (r' - r)))
      with (S (Z.to_nat (Z.abs (r' - (r + 1))))) by lia.
    rewrite map_seq_S. simpl. f_equal.
    + f_equal. rewrite (Z.sgn_pos (r' - r)) by lia. lia.
    + f_equal. apply map_ext_in. intros i Hi. apply in_seq in Hi.
      rewrite (Z.sgn_pos (r' - r)) by lia.
      rewrite (Z.sgn_pos (r' - (r + 1))) by lia. f_equal. lia.
  - replace (Z.to_nat (Z.abs (r' - r)))
      with (S (Z.to_nat (Z.abs (r' - (r - 1))))) by lia.
    rewrite map_seq_S. simpl. f_equal.
    + f_equal. rewrite (Z.sgn_neg (r' - r)) by lia. lia.
    + f_equal. apply map_ext_in. intros i Hi. apply in_seq in Hi.
      rewrite (Z.sgn_neg (r' - r)) by lia.
      rewrite (Z.sgn_neg (r' - (r - 1))) by lia. f_equal. lia.
  - assert (r = r') by lia. subst r'.
    destruct (Z.ltb_spec c c'); [|destruct (Z.ltb_spec c' c); [|lia]];
      simpl; rewrite !Z.sub_diag; simpl.
    + replace (Z.to_nat (Z.abs (c' - c)))
        with (S (Z.to_nat (Z.abs (c' - (c + 1))))) by lia.
      rewrite map_seq_S. f_equal.
      * f_equal. rewrite (Z.sgn_pos (c' - c)) by lia. lia.
      * apply map_ext_in. intros i Hi. apply in_seq in Hi.
        rewrite (Z.sgn_pos (c' - c)) by lia.
        rewrite (Z.sgn_pos (c' - (c + 1))) by lia. f_equal. lia.
    + replace (Z.to_nat (Z.abs (c' - c)))
        with (S (Z.to_nat (Z.abs (c' - (c - 1))))) by lia.
      rewrite map_seq_S. f_equal.
      * f_equal. rewrite (Z.sgn_neg (c' - c)) by lia. lia.
      * apply map_ext_in. intros i Hi. apply in_seq in Hi.
        rewrite (Z.sgn_neg (c' - c)) by lia.
        rewrite (Z.sgn_neg (c' - (c - 1))) by lia. f_equal. lia.
Qed.

Lemma walk_closed_form (e : Position.t) (n : nat) :
  forall s, Route.gap s e = n ->
    Route.walk n s e = Route.row_run s e ++ Route.col_run s e.
Proof.
  induction n as [|n IH]; intros s Hg.
  - unfold Route.gap in Hg. unfold Route.row_run, Route.col_run.
    replace (Z.to_nat (Z.abs (Position.row e - Position.row s))) with 0%nat
      by lia.
    replace (Z.to_nat (Z.abs (Position.col e - Position.col s))) with 0%nat
      by lia.
    reflexivity.
  - simpl. destruct (Position.eqb s e) eqn:He.
    { rewrite (gap_same _ _ He) in Hg. discriminate. }
    pose proof (gap_step _ _ He) as Hs. rewrite Hg in Hs. injection Hs as Hs.
    rewrite (IH _ (eq_sym Hs)). symmetry. apply runs_step. exact He.
Qed.

Lemma chain_app (l1 l2 : list Position.t) (x : Position.t) :
  Route.chain l1 -> last l1 = Some x -> Route.chain (x :: l2) ->
  Route.chain (l1 ++ l2).
Proof.
  induction l1 as [|a l1 IH]; intros Hc Hl Hx; [discriminate|].
  destruct l1 as [|b l1].
  - simpl in Hl. injection Hl as ->. exact Hx.
  - destruct Hc as [Hab Hc]. rewrite last_cons_cons in Hl.
    change ((a :: b :: l1) ++ l2) with (a :: ((b :: l1) ++ l2)).
    simpl. split; [exact Hab|]. apply IH; assumption.
Qed.

Lemma last_app_chain (l1 l2 : list Position.t) (x y : Position.t) :
  last l1 = Some x -> last (x :: l2) = Some y -> last (l1 ++ l2) = Some y.
Proof.
  intros H1 H2. destruct l2 as [|b l2].
  - rewrite app_nil_r. simpl in H2. congruence.
  - rewrite last_cons_cons in H2. rewrite last_app, H2. reflexivity.
Qed.

Lemma find_path_chain (s e : Position.t) :
  Route.chain (s :: Route._find_path false s e)
  /\ last (s :: Route._find_path false s e) = Some e.
Proof.
  unfold Route._find_path. split; [apply walk_chain|].
  apply walk_last. reflexivity.
Qed.

Lemma segments_chain (cps : list Position.t) (e : Position.t) :
  forall current,
    Route.chain (current :: Route.segments false current cps e)
    /\ last (current :: Route.segments false current cps e) = Some e.
Proof.
  induction cps as [|c cps IH]; intros current; simpl Route.segments.
  - apply find_path_chain.
  - destruct (find_path_chain current c) as [Hc Hl].
    destruct (IH c) as [Hc' Hl'].
    rewrite app_comm_cons. split.
    + eapply chain_app; eauto.
    + eapply last_app_chain; eauto.
Qed.

(** C9 (as the code has it). With diagonal movement disabled, each
    point-to-point segment takes all its row steps first and then all its
    column steps, one tile at a time, and ends on the segment's endpoint;
    hence consecutive waypoints of the flattened path differ by exactly one
    row or exactly one column, never both, and the path ends on the route's
    end position. *)
Theorem C9_orthogonal_route_rows_then_columns (r : Route.data) :
  Route.allow_diagonal_move r = false ->
  (forall s e : Position.t,
      Route._find_path (Route.allow_diagonal_move r) s e
      = Route.row_run s e ++ Route.col_run s e
      /\ last (s :: Route._find_path (Route.allow_diagonal_move r) s e)
         = Some e)
  /\ Route.chain (Route._generate_path r)
  /\ last (Route._generate_path r) = Some (Route.end_position r).
Proof.
  intros Hd. rewrite Hd. split.
  - intros s e. split.
    + unfold Route._find_path. apply walk_closed_form. reflexivity.
    + apply find_path_chain.
  - unfold Route._generate_path. rewrite Hd. apply segments_chain.
Qed.

(** ** Deployment *)

(** Inversion of a computation in the exception monad: split every bind,
    conditional and match the hypothesis [H] is made of. *)
Ltac inv_step H :=
  repeat (simpl in H;
    match type of H with
    | None = Some _ => discriminate H
    | (mbind _ ?x) = Some _ =>
        let E := fresh "E" in destruct x eqn:E; simpl in H;
        [|discriminate H]
    | (if ?c then _ else _) = Some _ =>
        let E := fresh "E" in destruct c eqn:E
    | (match ?c with _ => _ end) = Some _ =>
        let E := fresh "E" in destruct c eqn:E
    end).

Lemma compat_can_deploy (o : Operator.t) (tile : Tile.t) :
  Tile.deployed_operator tile = None ->
  GameMap._check_operator_tile_compatibility o tile
  = Tile.can_deploy_operator tile o.
Proof.
  intros H. unfold GameMap._check_operator_tile_compatibility,
    Tile.can_deploy_operator. rewrite H.
  destruct (Tile.buildable_type tile); reflexivity.
Qed.

(** What a successful [deploy_operator] went through and produced. *)
Lemma deploy_success_inv (m m' : GameMap.t) (oid : nat) (p : Position.t)
    (d : Direction) (r : OperationResult.t) :
  GameMap.deploy_operator m oid p d = Some (r, m') ->
  OperationResult.success r = true ->
  exists o k tile,
    GameMap.operators m !! oid = Some o
    /\ GameMap.get_tile_at m p = Some (Some (k, tile))
    /\ Tile.deployed_operator tile = None
    /\ Tile.can_deploy_operator tile o = true
    /\ Py.ltb (GameMap.current_cost m) (Operator.deploy_cost o) = false
    /\ (Level.character_limit (GameMap.level m)
        <=? Z.of_nat (length (GameMap.deployed_operators m))) = false
    /\ r = OperationResult.success_result
    /\ m' = GameMap.set_cost
              (GameMap.set_deployed
                 (GameMap.set_operators
                    (GameMap.set_tiles m
                       (<[k := Tile.mk (Tile.buildable_type tile) (Some oid)]>
                          (GameMap.tiles m)))
                    (<[oid := Operator.deploy o p d]> (GameMap.operators m)))
                 (GameMap.deployed_operators m ++ [oid]))
              (GameMap.current_cost m - Operator.deploy_cost o)%Q.
Proof.
  unfold GameMap.deploy_operator. intros H Hs.
  destruct (GameMap.operators m !! oid) as [o|] eqn:Ho; [|discriminate].
  cbn beta iota zeta in H. simpl in H.
  destruct (negb (GameMap.is_valid_position m p));
    [injection H as <- <-; discriminate|].
  destruct (GameMap.get_tile_at m p) as [[[k tile]|]|] eqn:Ht; simpl in H;
    [| injection H as <- <-; discriminate | discriminate].
  destruct (bool_decide (Tile.deployed_operator tile ≠ None)) eqn:Hocc;
    [injection H as <- <-; discriminate|].
  apply bool_decide_eq_false in Hocc.
  assert (Hnone : Tile.deployed_operator tile = None).
  { destruct (Tile.deployed_operator tile); [exfalso; apply Hocc|]; done. }
  destruct (GameMap._check_operator_tile_compatibility o tile) eqn:Hc;
    simpl in H; [|injection H as <- <-; discriminate].
  destruct (Py.ltb (GameMap.current_cost m) (Operator.deploy_cost o)) eqn:Hcost;
    [injection H as <- <-; discriminate|].
  destruct (Level.character_limit (GameMap.level m)
            <=? Z.of_nat (length (GameMap.deployed_operators m))) eqn:Hlim;
    [injection H as <- <-; discriminate|].
  rewrite compat_can_deploy in Hc by exact Hnone.
  unfold Tile.deploy_operator in H. rewrite Hc in H.
  injection H as <- <-.
  exists o, k, tile. repeat split; auto.
Qed.

(** A failed [deploy_operator] changed nothing and carries a reason. *)
Lemma deploy_failure_inv (m m' : GameMap.t) (oid : nat) (p : Position.t)
    (d : Direction) (r : OperationResult.t) :
  GameMap.deploy_operator m oid p d = Some (r, m') ->
  OperationResult.success r = false ->
  m' = m /\ exists msg, OperationResult.reason r = Some msg.
Proof.
  unfold GameMap.deploy_operator. intros H Hs.
  inv_step H; injection H as <- <-; try discriminate; split; eauto.
Qed.

Lemma get_tile_valid (m : GameMap.t) (p : Position.t) (k : Z) (tile : Tile.t) :
  GameMap.get_tile_at m p = Some (Some (k, tile)) ->
  GameMap.is_valid_position m p = true.
Proof.
  unfold GameMap.get_tile_at. intros H.
  destruct (GameMap.is_valid_position m p); [reflexivity|]. discriminate.
Qed.

Lemma ltb_false_iff (x y : Q) : Py.ltb x y = false <-> (y <= x)%Q.
Proof.
  unfold Py.ltb. rewrite negb_false_iff. apply Qle_bool_iff.
Qed.

Lemma ltb_true_iff (x y : Q) : Py.ltb x y = true <-> (x < y)%Q.
Proof.
  unfold Py.ltb. rewrite negb_true_iff. split.
  - intros H. apply Qnot_le_lt. intros Hc. apply Qle_bool_iff in Hc.
    congruence.
  - intros H. destruct (Qle_bool y x) eqn:E; [|reflexivity].
    apply Qle_bool_iff in E. lra.
Qed.

(** C4. [can_deploy_at] and [deploy_operator] agree on tile validity:
    a deploy never succeeds where [can_deploy_at] returns false, and where it
    returns true a deploy with enough cost and roster room succeeds. *)
Theorem C4_can_deploy_agrees_with_deploy
    (m : GameMap.t) (oid : nat) (o : Operator.t) (p : Position.t)
    (d : Direction) :
  GameMap.operators m !! oid = Some o ->
  (forall r m',
      GameMap.deploy_operator m oid p d = Some (r, m') ->
      GameMap.can_deploy_at m p oid = Some false ->
      OperationResult.success r = false)
  /\ (GameMap.can_deploy_at m p oid = Some true ->
      (Operator.deploy_cost o <= GameMap.current_cost m)%Q ->
      Z.of_nat (length (GameMap.deployed_operators m))
        < Level.character_limit (GameMap.level m) ->
      exists m',
        GameMap.deploy_operator m oid p d
        = Some (OperationResult.success_result, m')).
Proof.
  intros Ho. split.
  - intros r m' Hd Hc.
    destruct (OperationResult.success r) eqn:Hs; [|reflexivity].
    destruct (deploy_success_inv _ _ _ _ _ _ Hd Hs)
      as (o' & k & tile & Ho' & Ht & _ & Hcan & _).
    unfold GameMap.can_deploy_at in Hc. rewrite Ho', Ht in Hc. simpl in Hc.
    congruence.
  - intros Hc Hcost Hlim.
    unfold GameMap.can_deploy_at in Hc. rewrite Ho in Hc. simpl in Hc.
    destruct (GameMap.get_tile_at m p) as [[[k tile]|]|] eqn:Ht;
      simpl in Hc; try discriminate.
    injection Hc as Hc.
    assert (Hnone : Tile.deployed_operator tile = None).
    { unfold Tile.can_deploy_operator in Hc.
      destruct (Tile.deployed_operator tile); [discriminate|reflexivity]. }
    unfold GameMap.deploy_operator. rewrite Ho. simpl.
    rewrite (get_tile_valid _ _ _ _ Ht). simpl. rewrite Ht. simpl.
    rewrite Hnone. simpl.
    rewrite (compat_can_deploy _ _ Hnone), Hc. simpl.
    apply ltb_false_iff in Hcost. rewrite Hcost.
    apply Z.leb_gt in Hlim. rewrite Hlim.
    unfold Tile.deploy_operator. rewrite Hc. eexists. reflexivity.
Qed.

(** C5 (as the code has it). A failing [deploy_operator] returns a result
    with success false and a reason, raises nothing for an invalid position,
    an occupied or incompatible tile, insufficient cost or a full roster, and
    leaves the whole world as it was.  The reason names the first check that
    failed, in the order position, occupancy, tile class, cost, roster: an
    operator whose deploy cost exceeds the current cost gets the reason of
    insufficient cost when the tile itself accepts it. *)
Theorem C5_failed_deploy_changes_nothing
    (m : GameMap.t) (oid : nat) (o : Operator.t) (p : Position.t)
    (d : Direction) :
  GameMap.operators m !! oid = Some o ->
  let fail msg := Some (OperationResult.failure_result msg, m) in
  (forall r m',
      GameMap.deploy_operator m oid p d = Some (r, m') ->
      OperationResult.success r = false ->
      m' = m /\ exists msg, OperationResult.reason r = Some msg)
  /\ (GameMap.is_valid_position m p = false ->
      GameMap.deploy_operator m oid p d
      = fail (OperationResult.InvalidPosition (Position.row p) (Position.col p)))
  /\ (forall k tile,
        GameMap.get_tile_at m p = Some (Some (k, tile)) ->
        (Tile.deployed_operator tile <> None ->
         GameMap.deploy_operator m oid p d
         = fail (OperationResult.TileOccupied (Position.row p) (Position.col p)))
        /\ (Tile.deployed_operator tile = None ->
            GameMap._check_operator_tile_compatibility o tile = false ->
            GameMap.deploy_operator m oid p d
            = fail (OperationResult.TypeMismatch
                      (GameEntity.name (Operator.base o))
                      (Operator.position o) (Tile.buildable_type tile)))
        /\ (Tile.deployed_operator tile = None ->
            GameMap._check_operator_tile_compatibility o tile = true ->
            (Operator.deploy_cost o <= GameMap.current_cost m)%Q ->
            Level.character_limit (GameMap.level m)
              <= Z.of_nat (length (GameMap.deployed_operators m)) ->
            GameMap.deploy_operator m oid p d
            = fail (OperationResult.CharacterLimit
                      (Level.character_limit (GameMap.level m)))))
  /\ (GameMap.can_deploy_at m p oid = Some true ->
      (GameMap.current_cost m < Operator.deploy_cost o)%Q ->
      GameMap.deploy_operator m oid p d
      = fail (OperationResult.InsufficientCost (Operator.deploy_cost o)
                (GameMap.current_cost m))
      /\ OperationResult.text
           (OperationResult.InsufficientCost (Operator.deploy_cost o)
              (GameMap.current_cost m)) = "费用不足"%string).
Proof.
  intros Ho fail. subst fail. repeat split.
  - eapply deploy_failure_inv; eauto.
  - eapply deploy_failure_inv; eauto.
  - intros Hv. unfold GameMap.deploy_operator. rewrite Ho. simpl.
    rewrite Hv. reflexivity.
  - intros Hocc. unfold GameMap.deploy_operator. rewrite Ho. simpl.
    rewrite (get_tile_valid _ _ _ _ H). simpl. rewrite H. simpl.
    rewrite bool_decide_eq_true_2 by exact Hocc. reflexivity.
  - intros Hnone Hc. unfold GameMap.deploy_operator. rewrite Ho. simpl.
    rewrite (get_tile_valid _ _ _ _ H). simpl. rewrite H. simpl.
    rewrite Hnone. simpl. rewrite Hc. reflexivity.
  - intros Hnone Hc Hcost Hlim.
    unfold GameMap.deploy_operator. rewrite Ho. simpl.
    rewrite (get_tile_valid _ _ _ _ H). simpl. rewrite H. simpl.
    rewrite Hnone. simpl. rewrite Hc. simpl.
    apply ltb_false_iff in Hcost. rewrite Hcost.
    apply Z.leb_le in Hlim. rewrite Hlim. reflexivity.
  - unfold GameMap.can_deploy_at in H. rewrite Ho in H. simpl in H.
    destruct (GameMap.get_tile_at m p) as [[[k tile]|]|] eqn:Ht;
      simpl in H; try discriminate.
    injection H as Hc.
    assert (Hnone : Tile.deployed_operator tile = None).
    { unfold Tile.can_deploy_operator in Hc.
      destruct (Tile.deployed_operator tile); [discriminate|reflexivity]. }
    unfold GameMap.deploy_operator. rewrite Ho. simpl.
    rewrite (get_tile_valid _ _ _ _ Ht). simpl. rewrite Ht. simpl.
    rewrite Hnone. simpl.
    rewrite (compat_can_deploy _ _ Hnone), Hc. simpl.
    apply ltb_true_iff in H0. rewrite H0. reflexivity.
Qed.

Lemma contains_app_self (x : nat) (l : list nat) :
  Py.contains x (l ++ [x]) = true.
Proof.
  unfold Py.contains. rewrite existsb_app. simpl.
  rewrite Nat.eqb_refl. apply orb_true_iff. right. reflexivity.
Qed.

Lemma remove_app_self (x : nat) (l : list nat) :
  Py.contains x l = false -> Py.remove x (l ++ [x]) = Some l.
Proof.
  unfold Py.contains. induction l as [|y l IH]; simpl; intros H.
  - rewrite Nat.eqb_refl. reflexivity.
  - apply orb_false_iff in H as [Hxy H]. rewrite Hxy.
    rewrite (IH H). reflexivity.
Qed.

Lemma get_tile_lookup (m : GameMap.t) (p : Position.t) (k : Z) (tile : Tile.t) :
  GameMap.get_tile_at m p = Some (Some (k, tile)) ->
  GameMap.tiles m !! k = Some tile.
Proof.
  unfold GameMap.get_tile_at. intros H. inv_step H; try discriminate H.
  destruct (GameMap.tiles m !! z) eqn:Hz; [|discriminate H].
  injection H as [= <- <-]. exact Hz.
Qed.

(** [get_tile_at] after the tile it found was overwritten. *)
Lemma get_tile_at_insert (m m1 : GameMap.t) (p : Position.t) (k : Z)
    (tile tile' : Tile.t) :
  GameMap.get_tile_at m p = Some (Some (k, tile)) ->
  GameMap.level m1 = GameMap.level m ->
  GameMap.tiles m1 = <[k := tile']> (GameMap.tiles m) ->
  GameMap.get_tile_at m1 p = Some (Some (k, tile')).
Proof.
  intros H Hl Ht.
  assert (Hv : GameMap.is_valid_position m1 p = GameMap.is_valid_position m p).
  { unfold GameMap.is_valid_position, GameMap.rows, GameMap.cols.
    rewrite Hl. reflexivity. }
  assert (Hr : GameMap.rows m1 = GameMap.rows m).
  { unfold GameMap.rows. rewrite Hl. reflexivity. }
  unfold GameMap.get_tile_at in *. rewrite Hv, Hr, Hl, Ht.
  inv_step H; try discriminate H. simpl.
  destruct (GameMap.tiles m !! z) eqn:Hz; [|discriminate H].
  injection H as [= <- <-]. rewrite E1. simpl. rewrite lookup_insert_eq. reflexivity.
Qed.

(** C6 (as the code has it). When [deploy_operator] succeeds for an operator
    that is not already in the deployed roster, an immediately following
    [retreat_operator] returns true and puts the roster and the tiles back
    exactly as they were before the deploy, while the current cost stays
    debited by the operator's deploy cost. *)
Theorem C6_deploy_then_retreat_restores
    (m m1 : GameMap.t) (oid : nat) (p : Position.t) (d : Direction)
    (r : OperationResult.t) :
  Py.contains oid (GameMap.deployed_operators m) = false ->
  GameMap.deploy_operator m oid p d = Some (r, m1) ->
  OperationResult.success r = true ->
  exists o m2,
    GameMap.operators m !! oid = Some o
    /\ GameMap.retreat_operator m1 oid = Some (true, m2)
    /\ GameMap.deployed_operators m2 = GameMap.deployed_operators m
    /\ GameMap.tiles m2 = GameMap.tiles m
    /\ GameMap.current_cost m2
       = (GameMap.current_cost m - Operator.deploy_cost o)%Q.
Proof.
  intros Hnew Hd Hs.
  destruct (deploy_success_inv _ _ _ _ _ _ Hd Hs)
    as (o & k & tile & Ho & Ht & Hnone & _ & _ & _ & _ & ->).
  exists o. eexists. split; [exact Ho|].
  unfold GameMap.retreat_operator. simpl.
  rewrite contains_app_self. simpl.
  rewrite lookup_insert_eq. simpl. unfold GameMap.free_tile. simpl.
  erewrite (get_tile_at_insert m _ p k tile); [|exact Ht|reflexivity|reflexivity].
  simpl. unfold GameMap.remove_operator. simpl.
  rewrite lookup_insert_eq. simpl.
  rewrite (remove_app_self _ _ Hnew). simpl.
  rewrite lookup_insert_eq. simpl.
  split; [reflexivity|]. simpl. split; [reflexivity|]. split; [|reflexivity].
  rewrite insert_insert_eq. apply insert_id.
  rewrite (get_tile_lookup _ _ _ _ Ht).
  destruct tile as [bt occ]. simpl in *. subst occ. reflexivity.
Qed.

(** C6, where it fails: the guard is already deployed and listed before the
    sniper; a second deploy of the guard succeeds, and the retreat that
    follows removes the guard's first entry, so the roster comes back as
    sniper, guard instead of guard, sniper. *)
Lemma C6_counterexample_already_deployed :
  GameMap.deployed_operators Scenario.both_deployed = [0%nat; 1%nat]
  /\ exists m1 m2,
       GameMap.deploy_operator Scenario.both_deployed 0%nat
         (Position.mk 0 0) RIGHT
       = Some (OperationResult.success_result, m1)
       /\ GameMap.retreat_operator m1 0%nat = Some (true, m2)
       /\ GameMap.deployed_operators m2 = [1%nat; 0%nat]
       /\ GameMap.deployed_operators m2
          <> GameMap.deployed_operators Scenario.both_deployed.
Proof.
  split; [reflexivity|].
  destruct (GameMap.deploy_operator Scenario.both_deployed 0%nat
              (Position.mk 0 0) RIGHT) as [[r m1]|] eqn:Hd;
    [|vm_compute in Hd; discriminate Hd].
  assert (Hr : r = OperationResult.success_result).
  { assert (H : option_map fst
                  (GameMap.deploy_operator Scenario.both_deployed 0%nat
                     (Position.mk 0 0) RIGHT)
                = Some OperationResult.success_result) by (vm_compute; reflexivity).
    rewrite Hd in H. simpl in H. congruence. }
  subst r.
  assert (Hm1 : GameMap.deployed_operators m1 = [0%nat; 1%nat; 0%nat]
                /\ GameMap.retreat_operator m1 0%nat
                   ≫= (fun x => Some (x.1, GameMap.deployed_operators x.2))
                   = Some (true, [1%nat; 0%nat])).
  { assert (Hm : m1 = Scenario.after_deploy Scenario.both_deployed 0%nat
                        (Position.mk 0 0)).
    { unfold Scenario.after_deploy. rewrite Hd. reflexivity. }
    rewrite Hm. split; vm_compute; reflexivity. }
  destruct Hm1 as [_ Hm1].
  destruct (GameMap.retreat_operator m1 0%nat) as [[b m2]|] eqn:Hr;
    [|discriminate Hm1].
  simpl in Hm1. injection Hm1 as -> Hroster.
  exists m1, m2. repeat split; auto.
  rewrite Hroster. discriminate.
Qed.

(** Once an operator has been deployed its [position] is no longer a
    placement class, so no MELEE-only or RANGED-only tile accepts it. *)
Lemma class_tile_rejects_after_first_deploy
    (m : GameMap.t) (oid : nat) (o : Operator.t) (p : Position.t)
    (d : Direction) (k : Z) (tile : Tile.t) :
  GameMap.operators m !! oid = Some o ->
  (forall s, Operator.position o <> PosStr s) ->
  GameMap.get_tile_at m p = Some (Some (k, tile)) ->
  Tile.deployed_operator tile = None ->
  Tile.buildable_type tile = BT_MELEE \/ Tile.buildable_type tile = BT_RANGED ->
  GameMap.deploy_operator m oid p d
  = Some (OperationResult.failure_result
            (OperationResult.TypeMismatch (GameEntity.name (Operator.base o))
               (Operator.position o) (Tile.buildable_type tile)), m).
Proof.
  intros Ho Hpos Ht Hnone Hbt.
  assert (Hc : GameMap._check_operator_tile_compatibility o tile = false).
  { unfold GameMap._check_operator_tile_compatibility, Operator.position_is.
    destruct (Operator.position o) as [|s|q] eqn:E;
      [| exfalso; apply (Hpos s); reflexivity |];
      destruct Hbt as [-> | ->]; reflexivity. }
  unfold GameMap.deploy_operator. rewrite Ho. simpl.
  rewrite (get_tile_valid _ _ _ _ Ht). simpl. rewrite Ht. simpl.
  rewrite Hnone. simpl. rewrite Hc. reflexivity.
Qed.

Lemma retreat_clears (o : Operator.t) :
  Operator.position (Operator.retreat o) = PosNone
  /\ Operator.blocked_enemies (Operator.retreat o) = []
  /\ Operator.is_deployed (Operator.retreat o) = false
  /\ Operator.skills (Operator.retreat o) = Operator.skills o.
Proof. repeat split. Qed.

(** C8, on the failing input: the guard (placement class MELEE) is deployed
    on the melee tile, retreated, and deployed again on the same tile with
    cost and roster room to spare.  The first deploy succeeds; the retreat
    returns true, clears the guard's position and blocked list and leaves its
    skills as they were; the second deploy is refused with the type-mismatch
    reason, because the placement class was overwritten by the deploy. *)
Theorem C8_redeploy_after_retreat_is_refused :
  fst <$> GameMap.deploy_operator Scenario.start 0%nat Scenario.melee_spot RIGHT
    = Some OperationResult.success_result
  /\ fst <$> GameMap.retreat_operator Scenario.guard_placed 0%nat = Some true
  /\ (Operator.position <$> GameMap.operators Scenario.guard_retreated !! 0%nat)
     = Some PosNone
  /\ (Operator.blocked_enemies
        <$> GameMap.operators Scenario.guard_retreated !! 0%nat) = Some []
  /\ (Operator.skills <$> GameMap.operators Scenario.guard_retreated !! 0%nat)
     = (Operator.skills <$> GameMap.operators Scenario.guard_placed !! 0%nat)
  /\ Qle_bool 5 (GameMap.current_cost Scenario.guard_retreated) = true
  /\ GameMap.deployed_operators Scenario.guard_retreated = []
  /\ fst <$> GameMap.deploy_operator Scenario.guard_retreated 0%nat
               Scenario.melee_spot RIGHT
     = Some (OperationResult.failure_result
               (OperationResult.TypeMismatch "guard" PosNone BT_MELEE)).
Proof. vm_compute. repeat split; reflexivity. Qed.

(** ** Loops and frames *)

(** A property kept by every iteration is kept by the loop. *)
Lemma foldM_preserve {S A} (P : S -> Prop) (body : S -> A -> option S)
    (l : list A) :
  (forall s a s', a ∈ l -> body s a = Some s' -> P s -> P s') ->
  forall s s', Py.foldM body s l = Some s' -> P s -> P s'.
Proof.
  induction l as [|a l IH]; intros Hb s s' H Hs; simpl in H.
  - injection H as <-. exact Hs.
  - destruct (body s a) as [s1|] eqn:E; simpl in H; [|discriminate].
    apply (IH (fun s a s' Ha => Hb s a s' (list_elem_of_further _ _ _ Ha))
             s1 s' H).
    apply (Hb s a s1); [left|exact E|exact Hs].
Qed.

Lemma foldM_app {S A} (body : S -> A -> option S) (l1 l2 : list A) (s : S) :
  Py.foldM body s (l1 ++ l2)
  = Py.foldM body s l1 ≫= fun s1 => Py.foldM body s1 l2.
Proof.
  revert s. induction l1 as [|a l1 IH]; intros s; simpl; [reflexivity|].
  destruct (body s a); simpl; [apply IH|reflexivity].
Qed.

Lemma remove_operator_outcome (m m' : GameMap.t) k tile :
  GameMap.remove_operator m k tile = Some m' ->
  GameMap.outcome m' = GameMap.outcome m
  /\ GameMap.enemies m' = GameMap.enemies m
  /\ GameMap.level m' = GameMap.level m
  /\ GameMap.deployed_operators m' = GameMap.deployed_operators m.
Proof.
  unfold GameMap.remove_operator. intros H.
  inv_step H; try discriminate H; injection H as <-; auto.
Qed.

Lemma free_tile_outcome (m m' : GameMap.t) o :
  GameMap.free_tile m o = Some m' ->
  GameMap.outcome m' = GameMap.outcome m
  /\ GameMap.enemies m' = GameMap.enemies m
  /\ GameMap.level m' = GameMap.level m
  /\ GameMap.deployed_operators m' = GameMap.deployed_operators m.
Proof.
  unfold GameMap.free_tile. intros H.
  inv_step H; try discriminate H.
  - apply remove_operator_outcome in H. exact H.
  - injection H as <-. auto.
  - injection H as <-. auto.
Qed.

Lemma retreat_operator_outcome (m m' : GameMap.t) oid b :
  GameMap.retreat_operator m oid = Some (b, m') ->
  GameMap.outcome m' = GameMap.outcome m
  /\ GameMap.enemies m' = GameMap.enemies m
  /\ GameMap.level m' = GameMap.level m.
Proof.
  unfold GameMap.retreat_operator. intros H.
  inv_step H; try discriminate H; injection H as <- <-; auto.
  apply free_tile_outcome in E1. destruct E1 as (Eo & Ee & El & Ed).
  unfold GameMap.outcome in *. simpl. repeat split; congruence.
Qed.

Lemma deploy_operator_outcome (m m' : GameMap.t) oid p d r :
  GameMap.deploy_operator m oid p d = Some (r, m') ->
  GameMap.outcome m' = GameMap.outcome m
  /\ GameMap.enemies m' = GameMap.enemies m
  /\ GameMap.level m' = GameMap.level m.
Proof.
  intros H. destruct (OperationResult.success r) eqn:Hs.
  - destruct (deploy_success_inv _ _ _ _ _ _ H Hs)
      as (o & k & tile & _ & _ & _ & _ & _ & _ & _ & ->). auto.
  - destruct (deploy_failure_inv _ _ _ _ _ _ H Hs) as [-> _]. auto.
Qed.

Lemma activate_skill_outcome (m m' : GameMap.t) oid i r :
  GameMap.activate_skill m oid i = Some (r, m') ->
  GameMap.outcome m' = GameMap.outcome m
  /\ GameMap.enemies m' = GameMap.enemies m
  /\ GameMap.level m' = GameMap.level m.
Proof.
  unfold GameMap.activate_skill. intros H.
  inv_step H; try discriminate H; injection H as <- <-; auto.
Qed.

Lemma operator_tick_outcome dt (m m' : GameMap.t) oid :
  GameMap.operator_tick dt m oid = Some m' ->
  GameMap.outcome m' = GameMap.outcome m
  /\ GameMap.enemies m' = GameMap.enemies m
  /\ GameMap.level m' = GameMap.level m.
Proof.
  unfold GameMap.operator_tick. intros H.
  inv_step H; try discriminate H; injection H as <-; auto.
  destruct p as [b m1]. apply retreat_operator_outcome in E2.
  simpl in *. exact E2.
Qed.

Lemma operator_attack_outcome (m m' : GameMap.t) oid :
  GameMap.operator_attack m oid = Some m' ->
  GameMap.outcome m' = GameMap.outcome m
  /\ GameMap.tiles m' = GameMap.tiles m
  /\ GameMap.deployed_operators m' = GameMap.deployed_operators m
  /\ GameMap.level m' = GameMap.level m.
Proof.
  unfold GameMap.operator_attack. intros H.
  inv_step H; try discriminate H; injection H as <-; auto.
Qed.

Lemma enemy_attack_outcome (m m' : GameMap.t) eid :
  GameMap.enemy_attack m eid = Some m' ->
  GameMap.outcome m' = GameMap.outcome m
  /\ GameMap.tiles m' = GameMap.tiles m
  /\ GameMap.deployed_operators m' = GameMap.deployed_operators m
  /\ GameMap.level m' = GameMap.level m.
Proof.
  unfold GameMap.enemy_attack. intros H.
  inv_step H; try discriminate H; injection H as <-; auto.
Qed.

Lemma block_step_outcome (m m' : GameMap.t) eid :
  GameMap.block_step m eid = Some m' ->
  GameMap.outcome m' = GameMap.outcome m
  /\ GameMap.tiles m' = GameMap.tiles m
  /\ GameMap.deployed_operators m' = GameMap.deployed_operators m
  /\ GameMap.level m' = GameMap.level m.
Proof.
  unfold GameMap.block_step. intros H.
  inv_step H; try discriminate H; injection H as <-; auto.
Qed.

Lemma purge_step_outcome (m m' : GameMap.t) oid :
  GameMap.purge_step m oid = Some m' ->
  GameMap.outcome m' = GameMap.outcome m
  /\ GameMap.tiles m' = GameMap.tiles m
  /\ GameMap.deployed_operators m' = GameMap.deployed_operators m
  /\ GameMap.level m' = GameMap.level m
  /\ GameMap.enemies m' = GameMap.enemies m.
Proof.
  unfold GameMap.purge_step. intros H.
  inv_step H; try discriminate H; injection H as <-. repeat split.
Qed.

Lemma release_step_outcome (m m' : GameMap.t) eid :
  GameMap.release_step m eid = Some m' ->
  GameMap.outcome m' = GameMap.outcome m
  /\ GameMap.tiles m' = GameMap.tiles m
  /\ GameMap.deployed_operators m' = GameMap.deployed_operators m
  /\ GameMap.level m' = GameMap.level m
  /\ GameMap.operators m' = GameMap.operators m.
Proof.
  unfold GameMap.release_step. intros H.
  inv_step H; try discriminate H; injection H as <-; repeat split.
Qed.

(** A loop whose iterations keep a projection of the world keeps it. *)
Lemma foldM_same {A B} (f : GameMap.t -> B)
    (body : GameMap.t -> A -> option GameMap.t) (l : list A) :
  (forall s a s', body s a = Some s' -> f s' = f s) ->
  forall s s', Py.foldM body s l = Some s' -> f s' = f s.
Proof.
  intros Hb s s' H.
  refine (foldM_preserve (fun x => f x = f s) body l _ s s' H eq_refl).
  intros s0 a s1 _ Hs0 Hf. rewrite (Hb _ _ _ Hs0). exact Hf.
Qed.

Lemma process_combat_outcome (m m' : GameMap.t) :
  GameMap._process_combat m = Some m' ->
  GameMap.outcome m' = GameMap.outcome m
  /\ GameMap.tiles m' = GameMap.tiles m
  /\ GameMap.deployed_operators m' = GameMap.deployed_operators m
  /\ GameMap.level m' = GameMap.level m.
Proof.
  unfold GameMap._process_combat. intros H.
  destruct (Py.foldM GameMap.operator_attack m (GameMap.deployed_operators m))
    as [m1|] eqn:E1; simpl in H; [|discriminate].
  assert (H1 : forall {B} (f : GameMap.t -> B),
             (forall s a s', GameMap.operator_attack s a = Some s' -> f s' = f s) ->
             (forall s a s', GameMap.enemy_attack s a = Some s' -> f s' = f s) ->
             f m' = f m).
  { intros B f Ha Hb.
    rewrite (foldM_same f _ _ Hb _ _ H).
    apply (foldM_same f _ _ Ha _ _ E1). }
  repeat split;
    [apply (H1 _ GameMap.outcome) | apply (H1 _ GameMap.tiles)
    | apply (H1 _ GameMap.deployed_operators) | apply (H1 _ GameMap.level)];
    intros s a s' Hs;
    first [apply operator_attack_outcome in Hs; tauto
          |apply enemy_attack_outcome in Hs; tauto].
Qed.

Lemma process_blocking_outcome (m m' : GameMap.t) :
  GameMap._process_blocking m = Some m' ->
  GameMap.outcome m' = GameMap.outcome m
  /\ GameMap.tiles m' = GameMap.tiles m
  /\ GameMap.deployed_operators m' = GameMap.deployed_operators m
  /\ GameMap.level m' = GameMap.level m.
Proof.
  unfold GameMap._process_blocking. intros H.
  destruct (Py.foldM GameMap.block_step m (GameMap.active_enemies m))
    as [m1|] eqn:E1; simpl in H; [|discriminate].
  destruct (Py.foldM GameMap.purge_step m1 (GameMap.deployed_operators m1))
    as [m2|] eqn:E2; simpl in H; [|discriminate].
  assert (H1 : forall {B} (f : GameMap.t -> B),
             (forall s a s', GameMap.block_step s a = Some s' -> f s' = f s) ->
             (forall s a s', GameMap.purge_step s a = Some s' -> f s' = f s) ->
             (forall s a s', GameMap.release_step s a = Some s' -> f s' = f s) ->
             f m' = f m).
  { intros B f Ha Hb Hc.
    rewrite (foldM_same f _ _ Hc _ _ H).
    rewrite (foldM_same f _ _ Hb _ _ E2).
    apply (foldM_same f _ _ Ha _ _ E1). }
  repeat split;
    [apply (H1 _ GameMap.outcome) | apply (H1 _ GameMap.tiles)
    | apply (H1 _ GameMap.deployed_operators) | apply (H1 _ GameMap.level)];
    intros s a s' Hs;
    first [apply block_step_outcome in Hs; tauto
          |apply purge_step_outcome in Hs; tauto
          |apply release_step_outcome in Hs; tauto].
Qed.

Lemma operator_loop_outcome dt (m m' : GameMap.t) (l : list nat) :
  Py.foldM (GameMap.operator_tick dt) m l = Some m' ->
  GameMap.outcome m' = GameMap.outcome m
  /\ GameMap.enemies m' = GameMap.enemies m
  /\ GameMap.level m' = GameMap.level m.
Proof.
  intros H. repeat split.
  - apply (foldM_same GameMap.outcome _ _
             (fun s a s' Hs => proj1 (operator_tick_outcome dt s s' a Hs)) _ _ H).
  - apply (foldM_same GameMap.enemies _ _
             (fun s a s' Hs =>
                proj1 (proj2 (operator_tick_outcome dt s s' a Hs))) _ _ H).
  - apply (foldM_same GameMap.level _ _
             (fun s a s' Hs =>
                proj2 (proj2 (operator_tick_outcome dt s s' a Hs))) _ _ H).
Qed.

(** ** The wave scheduler only adds enemies *)

Lemma spawned_refl (m : GameMap.t) : GameMap.spawned m m.
Proof.
  unfold GameMap.spawned. repeat (split; [reflexivity|]).
  split; [auto|].
  exists []. rewrite app_nil_r. split; [reflexivity|].
  split; [constructor|]. intros n Hn. inversion Hn.
Qed.

Lemma spawned_trans (m1 m2 m3 : GameMap.t) :
  GameMap.spawned m1 m2 -> GameMap.spawned m2 m3 -> GameMap.spawned m1 m3.
Proof.
  intros (Hl & Hr & Ht & Ho & Hd & Hc & Hp & Hf & Hv & He & new1 & Ha & Hn & Hnew)
         (Hl' & Hr' & Ht' & Ho' & Hd' & Hc' & Hp' & Hf' & Hv' & He' & new2 & Ha'
          & Hn' & Hnew').
  unfold GameMap.spawned.
  repeat (split; [congruence|]).
  split; [intros eid e H; apply He', He, H|].
  exists (new1 ++ new2). split; [rewrite Ha', Ha, app_assoc; reflexivity|].
  split.
  - apply NoDup_app. split; [exact Hn|]. split; [|exact Hn'].
    intros x Hx1 Hx2.
    destruct (Hnew x Hx1) as (_ & e & Hx & _).
    destruct (Hnew' x Hx2) as (Hnone & _). congruence.
  - intros n Hin. apply elem_of_app in Hin as [Hin|Hin].
    + destruct (Hnew n Hin) as (Hnone & e & Hx & Hb & Hg).
      split; [exact Hnone|]. exists e. split; [apply He', Hx|auto].
    + destruct (Hnew' n Hin) as (Hnone & e & Hx & Hb & Hg).
      split; [|exists e; auto].
      destruct (GameMap.enemies m1 !! n) as [e1|] eqn:E; [|reflexivity].
      apply He in E. congruence.
Qed.

Lemma spawn_enemy_spawned (m m' : GameMap.t) key ri :
  GameMap.spawn_enemy m key ri = Some m' -> GameMap.spawned m m'.
Proof.
  unfold GameMap.spawn_enemy. intros H.
  destruct (Level.get_enemy_by_id (GameMap.level m) key) as [d|];
    [|injection H as <-; apply spawned_refl].
  simpl in H.
  set (ref := fresh (dom (GameMap.enemies m))) in *.
  assert (Hfresh : GameMap.enemies m !! ref = None).
  { apply not_elem_of_dom. apply is_fresh. }
  assert (Hgen : forall e1,
             Enemy.is_blocked e1 = false -> Enemy.has_reached_goal e1 = false ->
             GameMap.spawned m
               (GameMap.set_active
                  (GameMap.set_enemies (GameMap.set_next_id m (GameMap.next_id m + 1))
                     (<[ref := e1]> (GameMap.enemies m)))
                  (GameMap.active_enemies m ++ [ref]))).
  { intros e1 Hb Hg. unfold GameMap.spawned. simpl.
    repeat (split; [reflexivity|]).
    split.
    - intros eid e He. rewrite lookup_insert_ne; [exact He|].
      intros ->. congruence.
    - exists [ref]. split; [reflexivity|]. split; [apply NoDup_singleton|].
      intros n Hn. apply list_elem_of_singleton in Hn as ->.
      split; [exact Hfresh|]. exists e1. rewrite lookup_insert_eq. auto. }
  destruct (ri <? Z.of_nat (length (GameMap.routes m))); simpl in H.
  - destruct (Py.index (GameMap.routes m) ri) as [r|]; simpl in H;
      [|discriminate].
    injection H as <-. apply Hgen; reflexivity.
  - injection H as <-. apply Hgen; reflexivity.
Qed.

Lemma action_tick_spawned dt (m m' : GameMap.t) a a' :
  GameMap.action_tick dt m a = Some (m', a') -> GameMap.spawned m m'.
Proof.
  unfold GameMap.action_tick. intros H.
  inv_step H; try discriminate H; injection H as <- <-;
    try apply spawned_refl.
  eapply spawn_enemy_spawned; eauto.
Qed.

Lemma actions_tick_spawned dt (l : list WaveAction.t) :
  forall (m m' : GameMap.t) l',
    GameMap.actions_tick dt m l = Some (m', l') -> GameMap.spawned m m'.
Proof.
  induction l as [|a l IH]; intros m m' l' H; simpl in H.
  - injection H as <- <-. apply spawned_refl.
  - destruct (GameMap.action_tick dt m a) as [[m1 a1]|] eqn:E1; simpl in H;
      [|discriminate].
    destruct (GameMap.actions_tick dt m1 l) as [[m2 l2]|] eqn:E2; simpl in H;
      [|discriminate].
    injection H as <- <-.
    eapply spawned_trans; [eapply action_tick_spawned; eauto|eapply IH; eauto].
Qed.

Lemma fragment_tick_spawned dt wt (m m' : GameMap.t) f f' :
  GameMap.fragment_tick dt wt m f = Some (m', f') -> GameMap.spawned m m'.
Proof.
  unfold GameMap.fragment_tick. intros H.
  inv_step H; try discriminate H; injection H as <- <-;
    try apply spawned_refl.
  all: destruct p as [m1 l1]; eapply actions_tick_spawned; eauto.
Qed.

Lemma fragments_tick_spawned dt wt (l : list WaveFragment.t) :
  forall (m m' : GameMap.t) l',
    GameMap.fragments_tick dt wt m l = Some (m', l') -> GameMap.spawned m m'.
Proof.
  induction l as [|a l IH]; intros m m' l' H; simpl in H.
  - injection H as <- <-. apply spawned_refl.
  - destruct (GameMap.fragment_tick dt wt m a) as [[m1 a1]|] eqn:E1;
      simpl in H; [|discriminate].
    destruct (GameMap.fragments_tick dt wt m1 l) as [[m2 l2]|] eqn:E2;
      simpl in H; [|discriminate].
    injection H as <- <-.
    eapply spawned_trans; [eapply fragment_tick_spawned; eauto|eapply IH; eauto].
Qed.

Lemma update_waves_spawned (m m' : GameMap.t) dt :
  GameMap._update_waves m dt = Some m' -> GameMap.spawned m m'.
Proof.
  unfold GameMap._update_waves. intros H.
  destruct (length (GameMap.waves m) <=? GameMap.current_wave_index m)%nat;
    [injection H as <-; apply spawned_refl|].
  destruct (GameMap.waves m !! GameMap.current_wave_index m) as [w|];
    simpl in H; [|discriminate].
  destruct (GameMap.fragments_tick dt (Wave.current_time w + dt)%Q m
              (Wave.fragments w)) as [[m1 l1]|] eqn:E; simpl in H;
    [|discriminate].
  injection H as <-.
  apply fragments_tick_spawned in E.
  destruct E as (Hl & Hr & Ht & Ho & Hd & Hc & Hp & Hf & Hv & He & Hnew).
  unfold GameMap.spawned. simpl. repeat (split; [assumption|]). exact Hnew.
Qed.

(** With every wave completed the scheduler does nothing. *)
Lemma update_waves_done (m : GameMap.t) dt :
  (length (GameMap.waves m) <= GameMap.current_wave_index m)%nat ->
  GameMap._update_waves m dt = Some m.
Proof.
  intros H. unfold GameMap._update_waves.
  apply Nat.leb_le in H. rewrite H. reflexivity.
Qed.

(** *** The enemy loop *)

Lemma enemy_tick_frame dt (m m' : GameMap.t) eid :
  GameMap.enemy_tick dt m eid = Some m' ->
  GameMap.level m' = GameMap.level m
  /\ GameMap.waves m' = GameMap.waves m
  /\ GameMap.current_wave_index m' = GameMap.current_wave_index m
  /\ GameMap.is_victory m' = GameMap.is_victory m
  /\ GameMap.operators m' = GameMap.operators m
  /\ GameMap.tiles m' = GameMap.tiles m
  /\ GameMap.deployed_operators m' = GameMap.deployed_operators m
  /\ (GameMap.is_defeat m = true -> GameMap.is_defeat m' = true).
Proof.
  unfold GameMap.enemy_tick. intros H.
  inv_step H; try discriminate H; injection H as <-;
    repeat case_match; simpl; repeat split; auto.
Qed.

(** ** One tick, pass by pass *)

Lemma update_inv (m m' : GameMap.t) dt :
  GameMap.update m dt = Some m' ->
  exists inc m2 m3 m4 m5 m6,
    let m1 := GameMap.set_cost
                (GameMap.set_time m (GameMap.game_time m + dt)%Q)
                (Qmin (Level.max_cost (GameMap.level m))
                   (GameMap.current_cost m + inc)) in
    Py.div dt (Level.cost_increase_time (GameMap.level m)) = Some inc
    /\ Py.foldM (GameMap.operator_tick dt) m1 (GameMap.deployed_operators m)
       = Some m2
    /\ Py.foldM (GameMap.enemy_tick dt) m2 (GameMap.active_enemies m2)
       = Some m3
    /\ GameMap._process_combat m3 = Some m4
    /\ GameMap._process_blocking m4 = Some m5
    /\ GameMap._update_waves m5 dt = Some m6
    /\ m' = (if GameMap.victory_condition m6
             then GameMap.set_victory m6 true else m6).
Proof.
  unfold GameMap.update. intros H. simpl in H.
  destruct (Py.div dt (Level.cost_increase_time (GameMap.level m)))
    as [inc|] eqn:E0; simpl in H; [|discriminate].
  match type of H with
  | (?x ≫= _) = _ => destruct x as [m2|] eqn:E2; simpl in H; [|discriminate]
  end.
  match type of H with
  | (?x ≫= _) = _ => destruct x as [m3|] eqn:E3; simpl in H; [|discriminate]
  end.
  match type of H with
  | (?x ≫= _) = _ => destruct x as [m4|] eqn:E4; simpl in H; [|discriminate]
  end.
  match type of H with
  | (?x ≫= _) = _ => destruct x as [m5|] eqn:E5; simpl in H; [|discriminate]
  end.
  match type of H with
  | (?x ≫= _) = _ => destruct x as [m6|] eqn:E6; simpl in H; [|discriminate]
  end.
  injection H as <-.
  exists inc, m2, m3, m4, m5, m6. simpl. repeat split; assumption.
Qed.

Lemma victory_condition_outcome (a b : GameMap.t) :
  GameMap.outcome a = GameMap.outcome b ->
  GameMap.victory_condition a = GameMap.victory_condition b.
Proof.
  unfold GameMap.outcome, GameMap.victory_condition. intros [= -> -> -> -> -> _].
  reflexivity.
Qed.

Lemma victory_condition_spec (m : GameMap.t) :
  GameMap.victory_condition m = true
  <-> (length (GameMap.waves m) <= GameMap.current_wave_index m)%nat
      /\ GameMap.active_enemies m = []
      /\ 0 < GameMap.current_life_points m
      /\ GameMap.is_defeat m = false.
Proof.
  unfold GameMap.victory_condition.
  rewrite !andb_true_iff, Nat.leb_le, Z.ltb_lt, negb_true_iff.
  destruct (GameMap.active_enemies m); split.
  - tauto.
  - tauto.
  - intros [[[_ H] _] _]. discriminate.
  - intros (_ & H & _). discriminate.
Qed.

Lemma enemy_loop_frame dt (l : list nat) (m m' : GameMap.t) :
  Py.foldM (GameMap.enemy_tick dt) m l = Some m' ->
  GameMap.level m' = GameMap.level m
  /\ GameMap.waves m' = GameMap.waves m
  /\ GameMap.current_wave_index m' = GameMap.current_wave_index m
  /\ GameMap.is_victory m' = GameMap.is_victory m
  /\ GameMap.operators m' = GameMap.operators m
  /\ GameMap.tiles m' = GameMap.tiles m
  /\ GameMap.deployed_operators m' = GameMap.deployed_operators m
  /\ (GameMap.is_defeat m = true -> GameMap.is_defeat m' = true).
Proof.
  intros H.
  refine (foldM_preserve
            (fun x => GameMap.level x = GameMap.level m
                      /\ GameMap.waves x = GameMap.waves m
                      /\ GameMap.current_wave_index x = GameMap.current_wave_index m
                      /\ GameMap.is_victory x = GameMap.is_victory m
                      /\ GameMap.operators x = GameMap.operators m
                      /\ GameMap.tiles x = GameMap.tiles m
                      /\ GameMap.deployed_operators x = GameMap.deployed_operators m
                      /\ (GameMap.is_defeat m = true -> GameMap.is_defeat x = true))
            _ l _ m m' H _); [|repeat split; auto].
  intros s a s' _ Hs (H1 & H2 & H3 & H4 & H5 & H6 & H7 & H8).
  apply enemy_tick_frame in Hs.
  destruct Hs as (G1 & G2 & G3 & G4 & G5 & G6 & G7 & G8).
  repeat split; try congruence. auto.
Qed.

(** The victory flag after a tick, in terms of the flag before it. *)
Lemma update_victory (m m' : GameMap.t) dt :
  GameMap.update m dt = Some m' ->
  GameMap.victory_ok m ->
  (GameMap.is_victory m' = true <-> GameMap.victory_condition m' = true)
  /\ (GameMap.is_victory m = true -> GameMap.is_victory m' = true).
Proof.
  intros H Hok.
  destruct (update_inv _ _ _ H)
    as (inc & m2 & m3 & m4 & m5 & m6 & _ & E2 & E3 & E4 & E5 & E6 & ->).
  apply operator_loop_outcome in E2. destruct E2 as (O2 & N2 & _).
  pose proof (enemy_loop_frame _ _ _ _ E3) as (_ & _ & _ & V3 & _).
  apply process_combat_outcome in E4. destruct E4 as (O4 & _).
  apply process_blocking_outcome in E5. destruct E5 as (O5 & _).
  pose proof (update_waves_spawned _ _ _ E6)
    as (_ & _ & _ & _ & _ & _ & _ & _ & V6 & _).
  assert (Hv : GameMap.is_victory m6 = GameMap.is_victory m).
  { rewrite V6.
    assert (GameMap.is_victory m5 = GameMap.is_victory m3)
      by (unfold GameMap.outcome in *; congruence).
    assert (GameMap.is_victory m2 = GameMap.is_victory m)
      by (unfold GameMap.outcome in *; simpl in *; congruence).
    congruence. }
  assert (Hkeep : GameMap.is_victory m = true ->
                  GameMap.victory_condition m6 = true).
  { intros Hm. pose proof (Hok Hm) as Hc.
    apply victory_condition_spec in Hc as (Hw & Ha & Hl & Hd).
    assert (Ha2 : GameMap.active_enemies m2 = [])
      by (unfold GameMap.outcome in *; simpl in *; congruence).
    rewrite Ha2 in E3. simpl in E3. injection E3 as <-.
    assert (O : GameMap.outcome m5 = GameMap.outcome m)
      by (unfold GameMap.outcome in *; simpl in *; congruence).
    rewrite update_waves_done in E6
      by (unfold GameMap.outcome in *; simpl in *;
          injection O as -> -> _; exact Hw).
    injection E6 as <-.
    rewrite (victory_condition_outcome _ _ O).
    apply victory_condition_spec; auto. }
  destruct (GameMap.victory_condition m6) eqn:Hvc.
  - split; [|reflexivity]. simpl.
    unfold GameMap.victory_condition in *. simpl. rewrite Hvc. tauto.
  - rewrite Hvc, Hv. split.
    + split; [|discriminate]. intros Hm. auto.
    + intros Hm. symmetry. auto.
Qed.

(** *** The victory flag along a run *)

Lemma step_victory_ok (m m' : GameMap.t) :
  GameMap.step m m' -> GameMap.victory_ok m -> GameMap.victory_ok m'.
Proof.
  intros Hs Hok. destruct Hs as [oid p d r H|oid b H|oid i r H|dt H].
  - apply deploy_operator_outcome in H as (O & _).
    unfold GameMap.victory_ok in *.
    rewrite (victory_condition_outcome _ _ O).
    unfold GameMap.outcome in O. injection O as _ _ _ _ _ ->. exact Hok.
  - apply retreat_operator_outcome in H as (O & _).
    unfold GameMap.victory_ok in *.
    rewrite (victory_condition_outcome _ _ O).
    unfold GameMap.outcome in O. injection O as _ _ _ _ _ ->. exact Hok.
  - apply activate_skill_outcome in H as (O & _).
    unfold GameMap.victory_ok in *.
    rewrite (victory_condition_outcome _ _ O).
    unfold GameMap.outcome in O. injection O as _ _ _ _ _ ->. exact Hok.
  - destruct (update_victory _ _ _ H Hok) as [Hiff _].
    unfold GameMap.victory_ok. apply Hiff.
Qed.

Lemma reachable_victory_ok (m : GameMap.t) :
  GameMap.reachable m -> GameMap.victory_ok m.
Proof.
  induction 1 as [lv ds Hds|m m' _ IH Hs].
  - unfold GameMap.victory_ok. simpl. discriminate.
  - eapply step_victory_ok; eauto.
Qed.

(** C1. After [update] returns, in every world a run can reach, the victory
    flag is set if and only if, on the state the tick ends in, the wave
    index has reached the number of waves, no enemy is active, the life
    points are above 0 and the defeat flag is not set. *)
Theorem C1_victory_iff_condition (m m' : GameMap.t) (delta_time : Q) :
  GameMap.reachable m ->
  GameMap.update m delta_time = Some m' ->
  (GameMap.is_victory m' = true
   <-> (length (GameMap.waves m') <= GameMap.current_wave_index m')%nat
       /\ GameMap.active_enemies m' = []
       /\ 0 < GameMap.current_life_points m'
       /\ GameMap.is_defeat m' = false).
Proof.
  intros Hr Hu. rewrite <- victory_condition_spec.
  apply (update_victory m m' delta_time Hu).
  apply reachable_victory_ok. exact Hr.
Qed.

(** ** The enemy store across the passes *)

(** Overwriting an enemy with one that agrees on [f] keeps [f] everywhere. *)
Lemma insert_eproj {B} (f : Enemy.t -> B) (es : gmap nat Enemy.t)
    (eid : nat) (e e' : Enemy.t) :
  es !! eid = Some e -> f e' = f e ->
  forall x, f <$> (<[eid := e']> es) !! x = f <$> es !! x.
Proof.
  intros He Hf x. destruct (decide (eid = x)) as [->|Hne].
  - rewrite lookup_insert_eq, He. simpl. congruence.
  - rewrite lookup_insert_ne by exact Hne. reflexivity.
Qed.

Lemma operator_attack_eproj {B} (f : Enemy.t -> B) (m m' : GameMap.t) oid :
  (forall e b, f (Enemy.set_base e b) = f e) ->
  GameMap.operator_attack m oid = Some m' ->
  forall x, f <$> GameMap.enemies m' !! x = f <$> GameMap.enemies m !! x.
Proof.
  intros Hf. unfold GameMap.operator_attack. intros H.
  inv_step H; try discriminate H; injection H as <-; simpl; auto.
  intros x. eapply insert_eproj; eauto.
Qed.

Lemma enemy_attack_eproj {B} (f : Enemy.t -> B) (m m' : GameMap.t) eid :
  (forall e c, f (Enemy.set_cooldown e c) = f e) ->
  GameMap.enemy_attack m eid = Some m' ->
  forall x, f <$> GameMap.enemies m' !! x = f <$> GameMap.enemies m !! x.
Proof.
  intros Hf. unfold GameMap.enemy_attack. intros H.
  inv_step H; try discriminate H; injection H as <-; simpl; auto.
  intros x. eapply insert_eproj; eauto.
Qed.

Lemma block_step_eproj {B} (f : Enemy.t -> B) (m m' : GameMap.t) eid :
  (forall e b o, f (Enemy.set_block e b o) = f e) ->
  GameMap.block_step m eid = Some m' ->
  forall x, f <$> GameMap.enemies m' !! x = f <$> GameMap.enemies m !! x.
Proof.
  intros Hf. unfold GameMap.block_step. intros H.
  inv_step H; try discriminate H; injection H as <-; simpl; auto.
  intros x. eapply insert_eproj; eauto.
Qed.

Lemma release_step_eproj {B} (f : Enemy.t -> B) (m m' : GameMap.t) eid :
  (forall e b o, f (Enemy.set_block e b o) = f e) ->
  GameMap.release_step m eid = Some m' ->
  forall x, f <$> GameMap.enemies m' !! x = f <$> GameMap.enemies m !! x.
Proof.
  intros Hf. unfold GameMap.release_step. intros H.
  inv_step H; try discriminate H; injection H as <-; simpl; auto.
  intros x. eapply insert_eproj; eauto.
Qed.

Lemma foldM_eproj {A B} (f : Enemy.t -> B)
    (body : GameMap.t -> A -> option GameMap.t) (l : list A) :
  (forall s a s', body s a = Some s' ->
     forall x, f <$> GameMap.enemies s' !! x = f <$> GameMap.enemies s !! x) ->
  forall s s', Py.foldM body s l = Some s' ->
    forall x, f <$> GameMap.enemies s' !! x = f <$> GameMap.enemies s !! x.
Proof.
  intros Hb s s' H x.
  refine (foldM_same (fun m => f <$> GameMap.enemies m !! x) body l _ s s' H).
  intros s0 a s1 Hs. apply (Hb _ _ _ Hs).
Qed.

(** Combat and blocking keep what they do not write: any enemy field
    other than the health, the cooldown and the blocking link. *)
Lemma combat_blocking_eproj {B} (f : Enemy.t -> B) (m m1 m2 : GameMap.t) :
  (forall e b, f (Enemy.set_base e b) = f e) ->
  (forall e c, f (Enemy.set_cooldown e c) = f e) ->
  (forall e b o, f (Enemy.set_block e b o) = f e) ->
  GameMap._process_combat m = Some m1 ->
  GameMap._process_blocking m1 = Some m2 ->
  forall x, f <$> GameMap.enemies m2 !! x = f <$> GameMap.enemies m !! x.
Proof.
  intros Hb Hc Hk H1 H2 x.
  unfold GameMap._process_combat in H1.
  destruct (Py.foldM GameMap.operator_attack m (GameMap.deployed_operators m))
    as [a|] eqn:Ea; simpl in H1; [|discriminate].
  unfold GameMap._process_blocking in H2.
  destruct (Py.foldM GameMap.block_step m1 (GameMap.active_enemies m1))
    as [b|] eqn:Eb; simpl in H2; [|discriminate].
  destruct (Py.foldM GameMap.purge_step b (GameMap.deployed_operators b))
    as [c|] eqn:Ec; simpl in H2; [|discriminate].
  rewrite (foldM_eproj f _ _
             (fun s a s' Hs => release_step_eproj f s s' a Hk Hs) _ _ H2).
  rewrite (foldM_same GameMap.enemies _ _
             (fun s a s' Hs =>
                proj2 (proj2 (proj2 (proj2 (purge_step_outcome s s' a Hs)))))
             _ _ Ec).
  rewrite (foldM_eproj f _ _
             (fun s a s' Hs => block_step_eproj f s s' a Hk Hs) _ _ Eb).
  rewrite (foldM_eproj f _ _
             (fun s a s' Hs => enemy_attack_eproj f s s' a Hc Hs) _ _ H1).
  apply (foldM_eproj f _ _
           (fun s a s' Hs => operator_attack_eproj f s s' a Hb Hs) _ _ Ea).
Qed.

(** *** [list.remove] *)

Lemma remove_spec (x : nat) (l l' : list nat) :
  Py.remove x l = Some l' ->
  (forall y, y ∈ l' -> y ∈ l)
  /\ (NoDup l -> NoDup l' /\ x ∉ l').
Proof.
  revert l'. induction l as [|y l IH]; intros l' H; simpl in H;
    [discriminate|].
  destruct (Nat.eqb_spec x y) as [->|Hne].
  - injection H as <-. split.
    + intros z Hz. right. exact Hz.
    + intros Hn. apply NoDup_cons in Hn. tauto.
  - destruct (Py.remove x l) as [l1|] eqn:E; simpl in H; [|discriminate].
    injection H as <-. destruct (IH l1 eq_refl) as [Hs Hn]. split.
    + intros z Hz. apply elem_of_cons in Hz as [->|Hz]; [left|right; auto].
    + intros Hd. apply NoDup_cons in Hd as [Hy Hd].
      destruct (Hn Hd) as [Hn1 Hx]. split.
      * apply NoDup_cons. split; [|exact Hn1]. intros Hc. apply Hy, Hs, Hc.
      * intros Hc. apply elem_of_cons in Hc as [->|Hc]; [apply Hne|apply Hx];
          auto.
Qed.

(** *** One iteration of the enemy loop *)

Lemma enemy_tick_spec dt (m m' : GameMap.t) (eid : nat) :
  GameMap.enemy_tick dt m eid = Some m' ->
  (forall x, x <> eid -> GameMap.enemies m' !! x = GameMap.enemies m !! x)
  /\ (forall x, is_Some (GameMap.enemies m !! x) ->
                is_Some (GameMap.enemies m' !! x))
  /\ exists e',
       GameMap.enemies m' !! eid = Some e'
       /\ if Enemy.has_reached_goal e' then
            GameMap.current_life_points m' = GameMap.current_life_points m - 1
            /\ Py.remove eid (GameMap.active_enemies m)
               = Some (GameMap.active_enemies m')
            /\ GameMap.is_defeat m'
               = (if GameMap.current_life_points m' <=? 0 then true
                  else GameMap.is_defeat m)
          else
            GameMap.current_life_points m' = GameMap.current_life_points m
            /\ GameMap.is_defeat m' = GameMap.is_defeat m
            /\ (GameMap.active_enemies m' = GameMap.active_enemies m
                \/ Py.remove eid (GameMap.active_enemies m)
                   = Some (GameMap.active_enemies m')).
Proof.
  unfold GameMap.enemy_tick. intros H.
  inv_step H; try discriminate H; injection H as <-.
  all: split; [intros x Hx; repeat case_match; simpl;
               rewrite lookup_insert_ne by auto; reflexivity|].
  all: split; [intros x Hx; repeat case_match; simpl;
               (destruct (decide (eid = x)) as [->|Hne];
                [rewrite lookup_insert_eq; eauto
                |rewrite lookup_insert_ne by auto; exact Hx])|].
  all: eexists; split;
    [repeat case_match; simpl; apply lookup_insert_eq|].
  all: rewrite ?E1; simpl.
  - destruct (GameMap.current_life_points m - 1 <=? 0) eqn:El; simpl;
      rewrite ?El; auto.
  - auto.
  - auto.
Qed.

(** *** The whole enemy loop *)

Lemma arrived_cons (m : GameMap.t) (eid : nat) (l : list nat) :
  GameMap.arrived m (eid :: l)
  = if GameMap.reached_goal m eid then eid :: GameMap.arrived m l
    else GameMap.arrived m l.
Proof. reflexivity. Qed.

Lemma arrived_elem (m : GameMap.t) (l : list nat) (x : nat) :
  x ∈ GameMap.arrived m l <-> x ∈ l /\ GameMap.reached_goal m x = true.
Proof.
  unfold GameMap.arrived. rewrite !list_elem_of_In, filter_In. tauto.
Qed.

Lemma enemy_loop_spec dt (l : list nat) :
  forall m m',
    NoDup l -> NoDup (GameMap.active_enemies m) ->
    Py.foldM (GameMap.enemy_tick dt) m l = Some m' ->
    (forall x, x ∉ l -> GameMap.enemies m' !! x = GameMap.enemies m !! x)
    /\ (forall x, is_Some (GameMap.enemies m !! x) ->
                  is_Some (GameMap.enemies m' !! x))
    /\ NoDup (GameMap.active_enemies m')
    /\ (forall x, x ∈ GameMap.active_enemies m' ->
                  x ∈ GameMap.active_enemies m)
    /\ GameMap.current_life_points m'
       = GameMap.current_life_points m
         - Z.of_nat (length (GameMap.arrived m' l))
    /\ (forall x, x ∈ GameMap.arrived m' l -> x ∉ GameMap.active_enemies m')
    /\ GameMap.is_defeat m'
       = GameMap.is_defeat m
         || (negb (Nat.eqb (length (GameMap.arrived m' l)) 0)
             && (GameMap.current_life_points m' <=? 0)).
Proof.
  induction l as [|eid l IH]; intros m m' Hl Ha H; simpl in H.
  - injection H as <-. simpl. repeat split; auto.
    + lia.
    + intros x Hx. inversion Hx.
    + rewrite orb_false_r. reflexivity.
  - destruct (GameMap.enemy_tick dt m eid) as [m1|] eqn:E1; simpl in H;
      [|discriminate].
    apply NoDup_cons in Hl as [Hnotin Hl].
    destruct (enemy_tick_spec _ _ _ _ E1) as (Hother & Hdom & e' & He' & Hcase).
    assert (Ha1 : NoDup (GameMap.active_enemies m1)
                  /\ (forall x, x ∈ GameMap.active_enemies m1 ->
                                x ∈ GameMap.active_enemies m)
                  /\ (Enemy.has_reached_goal e' = true ->
                      eid ∉ GameMap.active_enemies m1)).
    { destruct (Enemy.has_reached_goal e').
      - destruct Hcase as (_ & Hrm & _).
        destruct (remove_spec _ _ _ Hrm) as [Hs Hn].
        destruct (Hn Ha). auto.
      - destruct Hcase as (_ & _ & [Hsame|Hrm]).
        + rewrite Hsame. repeat split; auto; discriminate.
        + destruct (remove_spec _ _ _ Hrm) as [Hs Hn].
          destruct (Hn Ha). repeat split; auto; discriminate. }
    destruct Ha1 as (Hn1 & Hsub1 & Hgone1).
    destruct (IH m1 m' Hl Hn1 H)
      as (Hfr & Hdm & Hn' & Hsub' & Hlife & Hgone & Hdef).
    assert (Hflag : GameMap.reached_goal m' eid = Enemy.has_reached_goal e').
    { unfold GameMap.reached_goal. rewrite (Hfr eid Hnotin), He'.
      reflexivity. }
    split; [|split; [|split; [|split; [|split; [|split]]]]].
    + intros x Hx. apply not_elem_of_cons in Hx as [Hx1 Hx2].
      rewrite (Hfr x Hx2). apply Hother. exact Hx1.
    + intros x Hx. apply Hdm, Hdom, Hx.
    + exact Hn'.
    + intros x Hx. apply Hsub1, Hsub', Hx.
    + rewrite arrived_cons, Hflag.
      destruct (Enemy.has_reached_goal e'); simpl length;
        destruct Hcase as (Hl1 & _); lia.
    + intros x. rewrite arrived_cons, Hflag.
      destruct (Enemy.has_reached_goal e') eqn:Hg.
      * intros Hx. apply elem_of_cons in Hx as [->|Hx]; [|apply Hgone, Hx].
        intros Hc. apply (Hgone1 eq_refl), Hsub', Hc.
      * apply Hgone.
    + rewrite Hdef, arrived_cons, Hflag.
      destruct (Enemy.has_reached_goal e') eqn:Hg.
      * destruct Hcase as (Hl1 & _ & Hd1). rewrite Hd1. simpl length.
        destruct (Z.leb_spec (GameMap.current_life_points m1) 0) as [Hle|Hgt].
        -- simpl. symmetry.
           assert (Hle' : (GameMap.current_life_points m' <=? 0) = true)
             by (apply Z.leb_le; lia).
           rewrite Hle'. apply orb_true_r.
        -- simpl.
           destruct (length (GameMap.arrived m' l)) eqn:Hlen; simpl.
           ++ assert (Hgt' : (GameMap.current_life_points m' <=? 0) = false)
                by (apply Z.leb_gt; lia).
              rewrite Hgt'. reflexivity.
           ++ reflexivity.
      * destruct Hcase as (_ & Hd1 & _). rewrite Hd1. reflexivity.
Qed.

(** *** Life points and defeat over one tick *)

Lemma eproj_is_Some (es es' : gmap nat Enemy.t) (x : nat) :
  (fun _ : Enemy.t => tt) <$> es' !! x = (fun _ => tt) <$> es !! x ->
  is_Some (es !! x) -> is_Some (es' !! x).
Proof.
  intros H [e He]. rewrite He in H. simpl in H.
  destruct (es' !! x); [eauto|discriminate].
Qed.

Lemma update_accounting (m m' : GameMap.t) dt :
  GameMap.roster_ok m ->
  GameMap.update m dt = Some m' ->
  GameMap.roster_ok m'
  /\ GameMap.current_life_points m'
     = GameMap.current_life_points m
       - Z.of_nat (length (GameMap.arrived m' (GameMap.active_enemies m)))
  /\ (forall x, x ∈ GameMap.arrived m' (GameMap.active_enemies m) ->
                x ∉ GameMap.active_enemies m')
  /\ GameMap.is_defeat m'
     = GameMap.is_defeat m
       || (negb (Nat.eqb
                   (length (GameMap.arrived m' (GameMap.active_enemies m))) 0)
           && (GameMap.current_life_points m' <=? 0)).
Proof.
  intros [Hnd Hdom] H.
  destruct (update_inv _ _ _ H)
    as (inc & m2 & m3 & m4 & m5 & m6 & _ & E2 & E3 & E4 & E5 & E6 & Hm').
  apply operator_loop_outcome in E2. destruct E2 as (O2 & N2 & _).
  simpl in N2.
  assert (A2 : GameMap.active_enemies m2 = GameMap.active_enemies m)
    by (unfold GameMap.outcome in O2; simpl in O2; congruence).
  assert (L2 : GameMap.current_life_points m2 = GameMap.current_life_points m)
    by (unfold GameMap.outcome in O2; simpl in O2; congruence).
  assert (D2 : GameMap.is_defeat m2 = GameMap.is_defeat m)
    by (unfold GameMap.outcome in O2; simpl in O2; congruence).
  rewrite A2 in E3.
  assert (Hnd2 : NoDup (GameMap.active_enemies m2)) by (rewrite A2; exact Hnd).
  destruct (enemy_loop_spec dt _ m2 m3 Hnd Hnd2 E3)
    as (_ & Hdm3 & Hn3 & Hsub3 & Hlife3 & Hgone3 & Hdef3).
  pose proof (combat_blocking_eproj Enemy.has_reached_goal m3 m4 m5
                (fun _ _ => eq_refl) (fun _ _ => eq_refl)
                (fun _ _ _ => eq_refl) E4 E5) as Hgoal.
  pose proof (combat_blocking_eproj (fun _ => tt) m3 m4 m5
                (fun _ _ => eq_refl) (fun _ _ => eq_refl)
                (fun _ _ _ => eq_refl) E4 E5) as Hsome.
  apply process_combat_outcome in E4. destruct E4 as (O4 & _).
  apply process_blocking_outcome in E5. destruct E5 as (O5 & _).
  assert (O53 : GameMap.outcome m5 = GameMap.outcome m3) by congruence.
  assert (A5 : GameMap.active_enemies m5 = GameMap.active_enemies m3)
    by (unfold GameMap.outcome in O53; congruence).
  assert (L5 : GameMap.current_life_points m5 = GameMap.current_life_points m3)
    by (unfold GameMap.outcome in O53; congruence).
  assert (D5 : GameMap.is_defeat m5 = GameMap.is_defeat m3)
    by (unfold GameMap.outcome in O53; congruence).
  destruct (update_waves_spawned _ _ _ E6)
    as (_ & _ & _ & _ & _ & _ & L6 & D6 & _ & He6 & new & A6 & Hnew & Hnewp).
  assert (Hfin : GameMap.enemies m' = GameMap.enemies m6
                 /\ GameMap.active_enemies m' = GameMap.active_enemies m6
                 /\ GameMap.current_life_points m'
                    = GameMap.current_life_points m6
                 /\ GameMap.is_defeat m' = GameMap.is_defeat m6).
  { rewrite Hm'. destruct (GameMap.victory_condition m6); auto. }
  destruct Hfin as (Ne & Ae & Le & De).
  (* an enemy known at the start of the tick is known all along *)
  assert (Hdom3 : forall x, x ∈ GameMap.active_enemies m ->
                            is_Some (GameMap.enemies m3 !! x)).
  { intros x Hx. apply Hdm3. rewrite N2. apply Hdom, Hx. }
  assert (Hdom5 : forall x, x ∈ GameMap.active_enemies m ->
                            is_Some (GameMap.enemies m5 !! x)).
  { intros x Hx. eapply eproj_is_Some; [apply Hsome|apply Hdom3, Hx]. }
  assert (Hflag : forall x, x ∈ GameMap.active_enemies m ->
                    GameMap.reached_goal m' x = GameMap.reached_goal m3 x).
  { intros x Hx. unfold GameMap.reached_goal. rewrite Ne.
    destruct (Hdom5 x Hx) as [e5 He5]. rewrite (He6 _ _ He5).
    specialize (Hgoal x). rewrite He5 in Hgoal.
    destruct (GameMap.enemies m3 !! x); simpl in Hgoal; congruence. }
  assert (Harr : GameMap.arrived m' (GameMap.active_enemies m)
                 = GameMap.arrived m3 (GameMap.active_enemies m)).
  { unfold GameMap.arrived. apply filter_ext_in. intros x Hx.
    apply Hflag. apply list_elem_of_In. exact Hx. }
  rewrite Harr, Le, L6, L5, De, D6, D5, Ae, A6, A5.
  split; [|split; [|split]].
  - split.
    + rewrite Ae, A6, A5. apply NoDup_app. split; [exact Hn3|].
      split; [|exact Hnew].
      intros x Hx Hx'. destruct (Hnewp x Hx') as [Hnone _].
      destruct (Hdom5 x) as [e He].
      { apply Hsub3 in Hx. rewrite <- A2. exact Hx. }
      congruence.
    + intros x. rewrite Ae, A6, A5, Ne. intros Hx.
      apply elem_of_app in Hx as [Hx|Hx].
      * destruct (Hdom5 x) as [e He].
        { apply Hsub3 in Hx. rewrite <- A2. exact Hx. }
        exists e. apply He6, He.
      * destruct (Hnewp x Hx) as (_ & e & He & _). eauto.
  - rewrite Hlife3, L2. reflexivity.
  - intros x Hx Hc. apply elem_of_app in Hc as [Hc|Hc].
    + apply (Hgone3 x Hx Hc).
    + destruct (Hnewp x Hc) as [Hnone _].
      apply arrived_elem in Hx as [Hx _].
      destruct (Hdom5 x Hx) as [e He]. congruence.
  - rewrite Hdef3, D2, Hlife3, L2. reflexivity.
Qed.

Lemma step_roster_ok (m m' : GameMap.t) :
  GameMap.step m m' -> GameMap.roster_ok m -> GameMap.roster_ok m'.
Proof.
  intros Hs Hok. destruct Hs as [oid p d r H|oid b H|oid i r H|dt H].
  - apply deploy_operator_outcome in H as (O & E & _).
    unfold GameMap.roster_ok, GameMap.outcome in *. rewrite E.
    injection O as _ _ -> _ _ _. exact Hok.
  - apply retreat_operator_outcome in H as (O & E & _).
    unfold GameMap.roster_ok, GameMap.outcome in *. rewrite E.
    injection O as _ _ -> _ _ _. exact Hok.
  - apply activate_skill_outcome in H as (O & E & _).
    unfold GameMap.roster_ok, GameMap.outcome in *. rewrite E.
    injection O as _ _ -> _ _ _. exact Hok.
  - apply (update_accounting _ _ _ Hok H).
Qed.

Lemma reachable_roster_ok (m : GameMap.t) :
  GameMap.reachable m -> GameMap.roster_ok m.
Proof.
  induction 1 as [lv ds Hds|m m' _ IH Hs].
  - split; simpl; [constructor|]. intros x Hx. inversion Hx.
  - eapply step_roster_ok; eauto.
Qed.

(** *** Defeat is terminal *)

Lemma step_defeat (m m' : GameMap.t) :
  GameMap.step m m' -> GameMap.is_defeat m = true ->
  GameMap.is_defeat m' = true.
Proof.
  intros Hs Hd. destruct Hs as [oid p d r H|oid b H|oid i r H|dt H].
  - apply deploy_operator_outcome in H as (O & _).
    unfold GameMap.outcome in O. injection O as _ _ _ _ -> _. exact Hd.
  - apply retreat_operator_outcome in H as (O & _).
    unfold GameMap.outcome in O. injection O as _ _ _ _ -> _. exact Hd.
  - apply activate_skill_outcome in H as (O & _).
    unfold GameMap.outcome in O. injection O as _ _ _ _ -> _. exact Hd.
  - destruct (update_inv _ _ _ H)
      as (inc & m2 & m3 & m4 & m5 & m6 & _ & E2 & E3 & E4 & E5 & E6 & ->).
    apply operator_loop_outcome in E2. destruct E2 as (O2 & _).
    pose proof (enemy_loop_frame _ _ _ _ E3)
      as (_ & _ & _ & _ & _ & _ & _ & D3).
    apply process_combat_outcome in E4. destruct E4 as (O4 & _).
    apply process_blocking_outcome in E5. destruct E5 as (O5 & _).
    destruct (update_waves_spawned _ _ _ E6)
      as (_ & _ & _ & _ & _ & _ & _ & D6 & _).
    assert (GameMap.is_defeat m6 = true).
    { rewrite D6. unfold GameMap.outcome in *. simpl in *.
      replace (GameMap.is_defeat m5) with (GameMap.is_defeat m3) by congruence.
      apply D3. congruence. }
    destruct (GameMap.victory_condition m6); simpl; assumption.
Qed.

Lemma later_reachable (m m' : GameMap.t) :
  GameMap.later m m' -> GameMap.reachable m -> GameMap.reachable m'.
Proof.
  induction 1 as [|m' m'' _ IH Hs]; intros Hr; [exact Hr|].
  apply (GameMap.reach_step m' m''); [apply IH; exact Hr|exact Hs].
Qed.

Lemma later_defeat (m m' : GameMap.t) :
  GameMap.later m m' -> GameMap.is_defeat m = true ->
  GameMap.is_defeat m' = true.
Proof.
  induction 1 as [|m' m'' _ IH Hs]; intros Hd; [exact Hd|].
  apply (step_defeat m' m'' Hs). apply IH. exact Hd.
Qed.

(** Defeat is only ever declared with the life points used up. *)
Lemma reachable_defeat_life (m : GameMap.t) :
  GameMap.reachable m ->
  GameMap.is_defeat m = true -> GameMap.current_life_points m <= 0.
Proof.
  induction 1 as [lv ds Hds|m m' Hr IH Hs]; [discriminate|].
  destruct Hs as [oid p d r H|oid b H|oid i r H|dt H].
  - apply deploy_operator_outcome in H as (O & _).
    unfold GameMap.outcome in O. injection O as _ _ _ -> -> _. exact IH.
  - apply retreat_operator_outcome in H as (O & _).
    unfold GameMap.outcome in O. injection O as _ _ _ -> -> _. exact IH.
  - apply activate_skill_outcome in H as (O & _).
    unfold GameMap.outcome in O. injection O as _ _ _ -> -> _. exact IH.
  - destruct (update_accounting _ _ _ (reachable_roster_ok _ Hr) H)
      as (_ & Hlife & _ & Hdef).
    rewrite Hdef, Hlife. intros Hd.
    apply orb_true_iff in Hd as [Hd|Hd].
    + specialize (IH Hd). lia.
    + apply andb_true_iff in Hd as [_ Hd]. apply Z.leb_le in Hd. exact Hd.
Qed.

(** C2. On every tick of a run the life points drop by exactly one for each
    enemy of the active roster whose reached-goal flag is set, and those
    enemies leave the roster; the defeat flag is up after the tick exactly
    when it was up before or an enemy arrived and left the life points at 0
    or below, so it is down while the life points are above 0 and comes up
    on the first tick that brings them to 0 or below; and once up it stays
    up, and the victory flag stays down, at the end of that tick and in
    every later state of the run. *)
Theorem C2_defeat_when_life_runs_out_and_terminal
    (m m' : GameMap.t) (delta_time : Q) :
  GameMap.reachable m ->
  GameMap.update m delta_time = Some m' ->
  let gone := GameMap.arrived m' (GameMap.active_enemies m) in
  GameMap.current_life_points m'
    = GameMap.current_life_points m - Z.of_nat (length gone)
  /\ (forall eid, eid ∈ gone -> eid ∉ GameMap.active_enemies m')
  /\ (GameMap.is_defeat m' = true
      <-> GameMap.is_defeat m = true
          \/ (gone <> [] /\ GameMap.current_life_points m' <= 0))
  /\ (0 < GameMap.current_life_points m ->
      GameMap.is_defeat m = false
      /\ (GameMap.is_defeat m' = true
          <-> GameMap.current_life_points m' <= 0))
  /\ (forall m'',
        GameMap.later m' m'' -> GameMap.is_defeat m' = true ->
        GameMap.is_defeat m'' = true /\ GameMap.is_victory m'' = false).
Proof.
  intros Hr Hu gone.
  destruct (update_accounting _ _ _ (reachable_roster_ok _ Hr) Hu)
    as (_ & Hlife & Hgone & Hdef).
  fold gone in Hlife, Hgone, Hdef.
  assert (Hiff : GameMap.is_defeat m' = true
                 <-> GameMap.is_defeat m = true
                     \/ (gone <> [] /\ GameMap.current_life_points m' <= 0)).
  { rewrite Hdef, orb_true_iff, andb_true_iff, negb_true_iff, Nat.eqb_neq,
      Z.leb_le.
    destruct gone; simpl; split; intros [H|[H1 H2]]; auto;
      try (exfalso; apply H1; reflexivity).
    all: try (right; split; [discriminate|exact H2]). }
  split; [exact Hlife|]. split; [exact Hgone|]. split; [exact Hiff|]. split.
  - intros Hpos.
    assert (Hnd : GameMap.is_defeat m = false).
    { destruct (GameMap.is_defeat m) eqn:Hd; [|reflexivity].
      pose proof (reachable_defeat_life _ Hr Hd). lia. }
    split; [exact Hnd|]. rewrite Hiff, Hnd. split.
    + intros [Hd|[_ Hl]]; [discriminate|exact Hl].
    + intros Hneg. right. split; [|exact Hneg].
      destruct gone; [simpl in Hlife; lia|discriminate].
  - intros m'' Hl Hd.
    assert (Hd'' : GameMap.is_defeat m'' = true)
      by (eapply later_defeat; eauto).
    split; [exact Hd''|].
    assert (Hr'' : GameMap.reachable m'').
    { eapply later_reachable; [exact Hl|].
      eapply GameMap.reach_step; [exact Hr|].
      eapply GameMap.step_update; eauto. }
    destruct (GameMap.is_victory m'') eqn:Hv; [|reflexivity].
    apply reachable_victory_ok in Hr''.
    apply Hr'' in Hv. apply victory_condition_spec in Hv.
    destruct Hv as (_ & _ & _ & Hnd). congruence.
Qed.

(** ** Blocking *)

(** *** Block capacity *)





















(** *** The cleanup pass *)




(** *** A blocked enemy keeps its blocker *)











(** ** The properties on the concrete scenarios *)

Lemma squad_capacity :
  map_Forall (fun _ d => 0 <= OperatorData.block_cnt d) Scenario.squad.
Proof.
  unfold Scenario.squad.
  apply map_Forall_insert_2; [simpl; lia|].
  apply map_Forall_insert_2; [simpl; lia|]. apply map_Forall_empty.
Qed.

Lemma start_reachable : GameMap.reachable Scenario.start.
Proof. apply GameMap.reach_init. exact squad_capacity. Qed.

Lemma after_deploy_reachable (m : GameMap.t) (oid : nat) (p : Position.t) :
  GameMap.reachable m -> GameMap.reachable (Scenario.after_deploy m oid p).
Proof.
  intros Hr. unfold Scenario.after_deploy.
  destruct (GameMap.deploy_operator m oid p RIGHT) as [[r m']|] eqn:E;
    [|exact Hr].
  eapply GameMap.reach_step; [exact Hr|]. eapply GameMap.step_deploy; eauto.
Qed.

Lemma after_ticks_reachable (n : nat) :
  forall m, GameMap.reachable m -> GameMap.reachable (Scenario.after_ticks n m).
Proof.
  induction n as [|n IH]; intros m Hr; simpl; [exact Hr|].
  destruct (GameMap.update m (1 # 2)) as [m'|] eqn:E; [|exact Hr].
  apply IH. eapply GameMap.reach_step; [exact Hr|].
  eapply GameMap.step_update; eauto.
Qed.

Lemma C1_witness_victory_declared :
  exists m',
    GameMap.update Scenario.guard_holds (1 # 2) = Some m'
    /\ (GameMap.is_victory m' = true
        <-> (length (GameMap.waves m') <= GameMap.current_wave_index m')%nat
            /\ GameMap.active_enemies m' = []
            /\ 0 < GameMap.current_life_points m'
            /\ GameMap.is_defeat m' = false).
Proof.
  destruct (GameMap.update Scenario.guard_holds (1 # 2)) as [m'|] eqn:E.
  - exists m'. split; [reflexivity|].
    apply (C1_victory_iff_condition Scenario.guard_holds m' (1 # 2));
      [|exact E].
    apply after_ticks_reachable, after_deploy_reachable, start_reachable.
  - vm_compute in E. discriminate E.
Defined.

Lemma C2_witness_slug_reaches_goal :
  exists m',
    GameMap.update Scenario.slug_arrives (1 # 2) = Some m'
    /\ let gone := GameMap.arrived m'
                     (GameMap.active_enemies Scenario.slug_arrives) in
       GameMap.current_life_points m'
         = GameMap.current_life_points Scenario.slug_arrives
           - Z.of_nat (length gone)
       /\ (forall eid, eid ∈ gone -> eid ∉ GameMap.active_enemies m')
       /\ (GameMap.is_defeat m' = true
           <-> GameMap.is_defeat Scenario.slug_arrives = true
               \/ (gone <> [] /\ GameMap.current_life_points m' <= 0))
       /\ (0 < GameMap.current_life_points Scenario.slug_arrives ->
           GameMap.is_defeat Scenario.slug_arrives = false
           /\ (GameMap.is_defeat m' = true
               <-> GameMap.current_life_points m' <= 0))
       /\ (forall m'',
             GameMap.later m' m'' -> GameMap.is_defeat m' = true ->
             GameMap.is_defeat m'' = true /\ GameMap.is_victory m'' = false).
Proof.
  destruct (GameMap.update Scenario.slug_arrives (1 # 2)) as [m'|] eqn:E.
  - exists m'. split; [reflexivity|].
    apply (C2_defeat_when_life_runs_out_and_terminal
             Scenario.slug_arrives m' (1 # 2)); [|exact E].
    apply after_ticks_reachable, start_reachable.
  - vm_compute in E. discriminate E.
Defined.

Lemma C4_witness_guard_on_melee_tile :
  GameMap.operators Scenario.start !! 0%nat
    = Some (OperatorData.make Scenario.guard)
  /\ (forall r m',
         GameMap.deploy_operator Scenario.start 0%nat (Position.mk 0 0) RIGHT
         = Some (r, m') ->
         GameMap.can_deploy_at Scenario.start (Position.mk 0 0) 0%nat
         = Some false ->
         OperationResult.success r = false)
  /\ (GameMap.can_deploy_at Scenario.start (Position.mk 0 0) 0%nat = Some true ->
      (Operator.deploy_cost (OperatorData.make Scenario.guard)
       <= GameMap.current_cost Scenario.start)%Q ->
      Z.of_nat (length (GameMap.deployed_operators Scenario.start))
        < Level.character_limit (GameMap.level Scenario.start) ->
      exists m',
        GameMap.deploy_operator Scenario.start 0%nat (Position.mk 0 0) RIGHT
        = Some (OperationResult.success_result, m')).
Proof.
  split; [vm_compute; reflexivity|].
  apply (C4_can_deploy_agrees_with_deploy Scenario.start 0%nat
           (OperatorData.make Scenario.guard) (Position.mk 0 0) RIGHT).
  vm_compute. reflexivity.
Defined.

Lemma C5_witness_underfunded_guard :
  GameMap.operators Scenario.poor !! 0%nat
    = Some (OperatorData.make Scenario.guard)
  /\ GameMap.can_deploy_at Scenario.poor (Position.mk 0 0) 0%nat = Some true
  /\ (GameMap.current_cost Scenario.poor
      < Operator.deploy_cost (OperatorData.make Scenario.guard))%Q
  /\ GameMap.deploy_operator Scenario.poor 0%nat (Position.mk 0 0) RIGHT
     = Some (OperationResult.failure_result
               (OperationResult.InsufficientCost
                  (Operator.deploy_cost (OperatorData.make Scenario.guard))
                  (GameMap.current_cost Scenario.poor)),
             Scenario.poor).
Proof.
  assert (Ho : GameMap.operators Scenario.poor !! 0%nat
               = Some (OperatorData.make Scenario.guard))
    by (vm_compute; reflexivity).
  assert (Hc : GameMap.can_deploy_at Scenario.poor (Position.mk 0 0) 0%nat
               = Some true) by (vm_compute; reflexivity).
  assert (Hq : (GameMap.current_cost Scenario.poor
                < Operator.deploy_cost (OperatorData.make Scenario.guard))%Q)
    by (vm_compute; reflexivity).
  split; [exact Ho|]. split; [exact Hc|]. split; [exact Hq|].
  exact (proj1 (proj2 (proj2 (proj2
           (C5_failed_deploy_changes_nothing Scenario.poor 0%nat
              (OperatorData.make Scenario.guard) (Position.mk 0 0) RIGHT Ho)))
           Hc Hq)).
Defined.

(** C5, where it fails: the guard is not deployed and costs more than the
    world has, yet a deploy outside the grid is refused for the position, not
    for the cost. *)
Lemma C5_counterexample_invalid_position_first :
  (Operator.is_deployed <$> GameMap.operators Scenario.poor !! 0%nat)
    = Some false
  /\ Qle_bool 5 (GameMap.current_cost Scenario.poor) = false
  /\ (Operator.deploy_cost <$> GameMap.operators Scenario.poor !! 0%nat)
     = Some 5%Q
  /\ GameMap.deploy_operator Scenario.poor 0%nat (Position.mk 5 5) RIGHT
     = Some (OperationResult.failure_result
               (OperationResult.InvalidPosition 5 5), Scenario.poor)
  /\ OperationResult.text (OperationResult.InvalidPosition 5 5)
     <> OperationResult.text (OperationResult.InsufficientCost 5 3).
Proof.
  split; [vm_compute; reflexivity|]. split; [vm_compute; reflexivity|].
  split; [vm_compute; reflexivity|]. split; [|vm_compute; discriminate].
  unfold GameMap.deploy_operator.
  replace (GameMap.operators Scenario.poor !! 0%nat)
    with (Some (OperatorData.make Scenario.guard)) by (vm_compute; reflexivity).
  reflexivity.
Qed.

Lemma C6_witness_guard_deployed_and_retreated :
  exists r m1,
    GameMap.deploy_operator Scenario.open_lane 0%nat (Position.mk 0 1) RIGHT
    = Some (r, m1)
    /\ exists o m2,
         GameMap.operators Scenario.open_lane !! 0%nat = Some o
         /\ GameMap.retreat_operator m1 0%nat = Some (true, m2)
         /\ GameMap.deployed_operators m2
            = GameMap.deployed_operators Scenario.open_lane
         /\ GameMap.tiles m2 = GameMap.tiles Scenario.open_lane
         /\ GameMap.current_cost m2
            = (GameMap.current_cost Scenario.open_lane
               - Operator.deploy_cost o)%Q.
Proof.
  destruct (GameMap.deploy_operator Scenario.open_lane 0%nat
              (Position.mk 0 1) RIGHT) as [[r m1]|] eqn:E.
  - exists r, m1. split; [reflexivity|].
    apply (C6_deploy_then_retreat_restores Scenario.open_lane m1 0%nat
             (Position.mk 0 1) RIGHT r); [reflexivity|exact E|].
    assert (H : (fun x => OperationResult.success x.1)
                  <$> GameMap.deploy_operator Scenario.open_lane 0%nat
                        (Position.mk 0 1) RIGHT = Some true)
      by (vm_compute; reflexivity).
    rewrite E in H. simpl in H. injection H as H. exact H.
  - vm_compute in E. discriminate E.
Defined.


(** The runs of the three scenarios do what their names say. *)
Example scenario_outcomes :
  GameMap.is_victory <$> GameMap.update Scenario.guard_holds (1 # 2)
    = Some true
  /\ GameMap.is_victory Scenario.guard_holds = false
  /\ (fun m' => (GameMap.current_life_points m', GameMap.is_defeat m',
                 GameMap.active_enemies m'))
       <$> GameMap.update Scenario.slug_arrives (1 # 2)
     = Some (0, true, [])
  /\ (GameMap.current_life_points Scenario.slug_arrives,
      GameMap.is_defeat Scenario.slug_arrives,
      GameMap.active_enemies Scenario.slug_arrives) = (1, false, [0%nat]).
Proof. vm_compute. repeat split; reflexivity. Qed.

(** On that tick the guard does block the slug. *)
Example slug_blocked_by_guard :
  (fun m' => blocker_of m' 0%nat)
    <$> GameMap.update Scenario.slug_meets_guard (1 # 2)
  = Some (Some 0%nat).
Proof. vm_compute. reflexivity. Qed.

Lemma C9_witness_two_checkpoints :
  Route.allow_diagonal_move Scenario.straight = false
  /\ (forall s e : Position.t,
         Route._find_path (Route.allow_diagonal_move Scenario.straight) s e
         = Route.row_run s e ++ Route.col_run s e
         /\ last (s :: Route._find_path
                         (Route.allow_diagonal_move Scenario.straight) s e)
            = Some e)
  /\ Route.chain (Route._generate_path Scenario.straight)
  /\ last (Route._generate_path Scenario.straight)
     = Some (Route.end_position Scenario.straight).
Proof.
  split; [reflexivity|].
  apply (C9_orthogonal_route_rows_then_columns Scenario.straight).
  reflexivity.
Defined.

(** C9, where it fails: from (0,0) to (1,2) the column gap (2) is larger than
    the row gap (1); the code still steps along the row first, while
    reducing the coordinate with the larger gap would step along the
    column. *)
Lemma C9_counterexample_row_first_despite_smaller_gap :
  Z.abs (Position.row Scenario.wide_to - Position.row Scenario.wide_from)
    < Z.abs (Position.col Scenario.wide_to - Position.col Scenario.wide_from)
  /\ Route._find_path false Scenario.wide_from Scenario.wide_to
     = [Position.mk 1 0; Position.mk 1 1; Position.mk 1 2]
  /\ Route.spec_find_path Scenario.wide_from Scenario.wide_to
     = [Position.mk 0 1; Position.mk 1 1; Position.mk 1 2]
  /\ Route._find_path false Scenario.wide_from Scenario.wide_to
     <> Route.spec_find_path Scenario.wide_from Scenario.wide_to.
Proof.
  split; [vm_compute; reflexivity|]. split; [reflexivity|].
  split; [reflexivity|]. vm_compute. discriminate.
Qed.


(** With ticks of half a second the five-second skill is still active after
    nine ticks and inactive after the tenth. *)
Example five_second_skill_ticks :
  Skill.is_active <$> Skill.run_duration Scenario.running_skill
                        (repeat (1 # 2)%Q 9) = Some true
  /\ Skill.is_active <$> Skill.run_duration Scenario.running_skill
                           (repeat (1 # 2)%Q 10) = Some false.
Proof. split; vm_compute; reflexivity. Qed.

(** * Further properties of the code *)

(** ** Skills: SP, charges, activation, ammunition *)

(** The banking loop moves SP into charges without creating or losing any,
    and never lowers the charge count or pushes it past the maximum. *)
Lemma bank_charges_conserves (n : nat) :
  forall (cost : Q) (maxc : Z) (sp : Q) (cc : Z) (sp' : Q) (cc' : Z),
    Skill.bank_charges n cost maxc sp cc = (sp', cc') ->
    (sp' + cost * inject_Z (cc' - cc) == sp)%Q
    /\ cc <= cc'
    /\ cc' <= Z.max cc maxc.
Proof.
  induction n as [|n IH]; intros cost maxc sp cc sp' cc'; simpl.
  - intros [= <- <-]. rewrite Z.sub_diag. split; [ring|]. lia.
  - destruct (Py.leb cost sp && (cc <? maxc)) eqn:Hc; simpl.
    + apply andb_true_iff in Hc as [_ Hlt]. apply Z.ltb_lt in Hlt.
      intros Hb. destruct (IH _ _ _ _ _ _ Hb) as (H1 & H2 & H3).
      split; [|lia].
      replace (cc' - cc) with ((cc' - (cc + 1)) + 1) by lia.
      rewrite inject_Z_plus.
      change (inject_Z 1) with 1%Q.
      assert (Hq : (sp' + cost * (inject_Z (cc' - (cc + 1)) + 1)
                    == (sp' + cost * inject_Z (cc' - (cc + 1))) + cost)%Q)
        by ring.
      rewrite Hq, H1. ring.
    + intros [= <- <-]. rewrite Z.sub_diag. split; [ring|]. lia.
Qed.

(** X1. [_gain_sp] on a skill with a level.  Without charge slots the SP is
    the smaller of the old SP plus the gain and the cost, so it never passes
    the cost.  With charge slots the loop banks whole charges: SP plus cost
    times the charges gained equals the old SP plus the gain, the charge
    count does not drop and stays within the maximum if it was, and the loop
    ends with SP below the cost or with the charges full. *)
Theorem X1_gain_sp_conserves_and_caps
    (s : Skill.t) (lvl : SkillLevel.t) (amount : Q) :
  Skill.get_current_level s = Some lvl ->
  exists s',
    Skill._gain_sp s amount = Some s'
    /\ Skill.get_current_level s' = Some lvl
    /\ Skill.is_active s' = Skill.is_active s
    /\ (SkillLevel.max_charge_time lvl <= 1 ->
        Skill.current_sp s'
        = Qmin (Skill.current_sp s + amount) (SkillLevel.sp_cost lvl)
        /\ (Skill.current_sp s' <= SkillLevel.sp_cost lvl)%Q
        /\ Skill.charge_count s' = Skill.charge_count s)
    /\ (1 < SkillLevel.max_charge_time lvl ->
        (Skill.current_sp s'
         + SkillLevel.sp_cost lvl
           * inject_Z (Skill.charge_count s' - Skill.charge_count s)
         == Skill.current_sp s + amount)%Q
        /\ Skill.charge_count s <= Skill.charge_count s'
        /\ (Skill.charge_count s <= SkillLevel.max_charge_time lvl ->
            Skill.charge_count s' <= SkillLevel.max_charge_time lvl)
        /\ ((Skill.current_sp s' < SkillLevel.sp_cost lvl)%Q
            \/ SkillLevel.max_charge_time lvl <= Skill.charge_count s')).
Proof.
  intros Hl. unfold Skill._gain_sp. rewrite Hl. simpl.
  eexists. split; [reflexivity|].
  unfold Skill._gain_sp_level.
  destruct (Z.ltb_spec 1 (SkillLevel.max_charge_time lvl)) as [Hc|Hc].
  - pose proof (bank_charges_done
                  (Z.to_nat (SkillLevel.max_charge_time lvl
                             - Skill.charge_count s))
                  (SkillLevel.sp_cost lvl) (SkillLevel.max_charge_time lvl)
                  (Skill.current_sp s + amount)%Q (Skill.charge_count s)
                  ltac:(lia)) as H4.
    cbv zeta in H4.
    destruct (Skill.bank_charges _ _ _ _ _) as [sp' cc'] eqn:Hb.
    destruct (bank_charges_conserves _ _ _ _ _ _ _ Hb) as (H1 & H2 & H3).
    simpl in *.
    split; [unfold Skill.get_current_level in *; exact Hl|].
    split; [reflexivity|]. split; [lia|]. intros _.
    split; [exact H1|]. split; [exact H2|]. split; [lia|].
    apply andb_false_iff in H4 as [H4|H4].
    + left. apply Qnot_le_lt. intros Hle. apply Qle_bool_iff in Hle.
      unfold Py.leb in H4. congruence.
    + right. apply Z.ltb_ge in H4. exact H4.
  - simpl. split; [unfold Skill.get_current_level in *; exact Hl|].
    split; [reflexivity|]. split; [|lia]. intros _.
    split; [reflexivity|]. split; [apply Q.le_min_r|reflexivity].
Qed.

(** In the guard of [activate] the automatic test adds nothing: whenever
    [should_auto_activate] holds, [can_activate] holds. *)
Lemma auto_implies_can (s : Skill.t) :
  Skill.should_auto_activate s = Some true ->
  Skill.can_activate s = Some true.
Proof.
  unfold Skill.should_auto_activate, Skill.can_activate.
  destruct (Skill.get_current_level s) as [lvl|]; simpl; [|discriminate].
  destruct (SkillLevel.skill_type lvl); try discriminate.
  destruct (Z.ltb_spec 1 (SkillLevel.max_charge_time lvl)); [|auto].
  intros [= Hge]. apply Z.leb_le in Hge. f_equal. apply Z.ltb_lt. lia.
Qed.

(** X2. [activate] succeeds exactly when [can_activate] holds.  A refused
    activation, which is every activation of a passive skill, leaves the
    skill as it was; a successful one makes the skill active and spends one
    charge when the level has charge slots and the whole SP pool
    otherwise. *)
Theorem X2_activate_iff_can_activate (s : Skill.t) (lvl : SkillLevel.t) :
  Skill.get_current_level s = Some lvl ->
  exists b s',
    Skill.activate s = Some (b, s')
    /\ Skill.can_activate s = Some b
    /\ (SkillLevel.skill_type lvl = PASSIVE -> b = false)
    /\ (b = false -> s' = s)
    /\ (b = true ->
        Skill.is_active s' = true
        /\ Skill.get_current_level s' = Some lvl
        /\ (1 < SkillLevel.max_charge_time lvl ->
            Skill.charge_count s' = Skill.charge_count s - 1
            /\ Skill.current_sp s' = Skill.current_sp s)
        /\ (SkillLevel.max_charge_time lvl <= 1 ->
            Skill.current_sp s' = 0%Q
            /\ Skill.charge_count s' = Skill.charge_count s)).
Proof.
  intros Hl.
  assert (Hdo : exists s',
             Skill.do_activate s = Some (true, s')
             /\ Skill.is_active s' = true
             /\ Skill.get_current_level s' = Some lvl
             /\ (1 < SkillLevel.max_charge_time lvl ->
                 Skill.charge_count s' = Skill.charge_count s - 1
                 /\ Skill.current_sp s' = Skill.current_sp s)
             /\ (SkillLevel.max_charge_time lvl <= 1 ->
                 Skill.current_sp s' = 0%Q
                 /\ Skill.charge_count s' = Skill.charge_count s)).
  { unfold Skill.do_activate. rewrite Hl. simpl. eexists.
    split; [reflexivity|].
    unfold Skill.get_current_level in *.
    destruct (Z.ltb_spec 1 (SkillLevel.max_charge_time lvl));
      destruct (SkillLevel.duration_type lvl); simpl;
      repeat split; auto; lia. }
  destruct Hdo as (s1 & Hdo & Hfacts).
  assert (Hcan : exists c, Skill.can_activate s = Some c
                           /\ (SkillLevel.skill_type lvl = PASSIVE -> c = false)).
  { unfold Skill.can_activate. rewrite Hl. simpl.
    destruct (SkillLevel.skill_type lvl);
      try (destruct (1 <? SkillLevel.max_charge_time lvl));
      eexists; (split; [reflexivity|]); first [discriminate|reflexivity]. }
  destruct Hcan as ([|] & Hc & Hp).
  - exists true, s1. unfold Skill.activate. rewrite Hc. simpl.
    split; [exact Hdo|]. split; [reflexivity|]. split; [exact Hp|].
    split; [discriminate|]. intros _. exact Hfacts.
  - exists false, s. unfold Skill.activate. rewrite Hc. simpl.
    assert (Ha : Skill.should_auto_activate s = Some false).
    { destruct (Skill.should_auto_activate s) as [[|]|] eqn:Ha.
      - apply auto_implies_can in Ha. congruence.
      - reflexivity.
      - unfold Skill.should_auto_activate in Ha. rewrite Hl in Ha.
        simpl in Ha. destruct (SkillLevel.skill_type lvl);
          try discriminate.
        destruct (1 <? SkillLevel.max_charge_time lvl); discriminate. }
    rewrite Ha. simpl.
    split; [reflexivity|]. split; [reflexivity|]. split; [reflexivity|].
    split; [reflexivity|discriminate].
Qed.

(** X3. An active ammunition skill is ended by [consume_ammo], never by
    the clock.  With [remaining_ammo] at most [n + 1] and at least
    [n + 1] whenever [n] is positive, the first [n] calls return [True] and
    the next one returns [False], leaving the skill inactive with no
    ammunition; after that [consume_ammo] returns [True] and changes
    nothing.  An activation that loaded no ammunition at all thus still
    lasts for one shot. *)
Theorem X3_ammo_skill_lasts_for_its_shots (n : nat) :
  forall (s : Skill.t) (lvl : SkillLevel.t),
    Skill.get_current_level s = Some lvl ->
    SkillLevel.duration_type lvl = AMMO ->
    Skill.is_active s = true ->
    Z.max 1 (Skill.remaining_ammo s) = Z.of_nat (S n) ->
    (forall dt, Skill.update_duration s dt = Some s)
    /\ exists s',
         Skill.consume_many (S n) s = Some (repeat true n ++ [false], s')
         /\ Skill.is_active s' = false
         /\ Skill.remaining_ammo s' = 0
         /\ Skill.consume_ammo s' = Some (true, s').
Proof.
  induction n as [|n IH]; intros s lvl Hl Hd Ha Hm.
  - split.
    { intros dt. unfold Skill.update_duration. rewrite Ha, Hl. simpl.
      rewrite Hd. reflexivity. }
    exists (Skill.deactivate
              (Skill.set_run s (Skill.is_active s) (Skill.remaining_duration s)
                 (Skill.remaining_ammo s - 1))).
    assert (Hc : Skill.consume_ammo s
                 = Some (false,
                         Skill.deactivate
                           (Skill.set_run s (Skill.is_active s)
                              (Skill.remaining_duration s)
                              (Skill.remaining_ammo s - 1)))).
    { unfold Skill.consume_ammo. rewrite Hl. simpl. rewrite Hd, Ha. simpl.
      destruct (Z.leb_spec (Skill.remaining_ammo s - 1) 0); [reflexivity|lia]. }
    cbn [Skill.consume_many]. rewrite Hc. simpl.
    split; [reflexivity|]. split; [reflexivity|]. split; [reflexivity|].
    unfold Skill.consume_ammo, Skill.get_current_level in *. simpl.
    rewrite Hl. simpl. rewrite Hd. reflexivity.
  - split.
    { intros dt. unfold Skill.update_duration. rewrite Ha, Hl. simpl.
      rewrite Hd. reflexivity. }
    set (s1 := Skill.set_run s (Skill.is_active s) (Skill.remaining_duration s)
                 (Skill.remaining_ammo s - 1)).
    assert (Hc : Skill.consume_ammo s = Some (true, s1)).
    { subst s1. unfold Skill.consume_ammo. rewrite Hl. simpl.
      rewrite Hd, Ha. simpl.
      destruct (Z.leb_spec (Skill.remaining_ammo s - 1) 0); [lia|reflexivity]. }
    destruct (IH s1 lvl) as (_ & s' & Hm' & Hi & Hr & Hn).
    { unfold Skill.get_current_level in *. exact Hl. }
    { exact Hd. }
    { exact Ha. }
    { subst s1. simpl. lia. }
    exists s'. change (Skill.consume_many (S (S n)) s)
      with (r ← Skill.consume_ammo s;
            r' ← Skill.consume_many (S n) r.2;
            Some (r.1 :: r'.1, r'.2)).
    rewrite Hc. cbn [mbind option_bind snd fst].
    rewrite Hm'. simpl. auto.
Qed.

(** The last element of a list, by position. *)
Lemma lookup_last_default {A} (l : list A) (a d : A) :
  (a :: l) !! length l = Some (List.last (a :: l) d).
Proof.
  revert a. induction l as [|b l IH]; intros a; [reflexivity|].
  change ((b :: l) !! length l = Some (List.last (b :: l) d)). apply IH.
Qed.

(** X4. [Skill.__init__] caps the requested level from above only.  With
    level data present, a request at or past the last level, and the request
    -1 that [initialize_skills] makes for a plan level of 0, select the
    last level; a request within range selects that level; the new skill
    is inactive, has no charge and starts with the selected level's
    [init_sp].  A request below minus the number of levels raises. *)
Theorem X4_skill_init_selects_level
    (l0 : SkillLevel.t) (ls : list SkillLevel.t) (skill_level : Z) :
  let lvls := l0 :: ls in
  let n := Z.of_nat (length lvls) in
  (skill_level < - n <-> Skill.init lvls skill_level = None)
  /\ (- n <= skill_level ->
      exists s lvl,
        Skill.init lvls skill_level = Some s
        /\ Skill.get_current_level s = Some lvl
        /\ Skill.levels s = lvls
        /\ Skill.current_sp s = SkillLevel.init_sp lvl
        /\ Skill.charge_count s = 0
        /\ Skill.is_active s = false
        /\ (n - 1 <= skill_level \/ skill_level = -1 ->
            lvl = List.last lvls l0)
        /\ (0 <= skill_level < n ->
            lvls !! Z.to_nat skill_level = Some lvl)).
Proof.
  intros lvls n.
  assert (Hlen : n = Z.of_nat (S (length ls))) by reflexivity.
  assert (Hlast : forall i, i = length ls ->
                    lvls !! i = Some (List.last lvls l0)).
  { intros i ->. apply lookup_last_default. }
  assert (Hsome : - n <= skill_level ->
                  exists lvl,
                    Py.index lvls (Z.min skill_level (n - 1)) = Some lvl
                    /\ (n - 1 <= skill_level \/ skill_level = -1 ->
                        lvl = List.last lvls l0)
                    /\ (0 <= skill_level < n ->
                        lvls !! Z.to_nat skill_level = Some lvl)).
  { intros Hge. unfold Py.index. fold n.
    destruct (Z.leb_spec 0 (Z.min skill_level (n - 1))) as [H0|H0].
    - destruct (lookup_lt_is_Some_2 lvls
                  (Z.to_nat (Z.min skill_level (n - 1)))) as [lvl Hlvl].
      { simpl. lia. }
      exists lvl. split; [exact Hlvl|]. split.
      + intros Hc. rewrite Hlast in Hlvl by lia. congruence.
      + intros Hr. rewrite Z.min_l in Hlvl by lia. exact Hlvl.
    - destruct (Z.leb_spec (- n) (Z.min skill_level (n - 1))) as [H1|H1];
        [|lia].
      destruct (lookup_lt_is_Some_2 lvls
                  (Z.to_nat (n + Z.min skill_level (n - 1)))) as [lvl Hlvl].
      { simpl. lia. }
      exists lvl. split; [exact Hlvl|]. split.
      + intros Hc. rewrite Hlast in Hlvl by lia. congruence.
      + intros Hr. lia. }
  assert (Hinit : Skill.init lvls skill_level
                  = level ← Py.index lvls (Z.min skill_level (n - 1));
                    Some (Skill.mk lvls (Z.min skill_level (n - 1))
                            (SkillLevel.init_sp level) 0 false 0%Q 0))
    by reflexivity.
  split.
  - split.
    + intros Hlt. rewrite Hinit. unfold Py.index. fold n.
      destruct (Z.leb_spec 0 (Z.min skill_level (n - 1))); [lia|].
      destruct (Z.leb_spec (- n) (Z.min skill_level (n - 1))); [lia|].
      reflexivity.
    + intros Hnone. destruct (Z.lt_ge_cases skill_level (- n)) as [|Hge];
        [assumption|].
      destruct (Hsome Hge) as (lvl & Hi & _).
      rewrite Hinit, Hi in Hnone. discriminate.
  - intros Hge. destruct (Hsome Hge) as (lvl & Hi & Hl1 & Hl2).
    eexists. exists lvl. rewrite Hinit, Hi. simpl.
    split; [reflexivity|]. split; [exact Hi|].
    repeat (split; [reflexivity|]). split; assumption.
Qed.

Lemma X1_witness_volley_banks_three_charges :
  exists s',
    Skill._gain_sp Scenario.volley_skill 5%Q = Some s'
    /\ Skill.get_current_level s' = Some Scenario.volley
    /\ Skill.is_active s' = Skill.is_active Scenario.volley_skill
    /\ (SkillLevel.max_charge_time Scenario.volley <= 1 ->
        Skill.current_sp s'
        = Qmin (Skill.current_sp Scenario.volley_skill + 5)
            (SkillLevel.sp_cost Scenario.volley)
        /\ (Skill.current_sp s' <= SkillLevel.sp_cost Scenario.volley)%Q
        /\ Skill.charge_count s' = Skill.charge_count Scenario.volley_skill)
    /\ (1 < SkillLevel.max_charge_time Scenario.volley ->
        (Skill.current_sp s'
         + SkillLevel.sp_cost Scenario.volley
           * inject_Z (Skill.charge_count s'
                       - Skill.charge_count Scenario.volley_skill)
         == Skill.current_sp Scenario.volley_skill + 5)%Q
        /\ Skill.charge_count Scenario.volley_skill <= Skill.charge_count s'
        /\ (Skill.charge_count Scenario.volley_skill
              <= SkillLevel.max_charge_time Scenario.volley ->
            Skill.charge_count s'
              <= SkillLevel.max_charge_time Scenario.volley)
        /\ ((Skill.current_sp s' < SkillLevel.sp_cost Scenario.volley)%Q
            \/ SkillLevel.max_charge_time Scenario.volley
                 <= Skill.charge_count s')).
Proof.
  apply (X1_gain_sp_conserves_and_caps
           Scenario.volley_skill Scenario.volley 5%Q).
  reflexivity.
Defined.

Lemma X2_witness_ready_skill_activates :
  exists b s',
    Skill.activate Scenario.timed_skill = Some (b, s')
    /\ Skill.can_activate Scenario.timed_skill = Some b
    /\ (SkillLevel.skill_type Scenario.five_seconds = PASSIVE -> b = false)
    /\ (b = false -> s' = Scenario.timed_skill)
    /\ (b = true ->
        Skill.is_active s' = true
        /\ Skill.get_current_level s' = Some Scenario.five_seconds
        /\ (1 < SkillLevel.max_charge_time Scenario.five_seconds ->
            Skill.charge_count s'
              = Skill.charge_count Scenario.timed_skill - 1
            /\ Skill.current_sp s' = Skill.current_sp Scenario.timed_skill)
        /\ (SkillLevel.max_charge_time Scenario.five_seconds <= 1 ->
            Skill.current_sp s' = 0%Q
            /\ Skill.charge_count s'
                 = Skill.charge_count Scenario.timed_skill)).
Proof.
  apply (X2_activate_iff_can_activate
           Scenario.timed_skill Scenario.five_seconds).
  reflexivity.
Defined.

Lemma X3_witness_three_shots :
  (forall dt, Skill.update_duration Scenario.volley_firing dt
              = Some Scenario.volley_firing)
  /\ exists s',
       Skill.consume_many 3 Scenario.volley_firing
         = Some ([true; true; false], s')
       /\ Skill.is_active s' = false
       /\ Skill.remaining_ammo s' = 0
       /\ Skill.consume_ammo s' = Some (true, s').
Proof.
  apply (X3_ammo_skill_lasts_for_its_shots 2
           Scenario.volley_firing Scenario.volley);
    reflexivity.
Defined.

(** ** Entities: damage, healing, buffs *)

(** Every hit takes at least one point, whatever the defence. *)
Lemma actual_damage_positive (e : GameEntity.t) (d : Z) (a : bool) :
  1 <= GameEntity.actual_damage e d a.
Proof. unfold GameEntity.actual_damage. destruct a; lia. Qed.

(** An entity at 0 HP that is marked dead stays so under further hits. *)
Lemma take_hits_dead (hits : list (Z * bool)) :
  forall e,
    GameEntity.current_hp e = 0 -> GameEntity.is_alive e = false ->
    GameEntity.current_hp (GameEntity.take_hits e hits) = 0
    /\ GameEntity.is_alive (GameEntity.take_hits e hits) = false.
Proof.
  induction hits as [|h hits IH]; intros e Hhp Hal; [auto|].
  unfold GameEntity.take_hits. cbn [fold_left].
  apply IH.
  - simpl. pose proof (actual_damage_positive e h.1 h.2). lia.
  - simpl. pose proof (actual_damage_positive e h.1 h.2).
    destruct (Z.leb_spec (Z.max 0 (GameEntity.current_hp e
                - GameEntity.actual_damage e h.1 h.2)) 0); [reflexivity|lia].
Qed.

(** X5. Since a hit always takes at least one point, any run of hits at
    least as long as the entity's HP (and not empty) kills it, whatever the
    attack values, the defence and the resistance: HP ends at 0 and
    [is_alive] is off.  [heal] afterwards raises the HP again but never
    turns [is_alive] back on. *)
Theorem X5_enough_hits_kill_and_heal_never_revives
    (hits : list (Z * bool)) :
  forall e : GameEntity.t,
    Z.max 1 (GameEntity.current_hp e) <= Z.of_nat (length hits) ->
    GameEntity.current_hp (GameEntity.take_hits e hits) = 0
    /\ GameEntity.is_alive (GameEntity.take_hits e hits) = false
    /\ forall amount,
         GameEntity.is_alive
           (GameEntity.heal (GameEntity.take_hits e hits) amount).2 = false
         /\ GameEntity.current_hp
              (GameEntity.heal (GameEntity.take_hits e hits) amount).2
            = Z.min (GameEntity.max_hp e) amount.
Proof.
  assert (Hmax : forall (hits : list (Z * bool)) e,
             GameEntity.max_hp (GameEntity.take_hits e hits)
             = GameEntity.max_hp e).
  { clear. induction hits as [|h hits IH]; intros e; [reflexivity|].
    unfold GameEntity.take_hits. cbn [fold_left].
    etransitivity; [apply IH|]. reflexivity. }
  assert (Hmain : forall (hits : list (Z * bool)) e,
             Z.max 1 (GameEntity.current_hp e) <= Z.of_nat (length hits) ->
             GameEntity.current_hp (GameEntity.take_hits e hits) = 0
             /\ GameEntity.is_alive (GameEntity.take_hits e hits) = false).
  { clear. induction hits as [|h hits IH]; intros e Hlen.
    { simpl in Hlen. lia. }
    unfold GameEntity.take_hits. cbn [fold_left].
    pose proof (actual_damage_positive e h.1 h.2) as Hpos.
    destruct (Z.leb_spec (Z.max 0 (GameEntity.current_hp e
                 - GameEntity.actual_damage e h.1 h.2)) 0) as [Hz|Hz].
    - apply take_hits_dead.
      + simpl. lia.
      + simpl. destruct (Z.leb_spec (Z.max 0 (GameEntity.current_hp e
                 - GameEntity.actual_damage e h.1 h.2)) 0); [reflexivity|lia].
    - apply IH. simpl. simpl in Hlen. lia. }
  intros e Hlen. destruct (Hmain hits e Hlen) as [Hhp Hal].
  split; [exact Hhp|]. split; [exact Hal|]. intros amount.
  unfold GameEntity.heal. simpl. rewrite Hal, Hhp, Hmax. auto.
Qed.

(** A buff that is no longer active is not touched by [update]. *)
Lemma buff_update_inactive (b : Buff.t) (dt : Q) :
  Buff.is_active b = false -> Buff.update b dt = b.
Proof. intros H. unfold Buff.update. rewrite H. reflexivity. Qed.



Lemma qle_bool_false (x y : Q) : Qle_bool x y = false <-> (y < x)%Q.
Proof.
  split.
  - intros H. apply Qnot_le_lt. intros Hle. apply Qle_bool_iff in Hle.
    congruence.
  - intros H. destruct (Qle_bool x y) eqn:E; [|reflexivity].
    apply Qle_bool_iff in E. lra.
Qed.



(** One [update_buffs] pass after another keeps the buffs that are still
    active after both updates. *)
Lemma step_buffs_run (dts : list Q) :
  forall (bs : list Buff.t) (dt : Q),
    fold_left GameEntity.step_buffs dts (GameEntity.step_buffs bs dt)
    = List.filter Buff.is_active
        (List.map (fun b => Buff.run b (dt :: dts)) bs).
Proof.
  induction dts as [|dt' dts IH]; intros bs dt; [reflexivity|].
  cbn [fold_left]. 
  assert (Hc : GameEntity.step_buffs (GameEntity.step_buffs bs dt) dt'
               = GameEntity.step_buffs
                   (List.map (fun b => Buff.update b dt) bs) dt').
  { unfold GameEntity.step_buffs.
    induction bs as [|b bs IHb]; [reflexivity|]. cbn [List.map List.filter].
    destruct (Buff.is_active (Buff.update b dt)) eqn:E.
    - cbn [List.map List.filter]. rewrite IHb. reflexivity.
    - rewrite IHb. rewrite (buff_update_inactive _ dt' E), E. reflexivity. }
  rewrite Hc, IH. rewrite List.map_map. reflexivity.
Qed.

(** X7. Running [update_buffs] over one or more ticks leaves, in their
    original order, exactly the buffs and debuffs that are still active
    after all of those ticks, each advanced by every tick; nothing else of
    the entity changes. *)
Theorem X7_update_buffs_keeps_the_active (e : GameEntity.t) (dt : Q)
    (dts : list Q) :
  let e' := GameEntity.run_buffs e (dt :: dts) in
  GameEntity.buffs e'
  = List.filter Buff.is_active
      (List.map (fun b => Buff.run b (dt :: dts)) (GameEntity.buffs e))
  /\ GameEntity.debuffs e'
     = List.filter Buff.is_active
         (List.map (fun b => Buff.run b (dt :: dts)) (GameEntity.debuffs e))
  /\ e' = GameEntity.set_buffs e (GameEntity.buffs e') (GameEntity.debuffs e').
Proof.
  cbv zeta.
  assert (H : forall (dts : list Q) (x : GameEntity.t),
             GameEntity.run_buffs x dts
             = GameEntity.set_buffs x
                 (fold_left GameEntity.step_buffs dts (GameEntity.buffs x))
                 (fold_left GameEntity.step_buffs dts (GameEntity.debuffs x))).
  { clear. induction dts as [|d dts IH]; intros x.
    - destruct x; reflexivity.
    - unfold GameEntity.run_buffs. cbn [fold_left].
      fold (GameEntity.run_buffs (GameEntity.update_buffs x d) dts).
      rewrite IH. reflexivity. }
  rewrite (H (dt :: dts) e). cbn [fold_left].
  rewrite !step_buffs_run. simpl. auto.
Qed.

(** ** Enemies: movement along the path *)



(** ** Operators: attack footprint and skill commands *)

(** X9. Once [deploy] has stored the tile position, [position] is no
    longer the class name, so [can_attack] uses the three-tile column
    footprint for every operator: it accepts exactly the targets in the
    operator's column that are one, two or three rows further, whatever the
    class and the direction.  An operator that is not deployed can attack
    nothing. *)
Theorem X9_deployed_operator_reaches_three_rows_ahead
    (o : Operator.t) (p : Position.t) (d : Direction) (target_pos : Position.t) :
  Operator.can_attack (Operator.deploy o p d) target_pos
  = Some ((Position.col target_pos =? Position.col p)
          && (1 <=? Position.row target_pos - Position.row p)
          && (Position.row target_pos - Position.row p <=? 3))
  /\ Operator.can_attack (Operator.retreat (Operator.deploy o p d)) target_pos
     = Some false
  /\ (Operator.is_deployed o = false ->
      Operator.can_attack o target_pos = Some false).
Proof.
  split; [|split].
  - unfold Operator.can_attack, Operator.deploy,
      Operator.get_rotated_attack_range, Operator.position_is,
      Operator.position_truthy. cbn.
    f_equal.
    destruct (Z.eqb_spec (Position.col target_pos - Position.col p) 0);
      destruct (Z.eqb_spec (Position.col target_pos) (Position.col p));
      try lia;
      destruct (Z.eqb_spec (Position.row target_pos - Position.row p) 1);
      destruct (Z.eqb_spec (Position.row target_pos - Position.row p) 2);
      destruct (Z.eqb_spec (Position.row target_pos - Position.row p) 3);
      destruct (Z.leb_spec 1 (Position.row target_pos - Position.row p));
      destruct (Z.leb_spec (Position.row target_pos - Position.row p) 3);
      cbn; try reflexivity; lia.
  - reflexivity.
  - intros H. unfold Operator.can_attack. rewrite H.
    rewrite orb_true_r. reflexivity.
Qed.

(** [set_skills] with the list the operator already has. *)
Lemma set_skills_same (o : Operator.t) :
  Operator.set_skills o (Operator.skills o) = o.
Proof. destruct o; reflexivity. Qed.

(** X10. [activate_skill_by_index].  Without skills, or with an index at
    or past the number of skills, it reports a failure and changes nothing;
    an index below minus the number of skills raises.  Otherwise the index
    addresses a skill the way Python indexes a list, negative indices
    counting from the end; the command succeeds exactly when that skill
    [can_activate], then replacing the skill by its activated state, and it
    otherwise reports the missing SP and changes nothing. *)
Theorem X10_skill_command_by_index (o : Operator.t) (skill_index : Z) :
  let n := Z.of_nat (length (Operator.skills o)) in
  (Operator.skills o = [] ->
   Operator.activate_skill_by_index o skill_index
   = Some (OperationResult.failure_result OperationResult.NoSkills, o))
  /\ (Operator.skills o <> [] -> n <= skill_index ->
      Operator.activate_skill_by_index o skill_index
      = Some (OperationResult.failure_result
                (OperationResult.SkillIndexOutOfRange skill_index
                   (length (Operator.skills o))), o))
  /\ (Operator.skills o <> [] -> skill_index < - n ->
      Operator.activate_skill_by_index o skill_index = None)
  /\ (forall sk lvl,
        - n <= skill_index < n ->
        Py.index (Operator.skills o) skill_index = Some sk ->
        Skill.get_current_level sk = Some lvl ->
        exists r o',
          Operator.activate_skill_by_index o skill_index = Some (r, o')
          /\ Skill.can_activate sk = Some (OperationResult.success r)
          /\ (OperationResult.success r = false ->
              o' = o
              /\ OperationResult.reason r
                 = Some (OperationResult.InsufficientSP
                           (Skill.current_sp sk) (SkillLevel.sp_cost lvl)))
          /\ (OperationResult.success r = true ->
              exists sk',
                Skill.activate sk = Some (true, sk')
                /\ o' = Operator.set_skills o
                          (<[Z.to_nat (if 0 <=? skill_index then skill_index
                                       else n + skill_index) := sk']>
                             (Operator.skills o)))).
Proof.
  intros n. subst n. unfold Operator.activate_skill_by_index.
  split; [intros ->; reflexivity|].
  split.
  { intros Hne Hge. destruct (Operator.skills o) eqn:E; [done|].
    rewrite <- E in *. apply Z.leb_le in Hge. rewrite Hge. reflexivity. }
  split.
  { intros Hne Hlt. destruct (Operator.skills o) eqn:E; [done|].
    rewrite <- E in *.
    destruct (Z.leb_spec (Z.of_nat (length (Operator.skills o))) skill_index);
      [lia|].
    unfold Operator.norm_index.
    destruct (Z.leb_spec 0 skill_index); [lia|]. cbn [andb].
    destruct (Z.leb_spec (- Z.of_nat (length (Operator.skills o)))
                skill_index); [lia|]. reflexivity. }
  intros sk lvl Hr Hidx Hl.
  destruct (Operator.skills o) eqn:E; [simpl in Hr; lia|].
  rewrite <- E in *.
  destruct (Z.leb_spec (Z.of_nat (length (Operator.skills o))) skill_index);
    [lia|].
  assert (Hnorm : Operator.norm_index (Operator.skills o) skill_index
                  = Some (Z.to_nat (if 0 <=? skill_index then skill_index
                                    else Z.of_nat (length (Operator.skills o))
                                         + skill_index))
                  /\ Operator.skills o
                     !! Z.to_nat (if 0 <=? skill_index then skill_index
                                  else Z.of_nat (length (Operator.skills o))
                                       + skill_index) = Some sk).
  { unfold Operator.norm_index. unfold Py.index in Hidx.
    destruct (Z.leb_spec 0 skill_index).
    - destruct (Z.ltb_spec skill_index
                  (Z.of_nat (length (Operator.skills o)))); [|lia].
      auto.
    - cbn [andb].
      destruct (Z.leb_spec (- Z.of_nat (length (Operator.skills o)))
                  skill_index); [|lia].
      destruct (Z.ltb_spec skill_index 0); [|lia]. auto. }
  destruct Hnorm as [Hnorm Hlook]. rewrite Hnorm. cbn [mbind option_bind].
  rewrite Hlook. cbn [mbind option_bind].
  unfold Operator.activate_found.
  assert (Hcan : exists c, Skill.can_activate sk = Some c).
  { unfold Skill.can_activate. rewrite Hl. simpl.
    destruct (SkillLevel.skill_type lvl);
      try (destruct (1 <? SkillLevel.max_charge_time lvl));
      eexists; reflexivity. }
  destruct Hcan as [[|] Hc]; rewrite Hc; cbn [mbind option_bind].
  - assert (Hact : exists sk', Skill.activate sk = Some (true, sk')).
    { unfold Skill.activate. rewrite Hc. simpl. unfold Skill.do_activate.
      rewrite Hl. simpl. eexists. reflexivity. }
    destruct Hact as [sk' Hact]. rewrite Hact. cbn.
    eexists. eexists. split; [reflexivity|]. split; [reflexivity|].
    split; [discriminate|]. intros _. exists sk'. auto.
  - rewrite Hl. cbn.
    eexists. eexists. split; [reflexivity|]. split; [reflexivity|].
    split; [|discriminate]. intros _. split; [|reflexivity].
    rewrite list_insert_id by exact Hlook. apply set_skills_same.
Qed.

Lemma X5_witness_ten_scratches_kill_the_slug :
  let e := Enemy.base Scenario.slug_on_lane in
  let hits := repeat (0, false) 10 in
  GameEntity.current_hp (GameEntity.take_hits e hits) = 0
  /\ GameEntity.is_alive (GameEntity.take_hits e hits) = false
  /\ forall amount,
       GameEntity.is_alive
         (GameEntity.heal (GameEntity.take_hits e hits) amount).2 = false
       /\ GameEntity.current_hp
            (GameEntity.heal (GameEntity.take_hits e hits) amount).2
          = Z.min (GameEntity.max_hp e) amount.
Proof.
  apply (X5_enough_hits_kill_and_heal_never_revives
           (repeat (0, false) 10) (Enemy.base Scenario.slug_on_lane)).
  simpl. lia.
Defined.



(** ** Routes in both movement modes *)

(** A segment, in either mode, ends on its endpoint. *)
Lemma find_path_last (diagonal : bool) (s e : Position.t) :
  last (s :: Route._find_path diagonal s e) = Some e.
Proof.
  destruct diagonal.
  - apply generate_line_path_ends.
  - apply find_path_chain.
Qed.

Lemma last_elem_of {A} (l : list A) (x : A) : last l = Some x -> x ∈ l.
Proof.
  induction l as [|a [|b l] IH]; intros H; [discriminate| |].
  - injection H as ->. left.
  - right. apply IH. exact H.
Qed.

Lemma segments_visits (diagonal : bool) (cps : list Position.t)
    (e : Position.t) :
  forall current,
    last (current :: Route.segments diagonal current cps e) = Some e
    /\ forall c, c ∈ cps ->
         c ∈ current :: Route.segments diagonal current cps e.
Proof.
  induction cps as [|c0 cps IH]; intros current; simpl Route.segments.
  - split; [apply find_path_last|]. intros c Hc. inversion Hc.
  - destruct (IH c0) as [Hl Hv].
    pose proof (find_path_last diagonal current c0) as Hseg.
    rewrite app_comm_cons. split.
    + eapply last_app_chain; eauto.
    + intros c Hc. apply elem_of_app.
      apply elem_of_cons in Hc as [->|Hc].
      * left. apply last_elem_of. exact Hseg.
      * pose proof (Hv c Hc) as Hin. apply elem_of_cons in Hin as [->|Hin].
        -- left. apply last_elem_of. exact Hseg.
        -- right. exact Hin.
Qed.

(** X11. In both movement modes the generated path starts on the route's
    start position, ends on its end position and contains every
    checkpoint. *)
Theorem X11_route_path_start_end_checkpoints (r : Route.data) :
  head (Route._generate_path r) = Some (Route.start_position r)
  /\ last (Route._generate_path r) = Some (Route.end_position r)
  /\ forall c, c ∈ Route.checkpoints r -> c ∈ Route._generate_path r.
Proof.
  unfold Route._generate_path. split; [reflexivity|].
  apply segments_visits.
Qed.

Lemma walk_length (e : Position.t) (n : nat) :
  forall s, Route.gap s e = n -> length (Route.walk n s e) = n.
Proof.
  intros s Hg. rewrite (walk_closed_form e n s Hg).
  rewrite length_app. unfold Route.row_run, Route.col_run.
  rewrite !length_map, !length_seq. unfold Route.gap in Hg. lia.
Qed.

(** The row and column distances summed over the legs of a route. *)
Lemma segments_length (cps : list Position.t) (e : Position.t) :
  forall current,
    length (Route.segments false current cps e)
    = fold_right Nat.add 0%nat
        (List.map (fun ab => Route.gap ab.1 ab.2)
           (zip (current :: cps) (cps ++ [e]))).
Proof.
  induction cps as [|c cps IH]; intros current; simpl Route.segments.
  - unfold Route._find_path. rewrite walk_length by reflexivity.
    simpl. lia.
  - rewrite length_app, IH. unfold Route._find_path.
    rewrite walk_length by reflexivity. reflexivity.
Qed.

(** X12. With diagonal movement disabled the path has one waypoint for the
    start and one for every tile of row or column distance on each leg,
    the legs running from the start through the checkpoints to the end: a
    leg between two equal positions adds no waypoint, and no waypoint is
    added twice where two legs meet. *)
Theorem X12_orthogonal_path_length (r : Route.data) :
  Route.allow_diagonal_move r = false ->
  length (Route._generate_path r)
  = S (fold_right Nat.add 0%nat
         (List.map
            (fun ab =>
               Z.to_nat (Z.abs (Position.row ab.2 - Position.row ab.1)
                         + Z.abs (Position.col ab.2 - Position.col ab.1)))
            (zip (Route.start_position r :: Route.checkpoints r)
                 (Route.checkpoints r ++ [Route.end_position r])))).
Proof.
  intros Hd. unfold Route._generate_path. rewrite Hd. simpl length.
  rewrite segments_length. reflexivity.
Qed.

(** ** The map: tiles and commands *)

(** X13. On a layout whose rows all have the length of the first row,
    [get_tile_at] never raises.  It returns [None] for a position outside
    the map; for a position on the map it reads the layout row counted from
    the bottom (row 0 is the last list of the layout) and returns the tile
    stored under the index found there, or [None] when [tiles] has no such
    key.  With it, [can_deploy_at] and [deploy_operator] return for every
    known operator. *)
Theorem X13_tile_lookup_on_rectangular_layout
    (m : GameMap.t) (p : Position.t) :
  Forall (fun r : list Z => Z.of_nat (length r) = GameMap.cols m)
    (Level.map_layout (GameMap.level m)) ->
  (GameMap.is_valid_position m p = false ->
   GameMap.get_tile_at m p = Some None)
  /\ (GameMap.is_valid_position m p = true ->
      exists (r : list Z) (k : Z),
        Level.map_layout (GameMap.level m)
          !! Z.to_nat (GameMap.rows m - 1 - Position.row p) = Some r
        /\ r !! Z.to_nat (Position.col p) = Some k
        /\ GameMap.get_tile_at m p
           = Some ((fun tile => (k, tile)) <$> GameMap.tiles m !! k))
  /\ forall oid d,
       is_Some (GameMap.operators m !! oid) ->
       is_Some (GameMap.can_deploy_at m p oid)
       /\ is_Some (GameMap.deploy_operator m oid p d).
Proof.
  intros Hrect.
  assert (Hinv : GameMap.is_valid_position m p = false ->
                 GameMap.get_tile_at m p = Some None).
  { intros H. unfold GameMap.get_tile_at. rewrite H. reflexivity. }
  assert (Hval : GameMap.is_valid_position m p = true ->
      exists (r : list Z) (k : Z),
        Level.map_layout (GameMap.level m)
          !! Z.to_nat (GameMap.rows m - 1 - Position.row p) = Some r
        /\ r !! Z.to_nat (Position.col p) = Some k
        /\ GameMap.get_tile_at m p
           = Some ((fun tile => (k, tile)) <$> GameMap.tiles m !! k)).
  { intros H. unfold GameMap.get_tile_at. rewrite H. cbn [negb].
    unfold GameMap.is_valid_position in H.
    rewrite !andb_true_iff, !Z.leb_le, !Z.ltb_lt in H.
    destruct H as [[[H1 H2] H3] H4].
    destruct (lookup_lt_is_Some_2 (Level.map_layout (GameMap.level m))
                (Z.to_nat (GameMap.rows m - 1 - Position.row p)))
      as [r Hr].
    { unfold GameMap.rows in *. lia. }
    pose proof (proj1 (Forall_lookup _ _) Hrect _ _ Hr) as Hlen.
    simpl in Hlen.
    destruct (lookup_lt_is_Some_2 r (Z.to_nat (Position.col p)))
      as [k Hk]; [lia|].
    exists r, k. rewrite Hr. cbn [mbind option_bind]. rewrite Hk.
    cbn [mbind option_bind]. split; [reflexivity|]. split; [reflexivity|].
    destruct (GameMap.tiles m !! k); reflexivity. }
  assert (Htot : is_Some (GameMap.get_tile_at m p)).
  { destruct (GameMap.is_valid_position m p) eqn:E.
    - destruct (Hval eq_refl) as (r & k & _ & _ & ->). eauto.
    - rewrite (Hinv eq_refl). eauto. }
  split; [exact Hinv|]. split; [exact Hval|].
  intros oid d [o Ho]. destruct Htot as [tk Htk]. split.
  - unfold GameMap.can_deploy_at. rewrite Ho, Htk. simpl.
    destruct tk as [[k tile]|]; eauto.
  - unfold GameMap.deploy_operator. rewrite Ho, Htk. simpl.
    destruct (negb (GameMap.is_valid_position m p)); [eauto|].
    destruct tk as [[k tile]|]; [|eauto].
    repeat (match goal with
            | |- is_Some (if ?c then _ else _) => destruct c
            | |- is_Some (let '(_, _) := ?x in _) => destruct x
            end; eauto).
Qed.

(** [Py.remove] takes exactly one element out. *)
Lemma remove_length (x : nat) (l l' : list nat) :
  Py.remove x l = Some l' -> length l = S (length l').
Proof.
  revert l'. induction l as [|y l IH]; intros l' H; simpl in H;
    [discriminate|].
  destruct (Nat.eqb x y); [injection H as <-; reflexivity|].
  destruct (Py.remove x l) as [l''|]; simpl in H; [|discriminate].
  injection H as <-. simpl. f_equal. apply IH. reflexivity.
Qed.

Lemma contains_true_elem (x : nat) (l : list nat) :
  Py.contains x l = true <-> x ∈ l.
Proof.
  unfold Py.contains. rewrite existsb_exists. split.
  - intros (y & Hy & Hxy). apply Nat.eqb_eq in Hxy. subst.
    apply list_elem_of_In. exact Hy.
  - intros H. exists x. split; [apply list_elem_of_In; exact H|].
    apply Nat.eqb_refl.
Qed.

(** What [retreat_operator] leaves alone, and what it does to the roster. *)
Lemma retreat_operator_frame (m m' : GameMap.t) (oid : nat) (b : bool) :
  GameMap.retreat_operator m oid = Some (b, m') ->
  GameMap.enemies m' = GameMap.enemies m
  /\ GameMap.current_cost m' = GameMap.current_cost m
  /\ GameMap.game_time m' = GameMap.game_time m
  /\ GameMap.routes m' = GameMap.routes m
  /\ GameMap.next_id m' = GameMap.next_id m
  /\ (b = Py.contains oid (GameMap.deployed_operators m))
  /\ (b = false -> m' = m)
  /\ (b = true ->
      Py.remove oid (GameMap.deployed_operators m)
      = Some (GameMap.deployed_operators m')
      /\ exists o o',
           GameMap.operators m !! oid = Some o
           /\ GameMap.operators m' !! oid = Some (Operator.retreat o')).
Proof.
  unfold GameMap.retreat_operator. intros H.
  destruct (Py.contains oid (GameMap.deployed_operators m)) eqn:Hc;
    cbn [negb] in H.
  - destruct (GameMap.operators m !! oid) as [o|] eqn:Ho; simpl in H;
      [|discriminate].
    destruct (GameMap.free_tile m o) as [m1|] eqn:Hf; simpl in H;
      [|discriminate].
    destruct (Py.remove oid (GameMap.deployed_operators m1)) as [l|] eqn:Hr;
      simpl in H; [|discriminate].
    destruct (GameMap.operators m1 !! oid) as [o'|] eqn:Ho'; simpl in H;
      [|discriminate].
    injection H as <- <-. simpl.
    assert (Hm1 : GameMap.enemies m1 = GameMap.enemies m
                  /\ GameMap.current_cost m1 = GameMap.current_cost m
                  /\ GameMap.game_time m1 = GameMap.game_time m
                  /\ GameMap.routes m1 = GameMap.routes m
                  /\ GameMap.next_id m1 = GameMap.next_id m
                  /\ GameMap.deployed_operators m1
                     = GameMap.deployed_operators m).
    { clear Hr Ho'. unfold GameMap.free_tile, GameMap.remove_operator in Hf.
      inv_step Hf; try discriminate Hf; injection Hf as <-; auto 10. }
    destruct Hm1 as (H1 & H2 & H3 & H4 & H5 & H6).
    repeat (split; [assumption || reflexivity || discriminate|]).
    intros _. rewrite <- H6. split; [exact Hr|].
    exists o, o'. split; [reflexivity|]. apply lookup_insert_eq.
  - injection H as <- <-.
    split; [reflexivity|]. split; [reflexivity|]. split; [reflexivity|].
    split; [reflexivity|]. split; [reflexivity|]. split; [reflexivity|].
    split; [reflexivity|]. intros Hf. discriminate Hf.
Qed.

(** X14. [retreat_operator] on its own.  It returns [True] exactly when
    the operator is in the deployed roster, and otherwise changes nothing.
    A successful retreat takes the first roster entry for the operator out
    and resets the operator object; it gives no cost back, and it does not
    touch any enemy, so an enemy the operator was blocking stays blocked by
    it until the blocking pass of the next [update]. *)
Theorem X14_retreat_on_its_own (m m' : GameMap.t) (oid : nat) (b : bool) :
  GameMap.retreat_operator m oid = Some (b, m') ->
  (b = true <-> oid ∈ GameMap.deployed_operators m)
  /\ (b = false -> m' = m)
  /\ GameMap.current_cost m' = GameMap.current_cost m
  /\ GameMap.enemies m' = GameMap.enemies m
  /\ (forall eid, GameMap.blocks m oid eid -> GameMap.blocks m' oid eid)
  /\ (b = true ->
      length (GameMap.deployed_operators m)
      = S (length (GameMap.deployed_operators m'))
      /\ exists o,
           GameMap.operators m' !! oid = Some o
           /\ Operator.is_deployed o = false
           /\ Operator.position o = PosNone
           /\ Operator.blocked_enemies o = []).
Proof.
  intros H.
  destruct (retreat_operator_frame _ _ _ _ H)
    as (He & Hc & _ & _ & _ & Hb & Hsame & Hok).
  split.
  { rewrite Hb. apply contains_true_elem. }
  split; [exact Hsame|]. split; [exact Hc|]. split; [exact He|].
  split.
  { intros eid. unfold GameMap.blocks. rewrite He. auto. }
  intros Ht. destruct (Hok Ht) as (Hr & o & o' & _ & Ho').
  split; [apply (remove_length _ _ _ Hr)|].
  eexists. split; [exact Ho'|]. repeat split.
Qed.

Lemma X12_witness_two_checkpoint_route :
  length (Route._generate_path Scenario.straight)
  = S (fold_right Nat.add 0%nat
         (List.map
            (fun ab =>
               Z.to_nat (Z.abs (Position.row ab.2 - Position.row ab.1)
                         + Z.abs (Position.col ab.2 - Position.col ab.1)))
            (zip (Route.start_position Scenario.straight
                    :: Route.checkpoints Scenario.straight)
                 (Route.checkpoints Scenario.straight
                    ++ [Route.end_position Scenario.straight])))).
Proof.
  apply (X12_orthogonal_path_length Scenario.straight). reflexivity.
Defined.

Lemma X13_witness_lane_lookup :
  (GameMap.is_valid_position Scenario.start (Position.mk 0 1) = false ->
   GameMap.get_tile_at Scenario.start (Position.mk 0 1) = Some None)
  /\ (GameMap.is_valid_position Scenario.start (Position.mk 0 1) = true ->
      exists (r : list Z) (k : Z),
        Level.map_layout (GameMap.level Scenario.start)
          !! Z.to_nat (GameMap.rows Scenario.start - 1
                       - Position.row (Position.mk 0 1)) = Some r
        /\ r !! Z.to_nat (Position.col (Position.mk 0 1)) = Some k
        /\ GameMap.get_tile_at Scenario.start (Position.mk 0 1)
           = Some ((fun tile => (k, tile))
                     <$> GameMap.tiles Scenario.start !! k))
  /\ forall oid d,
       is_Some (GameMap.operators Scenario.start !! oid) ->
       is_Some (GameMap.can_deploy_at Scenario.start (Position.mk 0 1) oid)
       /\ is_Some (GameMap.deploy_operator Scenario.start oid
                     (Position.mk 0 1) d).
Proof.
  apply (X13_tile_lookup_on_rectangular_layout Scenario.start
           (Position.mk 0 1)).
  repeat constructor.
Defined.

Lemma X14_witness_guard_leaves :
  exists b m',
    GameMap.retreat_operator Scenario.guard_placed 0%nat = Some (b, m')
    /\ (b = true <-> 0%nat ∈ GameMap.deployed_operators Scenario.guard_placed)
    /\ (b = false -> m' = Scenario.guard_placed)
    /\ GameMap.current_cost m' = GameMap.current_cost Scenario.guard_placed
    /\ GameMap.enemies m' = GameMap.enemies Scenario.guard_placed
    /\ (forall eid, GameMap.blocks Scenario.guard_placed 0%nat eid ->
                    GameMap.blocks m' 0%nat eid)
    /\ (b = true ->
        length (GameMap.deployed_operators Scenario.guard_placed)
        = S (length (GameMap.deployed_operators m'))
        /\ exists o,
             GameMap.operators m' !! 0%nat = Some o
             /\ Operator.is_deployed o = false
             /\ Operator.position o = PosNone
             /\ Operator.blocked_enemies o = []).
Proof.
  destruct (GameMap.retreat_operator Scenario.guard_placed 0%nat)
    as [[b m']|] eqn:E.
  - exists b, m'. split; [reflexivity|].
    apply (X14_retreat_on_its_own Scenario.guard_placed m' 0%nat b E).
  - vm_compute in E. discriminate E.
Defined.

(** ** What a tick leaves alone *)

(** A projection of the world that [spawn_enemy] keeps is kept by every
    level of the wave scheduler. *)
Section WaveFrame.
Context {B : Type} (f : GameMap.t -> B).
Hypothesis spawn_keeps :
  forall m key ri m', GameMap.spawn_enemy m key ri = Some m' -> f m' = f m.

Lemma action_tick_proj dt (m m' : GameMap.t) a a' :
  GameMap.action_tick dt m a = Some (m', a') -> f m' = f m.
Proof.
  unfold GameMap.action_tick. intros H.
  inv_step H; try discriminate H; injection H as <- <-;
    try reflexivity.
  eapply spawn_keeps; eauto.
Qed.

Lemma actions_tick_proj dt (l : list WaveAction.t) :
  forall (m m' : GameMap.t) l',
    GameMap.actions_tick dt m l = Some (m', l') -> f m' = f m.
Proof.
  induction l as [|a l IH]; intros m m' l' H; simpl in H.
  - injection H as <- <-. reflexivity.
  - destruct (GameMap.action_tick dt m a) as [[m1 a1]|] eqn:E1; simpl in H;
      [|discriminate].
    destruct (GameMap.actions_tick dt m1 l) as [[m2 l2]|] eqn:E2;
      simpl in H; [|discriminate].
    injection H as <- <-.
    rewrite (IH _ _ _ E2). eapply action_tick_proj; eauto.
Qed.

Lemma fragment_tick_proj dt wt (m m' : GameMap.t) fr fr' :
  GameMap.fragment_tick dt wt m fr = Some (m', fr') -> f m' = f m.
Proof.
  unfold GameMap.fragment_tick. intros H.
  inv_step H; try discriminate H; injection H as <- <-;
    try reflexivity.
  all: destruct p as [m1 l1]; eapply actions_tick_proj; eauto.
Qed.

Lemma fragments_tick_proj dt wt (l : list WaveFragment.t) :
  forall (m m' : GameMap.t) l',
    GameMap.fragments_tick dt wt m l = Some (m', l') -> f m' = f m.
Proof.
  induction l as [|a l IH]; intros m m' l' H; simpl in H.
  - injection H as <- <-. reflexivity.
  - destruct (GameMap.fragment_tick dt wt m a) as [[m1 a1]|] eqn:E1;
      simpl in H; [|discriminate].
    destruct (GameMap.fragments_tick dt wt m1 l) as [[m2 l2]|] eqn:E2;
      simpl in H; [|discriminate].
    injection H as <- <-.
    rewrite (IH _ _ _ E2). eapply fragment_tick_proj; eauto.
Qed.

Hypothesis waves_free : forall m x i, f (GameMap.set_waves m x i) = f m.

Lemma update_waves_proj (m m' : GameMap.t) dt :
  GameMap._update_waves m dt = Some m' -> f m' = f m.
Proof.
  unfold GameMap._update_waves. intros H.
  destruct (length (GameMap.waves m) <=? GameMap.current_wave_index m)%nat;
    [injection H as <-; reflexivity|].
  destruct (GameMap.waves m !! GameMap.current_wave_index m) as [w|];
    simpl in H; [|discriminate].
  destruct (GameMap.fragments_tick dt (Wave.current_time w + dt)%Q m
              (Wave.fragments w)) as [[m1 l1]|] eqn:E; simpl in H;
    [|discriminate].
  injection H as <-. rewrite waves_free.
  eapply fragments_tick_proj; eauto.
Qed.
End WaveFrame.

(** The fields of the ledger without the identifier counter. *)
Lemma spawn_enemy_static (m : GameMap.t) key ri (m' : GameMap.t) :
  GameMap.spawn_enemy m key ri = Some m' ->
  (GameMap.level m', GameMap.routes m', GameMap.current_cost m',
   GameMap.game_time m')
  = (GameMap.level m, GameMap.routes m, GameMap.current_cost m,
     GameMap.game_time m).
Proof.
  unfold GameMap.spawn_enemy. intros H.
  inv_step H; try discriminate H; injection H as <-; reflexivity.
Qed.

Lemma operator_tick_ledger dt (m m' : GameMap.t) oid :
  GameMap.operator_tick dt m oid = Some m' ->
  GameMap.ledger m' = GameMap.ledger m.
Proof.
  unfold GameMap.operator_tick. intros H.
  inv_step H; try discriminate H; injection H as <-; [|reflexivity].
  destruct p as [b m1]. pose proof (retreat_operator_outcome _ _ _ _ E2)
    as (_ & _ & Hl).
  apply retreat_operator_frame in E2.
  destruct E2 as (_ & Hc & Ht & Hr & Hn & _).
  unfold GameMap.ledger. simpl in *. congruence.
Qed.

Lemma enemy_tick_ledger dt (m m' : GameMap.t) eid :
  GameMap.enemy_tick dt m eid = Some m' ->
  GameMap.ledger m' = GameMap.ledger m.
Proof.
  unfold GameMap.enemy_tick. intros H.
  inv_step H; try discriminate H; injection H as <-;
    repeat case_match; reflexivity.
Qed.

Lemma process_combat_ledger (m m' : GameMap.t) :
  GameMap._process_combat m = Some m' ->
  GameMap.ledger m' = GameMap.ledger m.
Proof.
  unfold GameMap._process_combat. intros H.
  destruct (Py.foldM GameMap.operator_attack m (GameMap.deployed_operators m))
    as [m1|] eqn:E1; simpl in H; [|discriminate].
  rewrite (foldM_same GameMap.ledger GameMap.enemy_attack _
             ltac:(intros s a s' Hs; unfold GameMap.enemy_attack in Hs;
                   inv_step Hs; try discriminate Hs; injection Hs as <-;
                   reflexivity) _ _ H).
  apply (foldM_same GameMap.ledger GameMap.operator_attack _
           ltac:(intros s a s' Hs; unfold GameMap.operator_attack in Hs;
                 inv_step Hs; try discriminate Hs; injection Hs as <-;
                 reflexivity) _ _ E1).
Qed.

Lemma process_blocking_ledger (m m' : GameMap.t) :
  GameMap._process_blocking m = Some m' ->
  GameMap.ledger m' = GameMap.ledger m.
Proof.
  unfold GameMap._process_blocking. intros H.
  destruct (Py.foldM GameMap.block_step m (GameMap.active_enemies m))
    as [m1|] eqn:E1; simpl in H; [|discriminate].
  destruct (Py.foldM GameMap.purge_step m1 (GameMap.deployed_operators m1))
    as [m2|] eqn:E2; simpl in H; [|discriminate].
  rewrite (foldM_same GameMap.ledger GameMap.release_step _
             ltac:(intros s a s' Hs; unfold GameMap.release_step in Hs;
                   inv_step Hs; try discriminate Hs; injection Hs as <-;
                   reflexivity) _ _ H).
  rewrite (foldM_same GameMap.ledger GameMap.purge_step _
             ltac:(intros s a s' Hs; unfold GameMap.purge_step in Hs;
                   inv_step Hs; try discriminate Hs; injection Hs as <-;
                   reflexivity) _ _ E2).
  apply (foldM_same GameMap.ledger GameMap.block_step _
           ltac:(intros s a s' Hs; unfold GameMap.block_step in Hs;
                 inv_step Hs; try discriminate Hs; injection Hs as <-;
                 reflexivity) _ _ E1).
Qed.

(** The passes of a tick, as far as the ledger goes. *)
Lemma update_ledger (m m' : GameMap.t) dt :
  GameMap.update m dt = Some m' ->
  exists inc,
    Py.div dt (Level.cost_increase_time (GameMap.level m)) = Some inc
    /\ GameMap.level m' = GameMap.level m
    /\ GameMap.routes m' = GameMap.routes m
    /\ GameMap.current_cost m'
       = Qmin (Level.max_cost (GameMap.level m)) (GameMap.current_cost m + inc)
    /\ GameMap.game_time m' = (GameMap.game_time m + dt)%Q.
Proof.
  intros H.
  destruct (update_inv _ _ _ H)
    as (inc & m2 & m3 & m4 & m5 & m6 & E0 & E2 & E3 & E4 & E5 & E6 & ->).
  cbv zeta in E2.
  exists inc. split; [exact E0|].
  apply (foldM_same GameMap.ledger _ _
           (fun s a s' => operator_tick_ledger dt s s' a)) in E2.
  apply (foldM_same GameMap.ledger _ _
           (fun s a s' => enemy_tick_ledger dt s s' a)) in E3.
  apply process_combat_ledger in E4. apply process_blocking_ledger in E5.
  apply (update_waves_proj
           (fun x => (GameMap.level x, GameMap.routes x,
                      GameMap.current_cost x, GameMap.game_time x))
           spawn_enemy_static ltac:(reflexivity)) in E6.
  assert (Hm6 : (GameMap.level m6, GameMap.routes m6,
                 GameMap.current_cost m6, GameMap.game_time m6)
                = (GameMap.level m, GameMap.routes m,
                   Qmin (Level.max_cost (GameMap.level m))
                     (GameMap.current_cost m + inc),
                   (GameMap.game_time m + dt)%Q)).
  { rewrite E6. unfold GameMap.ledger in *. simpl in *. congruence. }
  injection Hm6 as H1 H2 H3 H4.
  destruct (GameMap.victory_condition m6); simpl; auto.
Qed.

(** X15. What a tick does to the clock and the budget.  A tick on a level
    whose cost-increase time is 0 raises.  A tick that returns has advanced
    [game_time] by the step and set the cost to the old cost plus the step
    divided by the cost-increase time, capped at the level's maximum cost;
    nothing that happens during the tick, such as the retreat of a dead
    operator or a kill, pays anything back or adds anything, and the level
    data and the routes stay as they are. *)
Theorem X15_tick_clock_and_budget (m : GameMap.t) (delta_time : Q) :
  (Level.cost_increase_time (GameMap.level m) == 0 ->
   GameMap.update m delta_time = None)%Q
  /\ forall m',
       GameMap.update m delta_time = Some m' ->
       ~ (Level.cost_increase_time (GameMap.level m) == 0)%Q
       /\ GameMap.game_time m' = (GameMap.game_time m + delta_time)%Q
       /\ GameMap.current_cost m'
          = Qmin (Level.max_cost (GameMap.level m))
              (GameMap.current_cost m
               + delta_time / Level.cost_increase_time (GameMap.level m))
       /\ (GameMap.current_cost m' <= Level.max_cost (GameMap.level m))%Q
       /\ GameMap.level m' = GameMap.level m
       /\ GameMap.routes m' = GameMap.routes m.
Proof.
  split.
  - intros Hz. unfold GameMap.update. simpl. unfold Py.div.
    apply Qeq_bool_iff in Hz. rewrite Hz. reflexivity.
  - intros m' H. destruct (update_ledger _ _ _ H)
      as (inc & Hd & Hl & Hr & Hc & Ht).
    unfold Py.div in Hd.
    destruct (Qeq_bool (Level.cost_increase_time (GameMap.level m)) 0)
      eqn:Hz; [discriminate|]. injection Hd as <-.
    split.
    { intros Heq. apply Qeq_bool_iff in Heq. congruence. }
    split; [exact Ht|]. split; [exact Hc|].
    split; [rewrite Hc; apply Q.le_min_l|]. auto.
Qed.

(** ** Invariants of a run *)

(** The deployed roster never grows during a tick. *)
Lemma operator_tick_roster dt (m m' : GameMap.t) oid :
  GameMap.operator_tick dt m oid = Some m' ->
  (length (GameMap.deployed_operators m')
   <= length (GameMap.deployed_operators m))%nat.
Proof.
  unfold GameMap.operator_tick. intros H.
  inv_step H; try discriminate H; injection H as <-; [|simpl; lia].
  destruct p as [b m1]. apply retreat_operator_frame in E2.
  destruct E2 as (_ & _ & _ & _ & _ & _ & Hsame & Hok). simpl in *.
  destruct b.
  - destruct (Hok eq_refl) as [Hr _]. apply remove_length in Hr.
    simpl in Hr. lia.
  - rewrite (Hsame eq_refl). simpl. lia.
Qed.

Lemma update_roster_shrinks (m m' : GameMap.t) dt :
  GameMap.update m dt = Some m' ->
  (length (GameMap.deployed_operators m')
   <= length (GameMap.deployed_operators m))%nat.
Proof.
  intros H.
  destruct (update_inv _ _ _ H)
    as (inc & m2 & m3 & m4 & m5 & m6 & _ & E2 & E3 & E4 & E5 & E6 & ->).
  cbv zeta in E2.
  assert (H2 : (length (GameMap.deployed_operators m2)
                <= length (GameMap.deployed_operators m))%nat).
  { refine (foldM_preserve
              (fun x => (length (GameMap.deployed_operators x)
                         <= length (GameMap.deployed_operators m))%nat)
              _ _ _ _ _ E2 _); [|simpl; lia].
    intros s a s' _ Hs Hle. apply operator_tick_roster in Hs. lia. }
  pose proof (enemy_loop_frame _ _ _ _ E3) as (_ & _ & _ & _ & _ & _ & D3 & _).
  apply process_combat_outcome in E4. destruct E4 as (_ & _ & D4 & _).
  apply process_blocking_outcome in E5. destruct E5 as (_ & _ & D5 & _).
  destruct (update_waves_spawned _ _ _ E6) as (_ & _ & _ & _ & D6 & _).
  assert (GameMap.deployed_operators m6 = GameMap.deployed_operators m2)
    by congruence.
  destruct (GameMap.victory_condition m6); simpl; congruence.
Qed.

Lemma step_level (m m' : GameMap.t) :
  GameMap.step m m' -> GameMap.level m' = GameMap.level m.
Proof.
  intros [oid p d r H|oid b H|oid i r H|dt H].
  - apply deploy_operator_outcome in H. tauto.
  - apply retreat_operator_outcome in H. tauto.
  - apply activate_skill_outcome in H. tauto.
  - apply update_ledger in H. destruct H as (inc & _ & Hl & _). exact Hl.
Qed.

Lemma step_roster_limit (m m' : GameMap.t) :
  GameMap.step m m' ->
  Z.of_nat (length (GameMap.deployed_operators m))
    <= Z.max 0 (Level.character_limit (GameMap.level m)) ->
  Z.of_nat (length (GameMap.deployed_operators m'))
    <= Z.max 0 (Level.character_limit (GameMap.level m')).
Proof.
  intros Hs Hj. rewrite (step_level _ _ Hs).
  destruct Hs as [oid p d r H|oid b H|oid i r H|dt H].
  - destruct (OperationResult.success r) eqn:Hr.
    + destruct (deploy_success_inv _ _ _ _ _ _ H Hr)
        as (o & k & tile & _ & _ & _ & _ & _ & Hlim & _ & ->).
      simpl. rewrite length_app. simpl. apply Z.leb_gt in Hlim. lia.
    + destruct (deploy_failure_inv _ _ _ _ _ _ H Hr) as [-> _]. exact Hj.
  - apply retreat_operator_frame in H.
    destruct H as (_ & _ & _ & _ & _ & _ & Hsame & Hok).
    destruct b.
    + destruct (Hok eq_refl) as [Hr _]. apply remove_length in Hr. lia.
    + rewrite (Hsame eq_refl). exact Hj.
  - unfold GameMap.activate_skill in H.
    inv_step H; try discriminate H; injection H as <- <-. exact Hj.
  - apply update_roster_shrinks in H. lia.
Qed.

(** X16. In every world a run reaches, the number of entries in the
    deployed roster is at most the level's character limit (at most 0 for
    a negative limit): commands and ticks never push it past the limit. *)
Theorem X16_roster_within_character_limit (m : GameMap.t) :
  GameMap.reachable m ->
  Z.of_nat (length (GameMap.deployed_operators m))
    <= Z.max 0 (Level.character_limit (GameMap.level m)).
Proof.
  induction 1 as [lv ds Hds|m m' _ IH Hs].
  - simpl. lia.
  - apply (step_roster_limit m m' Hs IH).
Qed.

(** Once the victory condition holds and the flag is up, no step changes
    anything that decides the outcome. *)
Lemma step_after_victory (m m' : GameMap.t) :
  GameMap.step m m' ->
  GameMap.victory_condition m = true -> GameMap.is_victory m = true ->
  GameMap.outcome m' = GameMap.outcome m.
Proof.
  intros Hs Hc Hv. destruct Hs as [oid p d r H|oid b H|oid i r H|dt H].
  - apply deploy_operator_outcome in H. tauto.
  - apply retreat_operator_outcome in H. tauto.
  - apply activate_skill_outcome in H. tauto.
  - destruct (update_inv _ _ _ H)
      as (inc & m2 & m3 & m4 & m5 & m6 & _ & E2 & E3 & E4 & E5 & E6 & ->).
    cbv zeta in E2.
    apply operator_loop_outcome in E2. destruct E2 as (O2 & _).
    change (GameMap.outcome m2 = GameMap.outcome m) in O2.
    pose proof (proj1 (victory_condition_spec m) Hc) as (Hw & Ha & _).
    assert (A2 : GameMap.active_enemies m2 = [])
      by (unfold GameMap.outcome in O2; congruence).
    rewrite A2 in E3. simpl in E3. injection E3 as <-.
    apply process_combat_outcome in E4. destruct E4 as (O4 & _).
    apply process_blocking_outcome in E5. destruct E5 as (O5 & _).
    assert (O : GameMap.outcome m5 = GameMap.outcome m) by congruence.
    rewrite update_waves_done in E6
      by (unfold GameMap.outcome in O; injection O as -> -> _; exact Hw).
    injection E6 as <-.
    rewrite (victory_condition_outcome _ _ O), Hc.
    unfold GameMap.outcome in *. simpl.
    injection O as -> -> -> -> -> _. rewrite Hv. reflexivity.
Qed.

(** X17. Victory is final.  From a world of a run in which the victory
    flag is set, every later world of the run has the same waves, wave
    index, active roster (empty), life points (positive) and flags: the
    victory flag stays set and defeat is never declared. *)
Theorem X17_victory_is_final (m m' : GameMap.t) :
  GameMap.reachable m ->
  GameMap.is_victory m = true ->
  GameMap.later m m' ->
  GameMap.outcome m' = GameMap.outcome m
  /\ GameMap.is_victory m' = true
  /\ GameMap.is_defeat m' = false
  /\ GameMap.active_enemies m' = []
  /\ 0 < GameMap.current_life_points m'.
Proof.
  intros Hr Hv Hl.
  pose proof (reachable_victory_ok m Hr Hv) as Hc.
  assert (Ho : GameMap.outcome m' = GameMap.outcome m).
  { induction Hl as [|m' m'' Hl IH Hs]; [reflexivity|].
    rewrite <- IH. apply (step_after_victory m' m'' Hs).
    - rewrite (victory_condition_outcome _ _ IH). exact Hc.
    - unfold GameMap.outcome in IH. congruence. }
  split; [exact Ho|].
  apply victory_condition_spec in Hc. destruct Hc as (_ & Ha & Hp & Hd).
  unfold GameMap.outcome in Ho. injection Ho as _ _ -> -> -> ->. auto.
Qed.

Lemma spawn_enemy_waves (m : GameMap.t) key ri (m' : GameMap.t) :
  GameMap.spawn_enemy m key ri = Some m' ->
  (GameMap.waves m', GameMap.current_wave_index m')
  = (GameMap.waves m, GameMap.current_wave_index m).
Proof.
  unfold GameMap.spawn_enemy. intros H.
  inv_step H; try discriminate H; injection H as <-; reflexivity.
Qed.

(** The scheduler keeps the number of waves and moves the index forward by
    at most one, never past the number of waves. *)
Lemma update_waves_index (m m' : GameMap.t) dt :
  GameMap._update_waves m dt = Some m' ->
  length (GameMap.waves m') = length (GameMap.waves m)
  /\ (GameMap.current_wave_index m <= GameMap.current_wave_index m')%nat
  /\ (GameMap.current_wave_index m'
      <= Nat.max (GameMap.current_wave_index m) (length (GameMap.waves m)))%nat.
Proof.
  unfold GameMap._update_waves. intros H.
  destruct (Nat.leb_spec (length (GameMap.waves m))
              (GameMap.current_wave_index m)) as [Hle|Hlt];
    [injection H as <-; lia|].
  destruct (GameMap.waves m !! GameMap.current_wave_index m) as [w|];
    simpl in H; [|discriminate].
  destruct (GameMap.fragments_tick dt (Wave.current_time w + dt)%Q m
              (Wave.fragments w)) as [[m1 l1]|] eqn:E; simpl in H;
    [|discriminate].
  injection H as <-.
  apply (fragments_tick_proj GameMap.waves
           (fun a b c d Hs =>
              f_equal fst (spawn_enemy_waves a b c d Hs))) in E.
  simpl. rewrite length_insert, E.
  destruct (forallb WaveFragment.is_completed l1); lia.
Qed.

Lemma update_wave_index (m m' : GameMap.t) dt :
  GameMap.update m dt = Some m' ->
  length (GameMap.waves m') = length (GameMap.waves m)
  /\ (GameMap.current_wave_index m <= GameMap.current_wave_index m')%nat
  /\ (GameMap.current_wave_index m'
      <= Nat.max (GameMap.current_wave_index m) (length (GameMap.waves m)))%nat.
Proof.
  intros H.
  destruct (update_inv _ _ _ H)
    as (inc & m2 & m3 & m4 & m5 & m6 & _ & E2 & E3 & E4 & E5 & E6 & ->).
  cbv zeta in E2.
  apply operator_loop_outcome in E2. destruct E2 as (O2 & _).
  pose proof (enemy_loop_frame _ _ _ _ E3) as (_ & W3 & I3 & _).
  apply process_combat_outcome in E4. destruct E4 as (O4 & _).
  apply process_blocking_outcome in E5. destruct E5 as (O5 & _).
  apply update_waves_index in E6.
  assert (W : GameMap.waves m5 = GameMap.waves m
              /\ GameMap.current_wave_index m5 = GameMap.current_wave_index m).
  { unfold GameMap.outcome in *. simpl in *. split; congruence. }
  destruct W as [W I]. rewrite W, I in E6.
  destruct (GameMap.victory_condition m6); simpl; exact E6.
Qed.

Lemma step_wave_index (m m' : GameMap.t) :
  GameMap.step m m' ->
  length (GameMap.waves m') = length (GameMap.waves m)
  /\ (GameMap.current_wave_index m <= GameMap.current_wave_index m')%nat
  /\ (GameMap.current_wave_index m'
      <= Nat.max (GameMap.current_wave_index m) (length (GameMap.waves m)))%nat.
Proof.
  intros [oid p d r H|oid b H|oid i r H|dt H].
  - apply deploy_operator_outcome in H as (O & _).
    unfold GameMap.outcome in O. injection O as -> -> _. lia.
  - apply retreat_operator_outcome in H as (O & _).
    unfold GameMap.outcome in O. injection O as -> -> _. lia.
  - apply activate_skill_outcome in H as (O & _).
    unfold GameMap.outcome in O. injection O as -> -> _. lia.
  - apply (update_wave_index _ _ _ H).
Qed.

Lemma reachable_wave_index (m : GameMap.t) :
  GameMap.reachable m ->
  (GameMap.current_wave_index m <= length (GameMap.waves m))%nat
  /\ length (GameMap.waves m)
     = length (Level.wave_data (GameMap.level m)).
Proof.
  induction 1 as [lv ds Hds|m m' _ IH Hs].
  - simpl. split; [lia|reflexivity].
  - rewrite (step_level _ _ Hs).
    destruct (step_wave_index _ _ Hs) as (Hl & _ & Hi). lia.
Qed.

(** X18. Over a run the wave index never goes back and never passes the
    number of waves, and the list of waves keeps the length of the level's
    wave data. *)
Theorem X18_wave_index_monotone_and_bounded (m m' : GameMap.t) :
  GameMap.reachable m ->
  GameMap.later m m' ->
  (GameMap.current_wave_index m <= GameMap.current_wave_index m'
   <= length (GameMap.waves m'))%nat
  /\ length (GameMap.waves m')
     = length (Level.wave_data (GameMap.level m')).
Proof.
  intros Hr Hl.
  destruct (reachable_wave_index m' (later_reachable _ _ Hl Hr)) as [Hi Hw].
  split; [|exact Hw]. split; [|exact Hi].
  clear Hi Hw Hr. induction Hl as [|m' m'' _ IH Hs]; [lia|].
  destruct (step_wave_index _ _ Hs) as (_ & Hi & _). lia.
Qed.

(** *** Lives and enemies *)






Lemma after_ticks_later (n : nat) :
  forall m, GameMap.later m (Scenario.after_ticks n m).
Proof.
  induction n as [|n IH]; intros m; simpl; [constructor|].
  destruct (GameMap.update m (1 # 2)) as [m'|] eqn:E; [|constructor].
  assert (Hl : forall a b, GameMap.later a b -> GameMap.later m a ->
                           GameMap.later m b).
  { intros a b Hab Hma. induction Hab as [|x y _ IHx Hs]; [exact Hma|].
    apply (GameMap.later_step m x y); [exact IHx|exact Hs]. }
  apply (Hl m' _ (IH m')).
  apply (GameMap.later_step m m m'); [constructor|].
  apply (GameMap.step_update m m' (1 # 2) E).
Qed.

Lemma guard_placed_reachable : GameMap.reachable Scenario.guard_placed.
Proof. apply after_deploy_reachable, start_reachable. Qed.

Lemma X16_witness_guard_placed :
  Z.of_nat (length (GameMap.deployed_operators Scenario.guard_placed))
    <= Z.max 0 (Level.character_limit (GameMap.level Scenario.guard_placed)).
Proof.
  apply (X16_roster_within_character_limit Scenario.guard_placed).
  exact guard_placed_reachable.
Defined.

Lemma X17_witness_after_the_slug_is_killed :
  let m := Scenario.after_ticks 1 Scenario.guard_holds in
  let m' := Scenario.after_ticks 3 m in
  GameMap.outcome m' = GameMap.outcome m
  /\ GameMap.is_victory m' = true
  /\ GameMap.is_defeat m' = false
  /\ GameMap.active_enemies m' = []
  /\ 0 < GameMap.current_life_points m'.
Proof.
  apply (X17_victory_is_final
           (Scenario.after_ticks 1 Scenario.guard_holds)
           (Scenario.after_ticks 3
              (Scenario.after_ticks 1 Scenario.guard_holds))).
  - apply after_ticks_reachable, after_ticks_reachable,
      after_deploy_reachable, start_reachable.
  - vm_compute. reflexivity.
  - apply after_ticks_later.
Defined.

Lemma X18_witness_slug_wave :
  let m := Scenario.start in
  let m' := Scenario.after_ticks 4 Scenario.start in
  (GameMap.current_wave_index m <= GameMap.current_wave_index m'
   <= length (GameMap.waves m'))%nat
  /\ length (GameMap.waves m')
     = length (Level.wave_data (GameMap.level m')).
Proof.
  apply (X18_wave_index_monotone_and_bounded
           Scenario.start (Scenario.after_ticks 4 Scenario.start)).
  - exact start_reachable.
  - apply after_ticks_later.
Defined.


(** ** Skills during a tick *)

(** The level data of a skill is never written. *)
Lemma gain_sp_level_levels (lvl : SkillLevel.t) (s : Skill.t) (a : Q) :
  Skill.levels (Skill._gain_sp_level lvl s a) = Skill.levels s
  /\ Skill.current_level (Skill._gain_sp_level lvl s a)
     = Skill.current_level s.
Proof.
  unfold Skill._gain_sp_level.
  destruct (1 <? SkillLevel.max_charge_time lvl); [|split; reflexivity].
  destruct (Skill.bank_charges _ _ _ _ _). split; reflexivity.
Qed.

Lemma banked_ext (s s' : Skill.t) :
  Skill.levels s' = Skill.levels s ->
  Skill.current_level s' = Skill.current_level s ->
  (Skill.banked s <> None ->
   Skill.current_sp s' = Skill.current_sp s
   /\ Skill.charge_count s' = Skill.charge_count s) ->
  Skill.banked s' = Skill.banked s.
Proof.
  intros Hl Hc Hsp. unfold Skill.banked, Skill.get_current_level in *.
  rewrite Hl, Hc.
  destruct (match Skill.levels s with
            | [] => None
            | _ :: _ => Py.index (Skill.levels s) (Skill.current_level s)
            end) as [lvl|]; [|reflexivity].
  destruct (SkillLevel.sp_type lvl), (SkillLevel.skill_type lvl);
    try reflexivity;
    destruct Hsp as [-> ->]; try discriminate; reflexivity.
Qed.

(** One skill through one iteration of [update_skills]. *)
Lemma update_skill_banked (dt : Q) (s s' : Skill.t) :
  Operator.update_skill dt s = Some s' -> Skill.banked s' = Skill.banked s.
Proof.
  unfold Operator.update_skill. intros H.
  destruct (Skill.update_sp s dt) as [s1|] eqn:E1; simpl in H; [|discriminate].
  destruct (Skill.update_duration s1 dt) as [s2|] eqn:E2; simpl in H;
    [|discriminate].
  destruct (Skill.should_auto_activate s2) as [a|] eqn:E3; simpl in H;
    [|discriminate].
  assert (H1 : Skill.levels s1 = Skill.levels s
               /\ Skill.current_level s1 = Skill.current_level s
               /\ (Skill.banked s <> None -> s1 = s)).
  { unfold Skill.update_sp in E1.
    destruct (Skill.levels s) eqn:El; [injection E1 as <-; auto|].
    rewrite <- El in *.
    destruct (Skill.get_current_level s) as [lvl|] eqn:Hl; simpl in E1;
      [|discriminate].
    unfold Skill.banked. rewrite Hl.
    destruct (SkillLevel.sp_type lvl); injection E1 as <-; auto.
    destruct (gain_sp_level_levels lvl s
                (SkillLevel.increment lvl * dt * 1)%Q) as [-> ->].
    split; [reflexivity|]. split; [reflexivity|]. congruence. }
  destruct H1 as (L1 & C1 & S1).
  assert (H2 : Skill.levels s2 = Skill.levels s1
               /\ Skill.current_level s2 = Skill.current_level s1
               /\ Skill.current_sp s2 = Skill.current_sp s1
               /\ Skill.charge_count s2 = Skill.charge_count s1).
  { unfold Skill.update_duration in E2.
    destruct (negb (Skill.is_active s1)); [injection E2 as <-; auto|].
    destruct (Skill.get_current_level s1) as [lvl|]; simpl in E2;
      [|discriminate].
    destruct (SkillLevel.duration_type lvl);
      try (injection E2 as <-; auto).
    destruct (Py.leb _ 0); injection E2 as <-; auto. }
  destruct H2 as (L2 & C2 & P2 & G2).
  assert (B2 : Skill.banked s2 = Skill.banked s).
  { apply banked_ext; [congruence|congruence|].
    intros Hb. rewrite P2, G2, (S1 Hb). auto. }
  destruct a; [|injection H as <-; exact B2].
  (* the skill fires on its own: it is an AUTO skill, which is not banked *)
  assert (Hnone : Skill.banked s2 = None).
  { unfold Skill.banked. unfold Skill.should_auto_activate in E3.
    destruct (Skill.get_current_level s2) as [lvl|]; [|reflexivity].
    simpl in E3.
    destruct (SkillLevel.skill_type lvl); try discriminate.
    destruct (SkillLevel.sp_type lvl); reflexivity. }
  destruct (Operator.activate_found s2) as [r|] eqn:E4; simpl in H;
    [|discriminate].
  injection H as <-. rewrite <- B2, Hnone.
  assert (Hlv : Skill.levels r.2 = Skill.levels s2
                /\ Skill.current_level r.2 = Skill.current_level s2).
  { unfold Operator.activate_found in E4.
    destruct (Skill.can_activate s2) as [c|]; simpl in E4; [|discriminate].
    destruct c.
    - destruct (Skill.activate s2) as [[b s3]|] eqn:Ea; simpl in E4;
        [|discriminate].
      assert (Skill.levels s3 = Skill.levels s2
              /\ Skill.current_level s3 = Skill.current_level s2).
      { unfold Skill.activate, Skill.do_activate in Ea.
        inv_step Ea; try discriminate Ea; injection Ea as <- <-;
          repeat case_match; auto. }
      destruct b; injection E4 as <-; exact H.
    - destruct (Skill.get_current_level s2); simpl in E4; [|discriminate].
      injection E4 as <-. auto. }
  destruct Hlv as [Hl Hc].
  transitivity (Skill.banked s2); [|exact Hnone].
  apply banked_ext; [exact Hl|exact Hc|]. intros Hb. congruence.
Qed.

Lemma mapM_banked (dt : Q) (l : list Skill.t) :
  forall l', mapM (Operator.update_skill dt) l = Some l' ->
             List.map Skill.banked l' = List.map Skill.banked l.
Proof.
  induction l as [|s l IH]; intros l' H.
  - injection H as <-. reflexivity.
  - simpl in H.
    destruct (Operator.update_skill dt s) as [s'|] eqn:E; simpl in H;
      [|discriminate].
    destruct (mapM (Operator.update_skill dt) l) as [l1|] eqn:E1;
      simpl in H; [|discriminate].
    injection H as <-. simpl. rewrite (update_skill_banked _ _ _ E).
    f_equal. apply IH. reflexivity.
Qed.

Lemma operator_update_banked (o o' : Operator.t) (dt : Q) :
  Operator.update o dt = Some o' -> Operator.banked o' = Operator.banked o.
Proof.
  unfold Operator.update. intros H.
  destruct (negb (Operator.is_deployed o)); [injection H as <-; reflexivity|].
  unfold Operator.update_skills in H. simpl in H.
  destruct (mapM (Operator.update_skill dt) (Operator.skills o)) as [ss|] eqn:E;
    simpl in H; [|discriminate].
  injection H as <-. unfold Operator.banked. simpl.
  apply (mapM_banked _ _ _ E).
Qed.

(** Writing back an operator whose banked SP is what the stored one has. *)
Lemma insert_banked (ops : gmap nat Operator.t) (oid : nat)
    (o o' : Operator.t) :
  ops !! oid = Some o -> Operator.banked o' = Operator.banked o ->
  Operator.banked <$> <[oid := o']> ops = Operator.banked <$> ops.
Proof.
  intros Ho Hb. rewrite fmap_insert, Hb. apply insert_id.
  rewrite lookup_fmap, Ho. reflexivity.
Qed.


Ltac banked_frame H :=
  inv_step H; try discriminate H; injection H as <-; simpl;
  try reflexivity;
  try (eapply insert_banked; [eassumption|reflexivity]).

Lemma remove_operator_banked (m m' : GameMap.t) k tile :
  GameMap.remove_operator m k tile = Some m' ->
  Operator.banked <$> GameMap.operators m'
  = Operator.banked <$> GameMap.operators m.
Proof. unfold GameMap.remove_operator. intros H. banked_frame H. Qed.

Lemma free_tile_banked (m m' : GameMap.t) o :
  GameMap.free_tile m o = Some m' ->
  Operator.banked <$> GameMap.operators m'
  = Operator.banked <$> GameMap.operators m.
Proof.
  unfold GameMap.free_tile. intros H.
  inv_step H; try discriminate H.
  - apply remove_operator_banked in H. exact H.
  - injection H as <-. reflexivity.
  - injection H as <-. reflexivity.
Qed.

Lemma retreat_operator_banked (m m' : GameMap.t) oid b :
  GameMap.retreat_operator m oid = Some (b, m') ->
  Operator.banked <$> GameMap.operators m'
  = Operator.banked <$> GameMap.operators m.
Proof.
  unfold GameMap.retreat_operator. intros H.
  inv_step H; try discriminate H; injection H as <- <-; [reflexivity|].
  simpl. apply free_tile_banked in E1. rewrite <- E1.
  eapply insert_banked; [eassumption|reflexivity].
Qed.

Lemma operator_tick_banked dt (m m' : GameMap.t) oid :
  GameMap.operator_tick dt m oid = Some m' ->
  Operator.banked <$> GameMap.operators m'
  = Operator.banked <$> GameMap.operators m.
Proof.
  unfold GameMap.operator_tick. intros H.
  inv_step H; try discriminate H; injection H as <-.
  - destruct p as [b m1]. apply retreat_operator_banked in E2.
    simpl in *. rewrite E2.
    eapply insert_banked; [eassumption|].
    eapply operator_update_banked; eassumption.
  - simpl. eapply insert_banked; [eassumption|].
    eapply operator_update_banked; eassumption.
Qed.

Lemma operator_attack_banked (m m' : GameMap.t) oid :
  GameMap.operator_attack m oid = Some m' ->
  Operator.banked <$> GameMap.operators m'
  = Operator.banked <$> GameMap.operators m.
Proof. unfold GameMap.operator_attack. intros H. banked_frame H. Qed.

Lemma enemy_attack_banked (m m' : GameMap.t) eid :
  GameMap.enemy_attack m eid = Some m' ->
  Operator.banked <$> GameMap.operators m'
  = Operator.banked <$> GameMap.operators m.
Proof. unfold GameMap.enemy_attack. intros H. banked_frame H. Qed.

Lemma block_step_banked (m m' : GameMap.t) eid :
  GameMap.block_step m eid = Some m' ->
  Operator.banked <$> GameMap.operators m'
  = Operator.banked <$> GameMap.operators m.
Proof. unfold GameMap.block_step. intros H. banked_frame H. Qed.

Lemma purge_step_banked (m m' : GameMap.t) oid :
  GameMap.purge_step m oid = Some m' ->
  Operator.banked <$> GameMap.operators m'
  = Operator.banked <$> GameMap.operators m.
Proof. unfold GameMap.purge_step. intros H. banked_frame H. Qed.

(** X20. A tick credits no SP to a skill that is charged by attacking or
    by being hit: for every operator of the world, each skill whose SP type
    is not the time-charged one and that is not an AUTO skill has, after
    [update], the SP and the charges it had before, however many attacks
    the operator made or took during the tick.  (Neither [_process_combat]
    nor anything else in the tick calls [gain_sp_on_attack] or
    [gain_sp_on_damage].) *)
Theorem X20_tick_never_credits_attack_charged_skills
    (m m' : GameMap.t) (delta_time : Q) :
  GameMap.update m delta_time = Some m' ->
  Operator.banked <$> GameMap.operators m'
  = Operator.banked <$> GameMap.operators m.
Proof.
  intros H.
  destruct (update_inv _ _ _ H)
    as (inc & m2 & m3 & m4 & m5 & m6 & _ & E2 & E3 & E4 & E5 & E6 & ->).
  cbv zeta in E2.
  set (bk := fun x : GameMap.t => Operator.banked <$> GameMap.operators x).
  apply (foldM_same bk _ _
           (fun s a s' => operator_tick_banked delta_time s s' a)) in E2.
  pose proof (enemy_loop_frame _ _ _ _ E3) as (_ & _ & _ & _ & O3 & _).
  unfold GameMap._process_combat in E4.
  destruct (Py.foldM GameMap.operator_attack m3 (GameMap.deployed_operators m3))
    as [m3a|] eqn:E4a; simpl in E4; [|discriminate].
  apply (foldM_same bk _ _ (fun s a s' => operator_attack_banked s s' a)) in E4a.
  apply (foldM_same bk _ _ (fun s a s' => enemy_attack_banked s s' a)) in E4.
  unfold GameMap._process_blocking in E5.
  destruct (Py.foldM GameMap.block_step m4 (GameMap.active_enemies m4))
    as [m4a|] eqn:E5a; simpl in E5; [|discriminate].
  destruct (Py.foldM GameMap.purge_step m4a (GameMap.deployed_operators m4a))
    as [m4b|] eqn:E5b; simpl in E5; [|discriminate].
  apply (foldM_same bk _ _ (fun s a s' => block_step_banked s s' a)) in E5a.
  apply (foldM_same bk _ _ (fun s a s' => purge_step_banked s s' a)) in E5b.
  apply (foldM_same bk _ _
           (fun s a s' Hs =>
              f_equal (fmap Operator.banked)
                (proj2 (proj2 (proj2 (proj2
                   (release_step_outcome s s' a Hs))))))) in E5.
  destruct (update_waves_spawned _ _ _ E6) as (_ & _ & _ & O6 & _).
  assert (Hm6 : bk m6 = bk m).
  { unfold bk in *. rewrite O6, E5, E5b, E5a, E4, E4a, O3, E2. reflexivity. }
  destruct (GameMap.victory_condition m6); exact Hm6.
Qed.

(** ** Target selection *)

Lemma first_alive_spec (m : GameMap.t) (l : list nat) :
  forall r, GameMap.first_alive m l = Some r ->
    match r with
    | Some eid =>
        GameMap.alive m eid
        /\ exists l1 l2,
             l = l1 ++ eid :: l2
             /\ forall x, x ∈ l1 -> ~ GameMap.alive m x
    | None => forall x, x ∈ l -> ~ GameMap.alive m x
    end.
Proof.
  induction l as [|x l IH]; intros r H; simpl in H.
  - injection H as <-. intros x Hx. inversion Hx.
  - destruct (GameMap.enemies m !! x) as [e|] eqn:He; simpl in H;
      [|discriminate].
    destruct (GameEntity.is_alive (Enemy.base e)) eqn:Ha.
    + injection H as <-. split; [exists e; auto|].
      exists [], l. split; [reflexivity|]. intros y Hy. inversion Hy.
    + assert (Hx : ~ GameMap.alive m x).
      { intros (e' & He' & Ha'). congruence. }
      specialize (IH r H). destruct r as [eid|].
      * destruct IH as (Hal & l1 & l2 & -> & Hd). split; [exact Hal|].
        exists (x :: l1), l2. split; [reflexivity|].
        intros y Hy. apply elem_of_cons in Hy as [->|Hy]; auto.
      * intros y Hy. apply elem_of_cons in Hy as [->|Hy]; auto.
Qed.

(** The running minimum of the second loop of [_find_attack_target]. *)
Lemma closest_fold (m : GameMap.t) (o : Operator.t) (l : list nat) :
  forall (seen : list nat) (best best' : option (nat * Z)),
    match best with
    | Some (b, d) =>
        b ∈ seen /\ GameMap.in_range m o b d
        /\ forall x dx, x ∈ seen -> GameMap.in_range m o x dx -> d <= dx
    | None => forall x dx, x ∈ seen -> ~ GameMap.in_range m o x dx
    end ->
    Py.foldM (GameMap.closest_step m o) best l = Some best' ->
    match best' with
    | Some (b, d) =>
        b ∈ seen ++ l /\ GameMap.in_range m o b d
        /\ forall x dx, x ∈ seen ++ l -> GameMap.in_range m o x dx -> d <= dx
    | None => forall x dx, x ∈ seen ++ l -> ~ GameMap.in_range m o x dx
    end.
Proof.
  induction l as [|eid l IH]; intros seen best best' Hinv H; simpl in H.
  - injection H as <-. rewrite app_nil_r. exact Hinv.
  - destruct (GameMap.closest_step m o best eid) as [b1|] eqn:E; simpl in H;
      [|discriminate].
    replace (seen ++ eid :: l) with ((seen ++ [eid]) ++ l)
      by (rewrite <- app_assoc; reflexivity).
    apply (IH (seen ++ [eid]) b1 best'); [|exact H].
    clear IH H best'.
    assert (Hout : (forall dx, ~ GameMap.in_range m o eid dx) ->
                   b1 = best ->
                   match b1 with
                   | Some (b, d) =>
                       b ∈ seen ++ [eid] /\ GameMap.in_range m o b d
                       /\ forall x dx, x ∈ seen ++ [eid] ->
                            GameMap.in_range m o x dx -> d <= dx
                   | None => forall x dx, x ∈ seen ++ [eid] ->
                               ~ GameMap.in_range m o x dx
                   end).
    { intros Hno ->. destruct best as [[b d]|].
      - destruct Hinv as (Hb & Hr & Hmin).
        split; [apply elem_of_app; left; exact Hb|].
        split; [exact Hr|]. intros x dx Hx Hxr.
        apply elem_of_app in Hx as [Hx|Hx]; [eauto|].
        apply list_elem_of_singleton in Hx as ->. exfalso. eapply Hno; eauto.
      - intros x dx Hx Hxr.
        apply elem_of_app in Hx as [Hx|Hx]; [eapply Hinv; eauto|].
        apply list_elem_of_singleton in Hx as ->. eapply Hno; eauto. }
    unfold GameMap.closest_step in E.
    destruct (GameMap.enemies m !! eid) as [e|] eqn:He; simpl in E;
      [|discriminate].
    destruct (GameEntity.is_alive (Enemy.base e)) eqn:Ha; cbn [negb] in E.
    2:{ injection E as <-. apply Hout; [|reflexivity].
        intros dx (e' & ep & p & He' & Ha' & _). congruence. }
    destruct (Enemy.position e) as [ep|] eqn:Hp.
    2:{ injection E as <-. apply Hout; [|reflexivity].
        intros dx (e' & ep & p & He' & _ & Hp' & _). congruence. }
    destruct (Operator.can_attack o ep) as [ca|] eqn:Hca; simpl in E;
      [|discriminate].
    destruct ca.
    2:{ injection E as <-. apply Hout; [|reflexivity].
        intros dx (e' & ep' & p & He' & _ & Hp' & Hca' & _). congruence. }
    destruct (Operator.position o) as [|s|p] eqn:Hop; try discriminate.
    assert (Hin : GameMap.in_range m o eid (Position.distance2 p ep)).
    { exists e, ep, p. auto 10. }
    assert (Hd : forall dx, GameMap.in_range m o eid dx ->
                            dx = Position.distance2 p ep).
    { intros dx (e' & ep' & p' & He' & _ & Hp' & _ & Hop' & ->). congruence. }
    destruct best as [[b bd]|].
    + destruct Hinv as (Hb & Hr & Hmin).
      destruct (Z.ltb_spec (Position.distance2 p ep) bd) as [Hlt|Hge];
        injection E as <-.
      * split; [apply elem_of_app; right; left|].
        split; [exact Hin|]. intros x dx Hx Hxr.
        apply elem_of_app in Hx as [Hx|Hx].
        -- specialize (Hmin x dx Hx Hxr). lia.
        -- apply list_elem_of_singleton in Hx as ->.
           rewrite (Hd dx Hxr). lia.
      * split; [apply elem_of_app; left; exact Hb|].
        split; [exact Hr|]. intros x dx Hx Hxr.
        apply elem_of_app in Hx as [Hx|Hx]; [eauto|].
        apply list_elem_of_singleton in Hx as ->.
        rewrite (Hd dx Hxr). lia.
    + injection E as <-. split; [apply elem_of_app; right; left|].
      split; [exact Hin|].
      intros x dx Hx Hxr. apply elem_of_app in Hx as [Hx|Hx].
      * exfalso. eapply Hinv; eauto.
      * apply list_elem_of_singleton in Hx as ->. rewrite (Hd dx Hxr). lia.
Qed.

(** X21. What [_find_attack_target] returns.  A target is always an enemy
    that is alive.  It is the first living enemy of the operator's blocked
    list if there is one, whether or not that enemy is inside the attack
    footprint; otherwise it is an active enemy inside the footprint that
    no other such enemy is closer than.  No target is returned only when
    no blocked enemy is alive and, unless the operator has no position, no
    living active enemy is inside the footprint. *)
Theorem X21_attack_target_is_alive_blocked_first_then_nearest
    (m : GameMap.t) (o : Operator.t) (r : option nat) :
  GameMap._find_attack_target m o = Some r ->
  match r with
  | Some eid =>
      GameMap.alive m eid
      /\ ((exists l1 l2,
              Operator.blocked_enemies o = l1 ++ eid :: l2
              /\ forall x, x ∈ l1 -> ~ GameMap.alive m x)
          \/ ((forall x, x ∈ Operator.blocked_enemies o ->
                         ~ GameMap.alive m x)
              /\ eid ∈ GameMap.active_enemies m
              /\ exists d,
                   GameMap.in_range m o eid d
                   /\ forall x dx,
                        x ∈ GameMap.active_enemies m ->
                        GameMap.in_range m o x dx -> d <= dx))
  | None =>
      Operator.position_truthy o = false
      \/ ((forall x, x ∈ Operator.blocked_enemies o -> ~ GameMap.alive m x)
          /\ forall x dx, x ∈ GameMap.active_enemies m ->
                          ~ GameMap.in_range m o x dx)
  end.
Proof.
  unfold GameMap._find_attack_target. intros H.
  destruct (Operator.position_truthy o) eqn:Hpos; cbn [negb] in H.
  2:{ injection H as <-. left. reflexivity. }
  destruct (GameMap.first_alive m (Operator.blocked_enemies o)) as [b|] eqn:Hb;
    simpl in H; [|discriminate].
  apply first_alive_spec in Hb. destruct b as [eid|].
  - injection H as <-. destruct Hb as [Hal Hl]. split; [exact Hal|].
    left. exact Hl.
  - destruct (Py.foldM (GameMap.closest_step m o) None
                (GameMap.active_enemies m)) as [best|] eqn:Hf; simpl in H;
      [|discriminate].
    injection H as <-.
    apply (closest_fold m o _ [] None best) in Hf.
    2:{ intros x dx Hx. inversion Hx. }
    simpl in Hf. destruct best as [[eid d]|]; simpl.
    + destruct Hf as (Hin & Hr & Hmin). split.
      * destruct Hr as (e & ep & p & He & Ha & _). exists e. auto.
      * right. split; [exact Hb|]. split; [exact Hin|]. exists d. auto.
    + right. split; [exact Hb|exact Hf].
Qed.

(** ** Spawning *)

Lemma action_run_completed (dts : list Q) :
  forall m a, WaveAction.is_completed a = true ->
              GameMap.action_run dts m a = Some (m, a).
Proof.
  induction dts as [|dt dts IH]; intros m a Hc; [reflexivity|].
  cbn [GameMap.action_run]. unfold GameMap.action_tick. rewrite Hc.
  cbn [mbind option_bind fst snd]. apply IH. exact Hc.
Qed.

(** [spawn_enemy] with a route index that Python can resolve. *)
Lemma spawn_enemy_total (m : GameMap.t) key ri :
  - Z.of_nat (length (GameMap.routes m)) <= ri ->
  exists m',
    GameMap.spawn_enemy m key ri = Some m'
    /\ GameMap.routes m' = GameMap.routes m
    /\ GameMap.level m' = GameMap.level m
    /\ length (GameMap.active_enemies m')
       = (length (GameMap.active_enemies m)
          + match Level.get_enemy_by_id (GameMap.level m) key with
            | Some _ => 1
            | None => 0
            end)%nat.
Proof.
  intros Hri. unfold GameMap.spawn_enemy.
  destruct (Level.get_enemy_by_id (GameMap.level m) key) as [d|].
  2:{ exists m. repeat split. lia. }
  cbn [GameMap.set_next_id GameMap.routes].
  destruct (Z.ltb_spec ri (Z.of_nat (length (GameMap.routes m)))) as [Hlt|Hge].
  - assert (Hi : is_Some (Py.index (GameMap.routes m) ri)).
    { unfold Py.index. destruct (Z.leb_spec 0 ri).
      - apply lookup_lt_is_Some_2. lia.
      - destruct (Z.leb_spec (- Z.of_nat (length (GameMap.routes m))) ri);
          [|lia].
        apply lookup_lt_is_Some_2. lia. }
    destruct Hi as [r Hr]. rewrite Hr. cbn [mbind option_bind].
    eexists. split; [reflexivity|]. simpl. rewrite length_app. simpl.
    repeat split.
  - cbn [mbind option_bind].
    eexists. split; [reflexivity|]. simpl. rewrite length_app. simpl.
    repeat split.
Qed.

(** X22. A due SPAWN action over a run of ticks.  Once its delay has
    passed, an uncompleted SPAWN action spawns on every tick, whatever its
    [interval]: after the ticks its [spawned_count] has grown by the number
    of ticks, up to [count], and it is completed exactly when [count] is
    reached.  Every spawn is counted, also one whose enemy key the level
    does not know and which therefore adds no enemy; with a known key the
    active roster grows by one enemy per spawn.  Changing [interval]
    changes nothing but the stored value. *)
Theorem X22_due_spawn_action_spawns_every_tick (dts : list Q) :
  forall (m : GameMap.t) (a : WaveAction.t),
    WaveAction.action_type a = "SPAWN" ->
    WaveAction.is_completed a = false ->
    WaveAction.spawned_count a < WaveAction.count a ->
    (WaveAction.pre_delay a <= WaveAction.current_time a)%Q ->
    Forall (fun dt => (0 <= dt)%Q) dts ->
    - Z.of_nat (length (GameMap.routes m)) <= WaveAction.route_index a ->
    exists m' a',
      GameMap.action_run dts m a = Some (m', a')
      /\ WaveAction.spawned_count a'
         = Z.min (WaveAction.count a)
             (WaveAction.spawned_count a + Z.of_nat (length dts))
      /\ WaveAction.is_completed a'
         = (WaveAction.count a
            <=? WaveAction.spawned_count a + Z.of_nat (length dts))
      /\ Z.of_nat (length (GameMap.active_enemies m'))
         = Z.of_nat (length (GameMap.active_enemies m))
           + match Level.get_enemy_by_id (GameMap.level m)
                     (WaveAction.enemy_key a) with
             | Some _ =>
                 WaveAction.spawned_count a' - WaveAction.spawned_count a
             | None => 0
             end
      /\ forall x,
           GameMap.action_run dts m (WaveAction.with_interval a x)
           = Some (m', WaveAction.with_interval a' x).
Proof.
  induction dts as [|dt dts IH]; intros m a Ht Hc Hn Hd Hpos Hri.
  - exists m, a. split; [reflexivity|]. simpl.
    split; [lia|]. split.
    { rewrite Hc. symmetry. apply Z.leb_gt. lia. }
    split; [|reflexivity].
    destruct (Level.get_enemy_by_id _ _); lia.
  - inversion Hpos as [|? ? Hdt Hpos']; subst.
    destruct (spawn_enemy_total m (WaveAction.enemy_key a)
                (WaveAction.route_index a) Hri)
      as (m1 & Hs & Hr1 & Hl1 & Hlen1).
    set (a1 := WaveAction.set_state
                 (WaveAction.set_state a false
                    (WaveAction.spawned_count a)
                    (WaveAction.current_time a + dt)%Q)
                 (if WaveAction.count a <=? WaveAction.spawned_count a + 1
                  then true else false)
                 (WaveAction.spawned_count a + 1)
                 (WaveAction.current_time a + dt)%Q).
    assert (Htick : forall x,
               GameMap.action_tick dt m (WaveAction.with_interval a x)
               = Some (m1, WaveAction.with_interval a1 x)).
    { intros x. unfold GameMap.action_tick.
      cbn [WaveAction.with_interval WaveAction.is_completed
           WaveAction.set_state WaveAction.pre_delay WaveAction.current_time
           WaveAction.action_type WaveAction.spawned_count WaveAction.count
           WaveAction.enemy_key WaveAction.route_index].
      rewrite Hc, Ht.
      assert (Hdue : Py.leb (WaveAction.pre_delay a)
                       (WaveAction.current_time a + dt) = true).
      { apply Qle_bool_iff. lra. }
      rewrite Hdue. cbn [String.eqb Ascii.eqb Bool.eqb andb].
      destruct (Z.ltb_spec (WaveAction.spawned_count a) (WaveAction.count a));
        [|lia].
      rewrite Hs. subst a1. reflexivity. }
    assert (Htick0 : GameMap.action_tick dt m a = Some (m1, a1)).
    { specialize (Htick (WaveAction.interval a)).
      replace (WaveAction.with_interval a (WaveAction.interval a)) with a
        in Htick by (destruct a; reflexivity).
      rewrite Htick. subst a1. destruct a; reflexivity. }
    assert (Hrun : forall x,
               GameMap.action_run (dt :: dts) m (WaveAction.with_interval a x)
               = GameMap.action_run dts m1 (WaveAction.with_interval a1 x)).
    { intros x. cbn [GameMap.action_run]. rewrite Htick. reflexivity. }
    assert (Hrun0 : GameMap.action_run (dt :: dts) m a
                    = GameMap.action_run dts m1 a1).
    { cbn [GameMap.action_run]. rewrite Htick0. reflexivity. }
    destruct (Z.leb_spec (WaveAction.count a) (WaveAction.spawned_count a + 1))
      as [Hfull|Hmore].
    + (* the last spawn: the action is completed *)
      assert (Hc1 : WaveAction.is_completed a1 = true).
      { subst a1. simpl.
        destruct (Z.leb_spec (WaveAction.count a)
                    (WaveAction.spawned_count a + 1)); [reflexivity|lia]. }
      exists m1, a1. rewrite Hrun0.
      split; [apply action_run_completed; exact Hc1|].
      split; [subst a1; simpl; simpl length; lia|].
      split.
      { rewrite Hc1. symmetry. apply Z.leb_le. simpl length. lia. }
      split.
      { rewrite Hlen1.
        destruct (Level.get_enemy_by_id _ _); subst a1; simpl; lia. }
      intros x. rewrite Hrun. apply action_run_completed. exact Hc1.
    + destruct (IH m1 a1) as (m' & a' & Hr' & Hcnt & Hcomp & Hlen & Hint).
      { exact Ht. }
      { subst a1. simpl.
        destruct (Z.leb_spec (WaveAction.count a)
                    (WaveAction.spawned_count a + 1)); [lia|reflexivity]. }
      { subst a1. simpl. lia. }
      { subst a1. simpl. lra. }
      { exact Hpos'. }
      { rewrite Hr1. exact Hri. }
      exists m', a'. rewrite Hrun0. split; [exact Hr'|].
      assert (Hs1 : WaveAction.spawned_count a1
                    = WaveAction.spawned_count a + 1) by reflexivity.
      assert (Hk1 : WaveAction.count a1 = WaveAction.count a) by reflexivity.
      assert (He1 : WaveAction.enemy_key a1 = WaveAction.enemy_key a)
        by reflexivity.
      rewrite Hs1, Hk1 in *. simpl length.
      split; [lia|]. split.
      { rewrite Hcomp. f_equal. lia. }
      split.
      { rewrite Hlen, Hlen1, Hl1, He1.
        destruct (Level.get_enemy_by_id _ _); lia. }
      intros x. rewrite Hrun. apply Hint.
Qed.

Lemma X20_witness_archer_attacks_without_charging :
  exists m',
    GameMap.update Scenario.archer_fights (1 # 2) = Some m'
    /\ Operator.banked <$> GameMap.operators m'
       = Operator.banked <$> GameMap.operators Scenario.archer_fights.
Proof.
  destruct (GameMap.update Scenario.archer_fights (1 # 2)) as [m'|] eqn:E.
  - exists m'. split; [reflexivity|].
    apply (X20_tick_never_credits_attack_charged_skills
             Scenario.archer_fights m' (1 # 2) E).
  - vm_compute in E. discriminate E.
Defined.

Lemma X21_witness_archer_targets_the_blocked_slug :
  GameMap.alive Scenario.archer_fights 0%nat
  /\ ((exists l1 l2,
          Operator.blocked_enemies Scenario.archer_in_fight
          = l1 ++ 0%nat :: l2
          /\ forall x, x ∈ l1 -> ~ GameMap.alive Scenario.archer_fights x)
      \/ ((forall x, x ∈ Operator.blocked_enemies Scenario.archer_in_fight ->
                     ~ GameMap.alive Scenario.archer_fights x)
          /\ 0%nat ∈ GameMap.active_enemies Scenario.archer_fights
          /\ exists d,
               GameMap.in_range Scenario.archer_fights
                 Scenario.archer_in_fight 0%nat d
               /\ forall x dx,
                    x ∈ GameMap.active_enemies Scenario.archer_fights ->
                    GameMap.in_range Scenario.archer_fights
                      Scenario.archer_in_fight x dx -> d <= dx)).
Proof.
  apply (X21_attack_target_is_alive_blocked_first_then_nearest
           Scenario.archer_fights Scenario.archer_in_fight (Some 0%nat)).
  vm_compute. reflexivity.
Defined.

Lemma X22_witness_three_slugs_in_three_ticks :
  exists m' a',
    GameMap.action_run (repeat 1%Q 4) Scenario.start Scenario.three_slugs
    = Some (m', a')
    /\ WaveAction.spawned_count a'
       = Z.min (WaveAction.count Scenario.three_slugs)
           (WaveAction.spawned_count Scenario.three_slugs
            + Z.of_nat (length (repeat 1%Q 4)))
    /\ WaveAction.is_completed a'
       = (WaveAction.count Scenario.three_slugs
          <=? WaveAction.spawned_count Scenario.three_slugs
              + Z.of_nat (length (repeat 1%Q 4)))
    /\ Z.of_nat (length (GameMap.active_enemies m'))
       = Z.of_nat (length (GameMap.active_enemies Scenario.start))
         + match Level.get_enemy_by_id (GameMap.level Scenario.start)
                   (WaveAction.enemy_key Scenario.three_slugs) with
           | Some _ =>
               WaveAction.spawned_count a'
               - WaveAction.spawned_count Scenario.three_slugs
           | None => 0
           end
    /\ forall x,
         GameMap.action_run (repeat 1%Q 4) Scenario.start
           (WaveAction.with_interval Scenario.three_slugs x)
         = Some (m', WaveAction.with_interval a' x).
Proof.
  apply (X22_due_spawn_action_spawns_every_tick (repeat 1%Q 4)
           Scenario.start Scenario.three_slugs).
  - reflexivity.
  - reflexivity.
  - simpl. lia.
  - simpl. lra.
  - repeat constructor; discriminate.
  - simpl. lia.
Defined.

(** ** The script runner *)

Lemma later_trans (a b c : GameMap.t) :
  GameMap.later a b -> GameMap.later b c -> GameMap.later a c.
Proof.
  intros Hab Hbc. induction Hbc as [|x y _ IH Hs]; [exact Hab|].
  apply (GameMap.later_step a x y); [exact IH|exact Hs].
Qed.

Lemma later_one (a b : GameMap.t) : GameMap.step a b -> GameMap.later a b.
Proof.
  intros Hs. apply (GameMap.later_step a a b); [constructor|exact Hs].
Qed.

(** A script command is one command of the world, or nothing at all. *)
Lemma execute_action_step (s : BattleSimulator.t) (a : BattleAction.t)
    (m : GameMap.t) :
  BattleSimulator._execute_action s a = Some m ->
  m = BattleSimulator.game_map s
  \/ GameMap.step (BattleSimulator.game_map s) m.
Proof.
  unfold BattleSimulator._execute_action, BattleSimulator._execute_deploy,
    BattleSimulator._execute_retreat, BattleSimulator._execute_activate_skill.
  intros H.
  destruct (BattleAction.action_type a);
    try (injection H as <-; left; reflexivity);
    destruct (BattleSimulator.operators s !! BattleAction.operator_id a)
      as [oid|]; try (injection H as <-; left; reflexivity).
  - destruct (BattleAction.position a) as [p|];
      [|injection H as <-; left; reflexivity].
    destruct (GameMap.deploy_operator _ oid p _) as [[r m1]|] eqn:E;
      simpl in H; [|discriminate].
    injection H as <-. right. eapply GameMap.step_deploy; eauto.
  - destruct (GameMap.retreat_operator _ oid) as [[b m1]|] eqn:E;
      simpl in H; [|discriminate].
    injection H as <-. right. eapply GameMap.step_retreat; eauto.
  - destruct (GameMap.operators _ !! oid) as [o|]; simpl in H;
      [|discriminate].
    destruct (negb (Operator.is_deployed o));
      [injection H as <-; left; reflexivity|].
    destruct (GameMap.activate_skill _ oid _) as [[r m1]|] eqn:E;
      simpl in H; [|discriminate].
    injection H as <-. right. eapply GameMap.step_skill; eauto.
Qed.

(** Commands leave the enemies, the lives and the flags alone. *)
Lemma execute_action_outcome (s : BattleSimulator.t) (a : BattleAction.t)
    (m : GameMap.t) :
  BattleSimulator._execute_action s a = Some m ->
  GameMap.outcome m = GameMap.outcome (BattleSimulator.game_map s)
  /\ GameMap.enemies m = GameMap.enemies (BattleSimulator.game_map s)
  /\ GameMap.level m = GameMap.level (BattleSimulator.game_map s)
  /\ GameMap.game_time m = GameMap.game_time (BattleSimulator.game_map s).
Proof.
  unfold BattleSimulator._execute_action, BattleSimulator._execute_deploy,
    BattleSimulator._execute_retreat, BattleSimulator._execute_activate_skill.
  intros H.
  destruct (BattleAction.action_type a);
    try (injection H as <-; auto);
    destruct (BattleSimulator.operators s !! BattleAction.operator_id a)
      as [oid|]; try (injection H as <-; auto).
  - destruct (BattleAction.position a) as [p|];
      [|injection H as <-; auto].
    destruct (GameMap.deploy_operator _ oid p _) as [[r m1]|] eqn:E;
      simpl in H; [|discriminate].
    injection H as <-.
    pose proof (deploy_operator_outcome _ _ _ _ _ _ E) as (O & En & L).
    split; [exact O|]. split; [exact En|]. split; [exact L|].
    destruct (OperationResult.success r) eqn:Hr.
    + destruct (deploy_success_inv _ _ _ _ _ _ E Hr)
        as (o & k & tile & _ & _ & _ & _ & _ & _ & _ & ->). reflexivity.
    + destruct (deploy_failure_inv _ _ _ _ _ _ E Hr) as [-> _]. reflexivity.
  - destruct (GameMap.retreat_operator _ oid) as [[b m1]|] eqn:E;
      simpl in H; [|discriminate].
    injection H as <-.
    pose proof (retreat_operator_outcome _ _ _ _ E) as (O & En & L).
    apply retreat_operator_frame in E. tauto.
  - destruct (GameMap.operators _ !! oid) as [o|]; simpl in H;
      [|discriminate].
    destruct (negb (Operator.is_deployed o)); [injection H as <-; auto|].
    destruct (GameMap.activate_skill _ oid _) as [[r m1]|] eqn:E;
      simpl in H; [|discriminate].
    injection H as <-.
    pose proof (activate_skill_outcome _ _ _ _ _ E) as (O & En & L).
    split; [exact O|]. split; [exact En|]. split; [exact L|].
    unfold GameMap.activate_skill in E.
    inv_step E; try discriminate E; injection E as <- <-. reflexivity.
Qed.

(** The loop of [_execute_actions_at_time]. *)
Lemma actions_loop_spec (current_time : Q) (fuel : nat) :
  forall s s' : BattleSimulator.t,
    (length (BattleSimulator.actions s) - BattleSimulator.action_index s
     <= fuel)%nat ->
    BattleSimulator.actions_loop fuel current_time s = Some s' ->
    exists k : nat,
      BattleSimulator.action_index s'
      = (BattleSimulator.action_index s + k)%nat
      /\ BattleSimulator.operators s' = BattleSimulator.operators s
      /\ length (BattleSimulator.actions s')
         = length (BattleSimulator.actions s)
      /\ (forall i,
            (i < BattleSimulator.action_index s
             \/ BattleSimulator.action_index s + k <= i)%nat ->
            BattleSimulator.actions s' !! i = BattleSimulator.actions s !! i)
      /\ (forall i,
            (BattleSimulator.action_index s <= i
             < BattleSimulator.action_index s + k)%nat ->
            exists a,
              BattleSimulator.actions s !! i = Some a
              /\ (BattleAction.time a <= current_time)%Q
              /\ BattleAction.is_executed a = false
              /\ BattleSimulator.actions s' !! i
                 = Some (BattleAction.set_executed a true))
      /\ (forall a,
            BattleSimulator.actions s
              !! (BattleSimulator.action_index s + k)%nat = Some a ->
            (current_time < BattleAction.time a)%Q
            \/ BattleAction.is_executed a = true)
      /\ GameMap.later (BattleSimulator.game_map s)
           (BattleSimulator.game_map s')
      /\ GameMap.outcome (BattleSimulator.game_map s')
         = GameMap.outcome (BattleSimulator.game_map s)
      /\ GameMap.enemies (BattleSimulator.game_map s')
         = GameMap.enemies (BattleSimulator.game_map s)
      /\ GameMap.game_time (BattleSimulator.game_map s')
         = GameMap.game_time (BattleSimulator.game_map s).
Proof.
  induction fuel as [|fuel IH]; intros s s' Hf H;
    cbn [BattleSimulator.actions_loop] in H.
  - injection H as <-. exists 0%nat. rewrite Nat.add_0_r.
    split; [reflexivity|]. split; [reflexivity|]. split; [reflexivity|].
    split; [auto|]. split; [intros i Hi; lia|].
    split.
    { intros a Ha. apply lookup_lt_Some in Ha. lia. }
    split; [constructor|]. auto.
  - destruct (BattleSimulator.actions s !! BattleSimulator.action_index s)
      as [a|] eqn:Ha.
    2:{ injection H as <-. exists 0%nat. rewrite Nat.add_0_r.
        split; [reflexivity|]. split; [reflexivity|]. split; [reflexivity|].
        split; [auto|]. split; [intros i Hi; lia|].
        split; [intros a' Ha'; congruence|].
        split; [constructor|]. auto. }
    destruct (Py.leb (BattleAction.time a) current_time
              && negb (BattleAction.is_executed a)) eqn:Hc.
    2:{ injection H as <-. exists 0%nat. rewrite Nat.add_0_r.
        split; [reflexivity|]. split; [reflexivity|]. split; [reflexivity|].
        split; [auto|]. split; [intros i Hi; lia|].
        split.
        { intros a' Ha'. assert (a' = a) by congruence. subst a'.
          apply andb_false_iff in Hc as [Hc|Hc].
          - left. apply qle_bool_false. exact Hc.
          - right. apply negb_false_iff. exact Hc. }
        split; [constructor|]. auto. }
    apply andb_true_iff in Hc as [Hdue Hnot].
    apply Qle_bool_iff in Hdue. apply negb_true_iff in Hnot.
    destruct (BattleSimulator._execute_action s a) as [m|] eqn:He;
      simpl in H; [|discriminate].
    pose proof (lookup_lt_Some _ _ _ Ha) as Hlt.
    apply IH in H; [|simpl; rewrite length_insert; lia].
    destruct H as (k & Hi & Ho & Hl & Hout & Hin & Hstop & Hlater & Hoc
                   & Hen & Htm).
    cbn [BattleSimulator.action_index BattleSimulator.actions
         BattleSimulator.operators BattleSimulator.game_map] in *.
    rewrite length_insert in Hl.
    exists (S k). split; [lia|]. split; [exact Ho|]. split; [exact Hl|].
    split.
    { intros i Hi'. rewrite Hout by lia.
      apply list_lookup_insert_ne. lia. }
    split.
    { intros i Hi'.
      destruct (Nat.eq_dec i (BattleSimulator.action_index s)) as [->|Hne].
      - exists a. split; [exact Ha|]. split; [exact Hdue|].
        split; [exact Hnot|]. rewrite Hout by lia.
        apply list_lookup_insert_eq. exact Hlt.
      - destruct (Hin i) as (b & Hb & Hrest); [lia|].
        rewrite list_lookup_insert_ne in Hb by lia.
        exists b. split; [exact Hb|exact Hrest]. }
    split.
    { intros b Hb. apply Hstop.
      replace (S (BattleSimulator.action_index s) + k)%nat
        with (BattleSimulator.action_index s + S k)%nat by lia.
      rewrite list_lookup_insert_ne by lia. exact Hb. }
    pose proof (execute_action_outcome _ _ _ He) as (O1 & E1 & _ & T1).
    split.
    { apply (later_trans _ m); [|exact Hlater].
      destruct (execute_action_step _ _ _ He) as [->|Hs];
        [constructor|apply later_one; exact Hs]. }
    split; [congruence|]. split; congruence.
Qed.

(** X23. [_execute_actions_at_time] runs the actions from [action_index]
    on, in list order, as long as the next one is due and not yet marked:
    each action it runs was due and unmarked, is marked executed whether or
    not its command succeeded, and is never looked at again because the
    index has moved past it; all other actions are left as they were.  It
    stops at the first action that is not due or is already marked, so on
    a list sorted by time whose remaining actions are unmarked, as
    [BattlePlan] builds it, every remaining action is later than the
    current time.  The commands do not touch the enemies, the lives, the
    flags or the clock. *)
Theorem X23_due_actions_run_once_in_order
    (s s' : BattleSimulator.t) (current_time : Q) :
  BattleSimulator._execute_actions_at_time s current_time = Some s' ->
  exists k : nat,
    BattleSimulator.action_index s'
    = (BattleSimulator.action_index s + k)%nat
    /\ length (BattleSimulator.actions s')
       = length (BattleSimulator.actions s)
    /\ (forall i,
          (i < BattleSimulator.action_index s
           \/ BattleSimulator.action_index s + k <= i)%nat ->
          BattleSimulator.actions s' !! i = BattleSimulator.actions s !! i)
    /\ (forall i,
          (BattleSimulator.action_index s <= i
           < BattleSimulator.action_index s + k)%nat ->
          exists a,
            BattleSimulator.actions s !! i = Some a
            /\ (BattleAction.time a <= current_time)%Q
            /\ BattleAction.is_executed a = false
            /\ BattleSimulator.actions s' !! i
               = Some (BattleAction.set_executed a true))
    /\ ((forall i j a b,
           (i <= j)%nat ->
           BattleSimulator.actions s !! i = Some a ->
           BattleSimulator.actions s !! j = Some b ->
           (BattleAction.time a <= BattleAction.time b)%Q) ->
        (forall i a,
           (BattleSimulator.action_index s <= i)%nat ->
           BattleSimulator.actions s !! i = Some a ->
           BattleAction.is_executed a = false) ->
        forall i a,
          (BattleSimulator.action_index s' <= i)%nat ->
          BattleSimulator.actions s' !! i = Some a ->
          (current_time < BattleAction.time a)%Q
          /\ BattleAction.is_executed a = false)
    /\ GameMap.outcome (BattleSimulator.game_map s')
       = GameMap.outcome (BattleSimulator.game_map s)
    /\ GameMap.enemies (BattleSimulator.game_map s')
       = GameMap.enemies (BattleSimulator.game_map s)
    /\ GameMap.game_time (BattleSimulator.game_map s')
       = GameMap.game_time (BattleSimulator.game_map s).
Proof.
  unfold BattleSimulator._execute_actions_at_time. intros H.
  apply actions_loop_spec in H; [|lia].
  destruct H as (k & Hi & _ & Hl & Hout & Hin & Hstop & _ & Hoc & Hen & Htm).
  exists k. split; [exact Hi|]. split; [exact Hl|]. split; [exact Hout|].
  split; [exact Hin|]. split; [|auto].
  intros Hsorted Hfresh i a Hge Ha.
  rewrite Hout in Ha by lia.
  split; [|apply (Hfresh i a); [lia|exact Ha]].
  destruct (lookup_lt_is_Some_2 (BattleSimulator.actions s)
              (BattleSimulator.action_index s + k)) as [b Hb].
  { apply lookup_lt_Some in Ha. lia. }
  destruct (Hstop b Hb) as [Hlate|Hdone].
  - assert (Hij : (BattleSimulator.action_index s + k <= i)%nat) by lia.
    pose proof (Hsorted _ _ _ _ Hij Hb Ha). lra.
  - assert (Hk : (BattleSimulator.action_index s
                  <= BattleSimulator.action_index s + k)%nat) by lia.
    rewrite (Hfresh _ b Hk Hb) in Hdone. discriminate.
Qed.

(** The main loop, whatever the step and the limit. *)
Lemma run_loop_spec (time_step max_time : Q) (fuel : nat) :
  forall (t : Q) (s : BattleSimulator.t) (e : Ending)
         (s' : BattleSimulator.t) (t' : Q),
    BattleSimulator.run_loop fuel time_step max_time t s = (e, s', t') ->
    GameMap.later (BattleSimulator.game_map s) (BattleSimulator.game_map s')
    /\ (e = Victory ->
        GameMap.is_victory (BattleSimulator.game_map s') = true)
    /\ (e = Defeat ->
        GameMap.is_defeat (BattleSimulator.game_map s') = true
        /\ GameMap.is_victory (BattleSimulator.game_map s') = false)
    /\ (e = TimeLimit ->
        ((max_time <= t')%Q
         \/ (t + inject_Z (Z.of_nat fuel) * time_step == t')%Q)
        /\ ((s' = s /\ t' = t)
            \/ (GameMap.is_victory (BattleSimulator.game_map s') = false
                /\ GameMap.is_defeat (BattleSimulator.game_map s') = false))).
Proof.
  induction fuel as [|fuel IH]; intros t s e s' t' H;
    cbn [BattleSimulator.run_loop] in H.
  - injection H as <- <- <-. split; [constructor|].
    split; [discriminate|]. split; [discriminate|]. intros _.
    split; [right; simpl; ring|left; split; reflexivity].
  - destruct (Py.ltb t max_time) eqn:Hlt.
    2:{ injection H as <- <- <-. split; [constructor|].
        split; [discriminate|]. split; [discriminate|]. intros _.
        apply ltb_false_iff in Hlt.
        split; [left; exact Hlt|left; split; reflexivity]. }
    destruct (BattleSimulator._execute_actions_at_time s t) as [s1|] eqn:E1.
    2:{ injection H as <- <- <-. split; [constructor|].
        split; [discriminate|]. split; discriminate. }
    assert (L1 : GameMap.later (BattleSimulator.game_map s)
                   (BattleSimulator.game_map s1)).
    { unfold BattleSimulator._execute_actions_at_time in E1.
      apply actions_loop_spec in E1; [|lia].
      destruct E1 as (k & _ & _ & _ & _ & _ & _ & Hl & _). exact Hl. }
    destruct (GameMap.update (BattleSimulator.game_map s1) time_step)
      as [m|] eqn:E2.
    2:{ injection H as <- <- <-. split; [exact L1|].
        split; [discriminate|]. split; discriminate. }
    assert (L2 : GameMap.later (BattleSimulator.game_map s) m).
    { apply (later_trans _ _ _ L1). apply later_one.
      eapply GameMap.step_update; eauto. }
    cbv zeta in H.
    destruct (GameMap.is_victory m) eqn:Hv.
    { injection H as <- <- <-. simpl. split; [exact L2|].
      split; [auto|]. split; discriminate. }
    destruct (GameMap.is_defeat m) eqn:Hd.
    { injection H as <- <- <-. simpl. split; [exact L2|].
      split; [discriminate|]. split; [auto|discriminate]. }
    apply IH in H. destruct H as (L3 & Hvic & Hdef & Htl).
    cbn [BattleSimulator.set_map BattleSimulator.game_map] in *.
    split; [apply (later_trans _ _ _ L2 L3)|].
    split; [exact Hvic|]. split; [exact Hdef|].
    intros He. destruct (Htl He) as [Hfuel Hflags]. split.
    + destruct Hfuel as [Hmax|Heq]; [left; exact Hmax|right].
      rewrite <- Heq. rewrite Nat2Z.inj_succ. unfold Z.succ.
      rewrite inject_Z_plus. change (inject_Z 1) with 1%Q. ring.
    + right. destruct Hflags as [[-> _]|Hf]; [|exact Hf].
      simpl. auto.
Qed.

(** X24. How [run_simulation] ends, for a world as [GameMap.__init__]
    builds it.  The final world is reached from the initial one by script
    commands and ticks only.  The run ends in victory only with the victory
    flag set, which means no defeat, no active enemy, life points above 0
    and every wave completed; in defeat only with the defeat flag set, the
    victory flag not set and no life point left; and at the time limit only
    when the clock has reached 60 seconds and, after the last tick, neither
    flag is set.  A PAUSE, SPEED_UP or END action of the plan has no part
    in it. *)
Theorem X24_simulation_endings
    (s s' : BattleSimulator.t) (e : Ending) (t' : Q) :
  GameMap.reachable (BattleSimulator.game_map s) ->
  BattleSimulator.run_simulation s = (e, s', t') ->
  GameMap.later (BattleSimulator.game_map s) (BattleSimulator.game_map s')
  /\ match e with
     | Victory =>
         GameMap.is_victory (BattleSimulator.game_map s') = true
         /\ GameMap.is_defeat (BattleSimulator.game_map s') = false
         /\ GameMap.active_enemies (BattleSimulator.game_map s') = []
         /\ 0 < GameMap.current_life_points (BattleSimulator.game_map s')
         /\ (length (GameMap.waves (BattleSimulator.game_map s'))
             <= GameMap.current_wave_index (BattleSimulator.game_map s'))%nat
     | Defeat =>
         GameMap.is_defeat (BattleSimulator.game_map s') = true
         /\ GameMap.is_victory (BattleSimulator.game_map s') = false
         /\ GameMap.current_life_points (BattleSimulator.game_map s') <= 0
     | TimeLimit =>
         (BattleSimulator.max_simulation_time <= t')%Q
         /\ GameMap.is_victory (BattleSimulator.game_map s') = false
         /\ GameMap.is_defeat (BattleSimulator.game_map s') = false
     | Crashed => True
     end.
Proof.
  intros Hr H. unfold BattleSimulator.run_simulation in H.
  destruct (run_loop_spec _ _ _ _ _ _ _ _ H) as (Hl & Hv & Hd & Ht).
  split; [exact Hl|].
  pose proof (later_reachable _ _ Hl Hr) as Hr'.
  destruct e.
  - specialize (Hv eq_refl).
    pose proof (reachable_victory_ok _ Hr' Hv) as Hc.
    apply victory_condition_spec in Hc. tauto.
  - destruct (Hd eq_refl) as [Hdef Hvic].
    split; [exact Hdef|]. split; [exact Hvic|].
    apply (reachable_defeat_life _ Hr' Hdef).
  - destruct (Ht eq_refl) as [Hfuel Hflags].
    assert (Hmax : (BattleSimulator.max_simulation_time <= t')%Q).
    { destruct Hfuel as [Hmax|Heq]; [exact Hmax|].
      rewrite <- Heq. vm_compute. discriminate. }
    split; [exact Hmax|].
    destruct Hflags as [[_ ->]|Hf]; [|exact Hf].
    exfalso. revert Hmax. vm_compute. intros Hc. apply Hc. reflexivity.
  - exact I.
Qed.

Lemma runner_reachable :
  GameMap.reachable (BattleSimulator.game_map Scenario.runner).
Proof. exact start_reachable. Qed.

Lemma X23_witness_first_command_of_the_script :
  exists s',
    BattleSimulator._execute_actions_at_time Scenario.runner 0 = Some s'
    /\ exists k : nat,
         BattleSimulator.action_index s'
         = (BattleSimulator.action_index Scenario.runner + k)%nat
         /\ length (BattleSimulator.actions s')
            = length (BattleSimulator.actions Scenario.runner)
         /\ (forall i,
               (i < BattleSimulator.action_index Scenario.runner
                \/ BattleSimulator.action_index Scenario.runner + k <= i)%nat ->
               BattleSimulator.actions s' !! i
               = BattleSimulator.actions Scenario.runner !! i)
         /\ (forall i,
               (BattleSimulator.action_index Scenario.runner <= i
                < BattleSimulator.action_index Scenario.runner + k)%nat ->
               exists a,
                 BattleSimulator.actions Scenario.runner !! i = Some a
                 /\ (BattleAction.time a <= 0)%Q
                 /\ BattleAction.is_executed a = false
                 /\ BattleSimulator.actions s' !! i
                    = Some (BattleAction.set_executed a true))
         /\ ((forall i j a b,
                (i <= j)%nat ->
                BattleSimulator.actions Scenario.runner !! i = Some a ->
                BattleSimulator.actions Scenario.runner !! j = Some b ->
                (BattleAction.time a <= BattleAction.time b)%Q) ->
             (forall i a,
                (BattleSimulator.action_index Scenario.runner <= i)%nat ->
                BattleSimulator.actions Scenario.runner !! i = Some a ->
                BattleAction.is_executed a = false) ->
             forall i a,
               (BattleSimulator.action_index s' <= i)%nat ->
               BattleSimulator.actions s' !! i = Some a ->
               (0 < BattleAction.time a)%Q
               /\ BattleAction.is_executed a = false)
         /\ GameMap.outcome (BattleSimulator.game_map s')
            = GameMap.outcome (BattleSimulator.game_map Scenario.runner)
         /\ GameMap.enemies (BattleSimulator.game_map s')
            = GameMap.enemies (BattleSimulator.game_map Scenario.runner)
         /\ GameMap.game_time (BattleSimulator.game_map s')
            = GameMap.game_time (BattleSimulator.game_map Scenario.runner).
Proof.
  destruct (BattleSimulator._execute_actions_at_time Scenario.runner 0)
    as [s'|] eqn:E.
  - exists s'. split; [reflexivity|].
    apply (X23_due_actions_run_once_in_order Scenario.runner s' 0 E).
  - vm_compute in E. discriminate E.
Defined.

Lemma X24_witness_scripted_battle :
  exists e s' t',
    BattleSimulator.run_simulation Scenario.runner = (e, s', t')
    /\ GameMap.later (BattleSimulator.game_map Scenario.runner)
         (BattleSimulator.game_map s')
    /\ match e with
       | Victory =>
           GameMap.is_victory (BattleSimulator.game_map s') = true
           /\ GameMap.is_defeat (BattleSimulator.game_map s') = false
           /\ GameMap.active_enemies (BattleSimulator.game_map s') = []
           /\ 0 < GameMap.current_life_points (BattleSimulator.game_map s')
           /\ (length (GameMap.waves (BattleSimulator.game_map s'))
               <= GameMap.current_wave_index
                    (BattleSimulator.game_map s'))%nat
       | Defeat =>
           GameMap.is_defeat (BattleSimulator.game_map s') = true
           /\ GameMap.is_victory (BattleSimulator.game_map s') = false
           /\ GameMap.current_life_points (BattleSimulator.game_map s') <= 0
       | TimeLimit =>
           (BattleSimulator.max_simulation_time <= t')%Q
           /\ GameMap.is_victory (BattleSimulator.game_map s') = false
           /\ GameMap.is_defeat (BattleSimulator.game_map s') = false
       | Crashed => True
       end.
Proof.
  destruct (BattleSimulator.run_simulation Scenario.runner)
    as [[e s'] t'] eqn:E.
  exists e, s', t'. split; [reflexivity|].
  apply (X24_simulation_endings Scenario.runner s' e t' runner_reachable E).
Defined.

(** The scripted battle of the scenario is won. *)
Example scripted_battle_is_won :
  (BattleSimulator.run_simulation Scenario.runner).1.1 = Victory.
Proof. vm_compute. reflexivity. Qed.
